(** * Mandelbrot tile renderer (p5.js.mandelbrot1.js): shallow embedding

    The script has a main thread ([setup], [renderTileWithWorkers], the
    [worker.onmessage] handler) and a worker script ([onmessage],
    [hsbToRgb]).  Both are embedded below as Rocq functions.

    Numbers.  A JavaScript number is an IEEE 754 binary64 value; it is
    modelled by Rocq's primitive [float], whose [+ - * /] and [sqrt] are the
    binary64 operations (round to nearest, ties to even).  The quantities the
    script only ever uses as integers (pixel sizes, offsets, row and column
    indices, loop counters, [maxIter], [WORKER_COUNT]) are kept in [Z] and
    enter the real-valued arithmetic through [Js.of_Z].  The integer
    arithmetic of the main thread ([setup], the strips of
    [renderTileWithWorkers]) is given twice: on integers ([Main.setup],
    [Scheduler.strip]), which is what the rest of the development runs on,
    and operation by operation on numbers (module [Number]).  The two are
    proved to agree for sizes below 2^52, and the properties of the tile
    geometry and of the strips are stated for such sizes; beyond 2^53 the
    products are rounded and the two differ.  [Math.log] is
    implementation-approximated in ECMAScript and is a parameter of the
    worker.

    Layout.  The definitions come first: the embedding (modules [Js],
    [Main], [Number], [Msg], [Reply], [Worker], [Scheduler], [Download]),
    the notions the
    properties are stated with ([B64], [Spec]) and the concrete inputs
    ([Example]).  The properties follow: tile geometry, strips, the escape-time loop, the color mapper,
    the pixel buffers and their reassembly, the completion counter.  The
    range of [hsbToRgb] and the absence of NaN in the loop need the real
    values of binary64 numbers; the rounding of [SpecFloat] is related to
    the real order for that purpose (monotone rounding between two numbers
    of the format), and lifted to the primitive operations.  The last part
    of the file states what else the code shows: the sizes of the tiles and
    the number of workers used, the first turns and the symmetries of the
    loop, special colors, the shape of the buffers, what happens to a tile
    of no width or height, how a tile relates to the whole image, and the
    name of the file. *)

From Stdlib Require Import ZArith Lia List Bool Floats Reals Lra Psatz.
From stdpp Require Import base list.
From Stdlib Require String Ascii DecimalString DecimalZ.
Import ListNotations.

#[local] Set Warnings "-inexact-float".
#[local] Open Scope Z_scope.

(** ** JavaScript number primitives *)

Module Js.

(** Integer to Number conversion (the nearest binary64 value). *)
Definition of_Z (z : Z) : float :=
  SF2Prim (binary_normalize prec emax z 0 false).

(** [Math.LN2]. *)
Definition LN2 : float := 0x1.62e42fefa39efp-1%float.

(** [Math.max(a, b)]: NaN if either is NaN, and +0 above -0. *)
Definition Math_max (a b : float) : float :=
  if is_nan a || is_nan b then nan
  else if (a <? b)%float then b
  else if (b <? a)%float then a
  else if get_sign a then b else a.

(** [Math.min(a, b)]: NaN if either is NaN, and -0 below +0. *)
Definition Math_min (a b : float) : float :=
  if is_nan a || is_nan b then nan
  else if (a <? b)%float then a
  else if (b <? a)%float then b
  else if get_sign a then a else b.

(** [Math.floor(x)]. A finite number is [(-1)^s * m * 2^e]. *)
Definition Math_floor (x : float) : float :=
  match Prim2SF x with
  | S754_finite s m e =>
      if 0 <=? e then x
      else
        let q := Zpos m / 2 ^ (- e) in
        let r := Zpos m mod 2 ^ (- e) in
        if s then of_Z (- (if r =? 0 then q else q + 1)) else of_Z q
  | _ => x
  end.

(** [Math.ceil(x)]; a negative number above -1 gives -0. *)
Definition Math_ceil (x : float) : float :=
  match Prim2SF x with
  | S754_finite s m e =>
      if 0 <=? e then x
      else
        let q := Zpos m / 2 ^ (- e) in
        let r := Zpos m mod 2 ^ (- e) in
        if s then (if q =? 0 then neg_zero else Js.of_Z (- q))
        else Js.of_Z (if r =? 0 then q else q + 1)
  | _ => x
  end.

(** [Math.round(x)]: the integer [floor(x + 1/2)], taken exactly; a zero
    result keeps the sign of [x]. *)
Definition Math_round (x : float) : float :=
  match Prim2SF x with
  | S754_finite s m e =>
      if 0 <=? e then x
      else
        let n := (2 * cond_Zopp s (Zpos m) + 2 ^ (- e)) / 2 ^ (- e + 1) in
        if n =? 0 then (if s then neg_zero else zero) else of_Z n
  | _ => x
  end.

(** The [%] operator on numbers: the exact remainder of the truncating
    division, with the sign of the dividend. *)
Definition rem (a b : float) : float :=
  match Prim2SF a, Prim2SF b with
  | S754_nan, _ | _, S754_nan => nan
  | S754_infinity _, _ => nan
  | _, S754_zero _ => nan
  | _, S754_infinity _ => a
  | S754_zero _, _ => a
  | S754_finite sa ma ea, S754_finite _ mb eb =>
      let e := Z.min ea eb in
      let r := (Zpos ma * 2 ^ (ea - e)) mod (Zpos mb * 2 ^ (eb - e)) in
      SF2Prim (binary_normalize prec emax (cond_Zopp sa r) e sa)
  end.

(** Storing a number into a [Uint8ClampedArray] element (ToUint8Clamp):
    NaN becomes 0, the value is clamped to [0, 255] and rounded to the
    nearest integer, ties to even. *)
Definition ToUint8Clamp (x : float) : Z :=
  match Prim2SF x with
  | S754_finite false m e =>
      if 0 <=? e then Z.min 255 (Zpos m * 2 ^ e)
      else
        let q := Zpos m / 2 ^ (- e) in
        let r2 := 2 * (Zpos m mod 2 ^ (- e)) in
        Z.min 255
          (if r2 <? 2 ^ (- e) then q
           else if 2 ^ (- e) <? r2 then q + 1
           else if Z.even q then q else q + 1)
  | S754_infinity false => 255
  | _ => 0
  end.

(** [for (let i = lo; i < hi; i++)]: the values [i] takes, in order. *)
Definition range (lo hi : Z) : list Z :=
  map (fun k => lo + Z.of_nat k) (seq 0 (Z.to_nat (hi - lo))).

(** [a[i] = v] on a typed array: an index outside the array is ignored. *)
Definition store (a : list Z) (i : Z) (v : Z) : list Z :=
  if i <? 0 then a else <[Z.to_nat i := v]> a.

End Js.

(** ** The real numbers that binary64 values denote *)

Module B64.

(** [2^e]. *)
Definition bpow (e : Z) : R := powerRZ 2 e.

(** [m * 2^e]. *)
Definition F2R (m e : Z) : R := (IZR m * bpow e)%R.

(** Where [x >= 0] lies on the grid of step [2^e]: at [m * 2^e] or strictly
    between [m * 2^e] and [(m + 1) * 2^e]. *)
Definition located (x : R) (m e : Z) (l : location) : Prop :=
  match l with
  | loc_Exact => x = F2R m e
  | loc_Inexact _ => (F2R m e < x < F2R (m + 1) e)%R
  end.

(** The value of a finite number; zeros, infinities and NaN are given 0. *)
Definition SF2R (x : spec_float) : R :=
  match x with
  | S754_finite s m e => F2R (cond_Zopp s (Zpos m)) e
  | _ => 0%R
  end.

Definition finite_SF (x : spec_float) : Prop :=
  match x with
  | S754_zero _ | S754_finite _ _ _ => True
  | _ => False
  end.

(** The value of a number, and the numbers that have one. *)
Definition value (x : float) : R := SF2R (Prim2SF x).

Definition finite (x : float) : Prop := finite_SF (Prim2SF x).

(** A number between 0 and 1. *)
Definition unit_number (c : float) : Prop :=
  finite c /\ (0 <= value c <= 1)%R.

(** The numbers that are not negative: a zero, a positive finite number or
    [+infinity]. *)
Definition nonneg_SF (x : spec_float) : Prop :=
  match x with
  | S754_zero _ | S754_infinity false | S754_finite false _ _ => True
  | _ => False
  end.

Definition nonneg (x : float) : Prop := nonneg_SF (Prim2SF x).

(** The finite numbers of value 0: the two zeros. *)
Definition zero_number (c : float) : Prop := finite c /\ value c = 0%R.

Definition zero_SF (x : spec_float) : Prop :=
  match x with S754_zero _ => True | _ => False end.

(** [y'] is [-y], or both are zeros (of any sign): what becomes of a number
    and of its opposite when the same computation is run on both. *)
Definition mirrored_SF (y y' : spec_float) : Prop :=
  y' = SFopp y \/ (zero_SF y /\ zero_SF y').

Definition mirrored (y y' : float) : Prop :=
  mirrored_SF (Prim2SF y) (Prim2SF y').

End B64.

(** ** Main thread: configuration constants and [setup] *)

Module Main.

(** The top-level constants of the script. [WORKER_COUNT] is
    [navigator.hardwareConcurrency + 2 || 4], read once. *)
Record Config := {
  MAX_ITER : Z;
  ESCAPE_RADIUS : float;
  WORKER_COUNT : Z;
  FULL_WIDTH : Z;
  FULL_HEIGHT : Z;
  ROWS : Z;
  COLS : Z;
  ROW : Z;
  COL : Z;
  cenX : float;
  cenY : float;
  zoom : float
}.

Definition ASPECT_RATIO (c : Config) : float :=
  (Js.of_Z (FULL_WIDTH c) / Js.of_Z (FULL_HEIGHT c))%float.

(** Line 5, [navigator.hardwareConcurrency + 2 || 4]: the property is a
    number or [undefined]; [undefined + 2] is NaN, and [||] takes its right
    operand when the left one is NaN or a zero. *)
Definition WORKER_COUNT_of (hardwareConcurrency : option float) : float :=
  let sum :=
    match hardwareConcurrency with
    | Some n => (n + 2)%float
    | None => nan
    end in
  if is_nan sum || is_zero sum then 4%float else sum.

(** The globals [tileX, tileY, tileWidth, tileHeight] that [setup] assigns. *)
Record Globals := {
  tileX : Z;
  tileY : Z;
  tileWidth : Z;
  tileHeight : Z
}.

(** [setup()], lines 31-43: the geometry of tile ([ROW], [COL]), on
    integers. These are the integers that the numbers of [Number.setup]
    hold when the sizes are below [2^52] (lemma [setup_exact]). *)
Definition setup (c : Config) : Globals :=
  let tileWidth0 := FULL_WIDTH c / COLS c in
  let tileHeight0 := FULL_HEIGHT c / ROWS c in
  let extraW := FULL_WIDTH c - tileWidth0 * COLS c in
  let extraH := FULL_HEIGHT c - tileHeight0 * ROWS c in
  let tileX := COL c * tileWidth0 in
  let tileY := ROW c * tileHeight0 in
  let tileWidth1 := if COL c =? COLS c - 1 then tileWidth0 + extraW else tileWidth0 in
  let tileHeight1 := if ROW c =? ROWS c - 1 then tileHeight0 + extraH else tileHeight0 in
  {| tileX := tileX; tileY := tileY; tileWidth := tileWidth1; tileHeight := tileHeight1 |}.

End Main.

(** ** The main thread's arithmetic on numbers *)

Module Number.

(** The globals [tileX, tileY, tileWidth, tileHeight] as the numbers that
    [setup] assigns. *)
Record Globals := {
  tileX : float;
  tileY : float;
  tileWidth : float;
  tileHeight : float
}.

(** Globals that hold the given integers. *)
Definition of_Globals (g : Main.Globals) : Globals :=
  {| tileX := Js.of_Z (Main.tileX g);
     tileY := Js.of_Z (Main.tileY g);
     tileWidth := Js.of_Z (Main.tileWidth g);
     tileHeight := Js.of_Z (Main.tileHeight g) |}.

(** [setup()], lines 31-43, operation by operation. *)
Definition setup (c : Main.Config) : Globals :=
  let FULL_WIDTH := Js.of_Z (Main.FULL_WIDTH c) in
  let FULL_HEIGHT := Js.of_Z (Main.FULL_HEIGHT c) in
  let ROWS := Js.of_Z (Main.ROWS c) in
  let COLS := Js.of_Z (Main.COLS c) in
  let ROW := Js.of_Z (Main.ROW c) in
  let COL := Js.of_Z (Main.COL c) in
  let tileWidth0 := Js.Math_floor (FULL_WIDTH / COLS) in
  let tileHeight0 := Js.Math_floor (FULL_HEIGHT / ROWS) in
  let extraW := (FULL_WIDTH - tileWidth0 * COLS)%float in
  let extraH := (FULL_HEIGHT - tileHeight0 * ROWS)%float in
  let tileX := (COL * tileWidth0)%float in
  let tileY := (ROW * tileHeight0)%float in
  let tileWidth1 :=
    if (COL =? COLS - 1)%float then (tileWidth0 + extraW)%float
    else tileWidth0 in
  let tileHeight1 :=
    if (ROW =? ROWS - 1)%float then (tileHeight0 + extraH)%float
    else tileHeight0 in
  {| tileX := tileX; tileY := tileY;
     tileWidth := tileWidth1; tileHeight := tileHeight1 |}.

(** Line 63, [Math.ceil(tileHeight / WORKER_COUNT)]. *)
Definition tileStripHeight (c : Main.Config) (g : Globals) : float :=
  Js.Math_ceil (tileHeight g / Js.of_Z (Main.WORKER_COUNT c)).

(** Lines 69-70: [(startYInTile, endYInTile)] when the loop counter is
    [i]. *)
Definition strip (c : Main.Config) (g : Globals) (i : float)
  : float * float :=
  let startYInTile := (i * tileStripHeight c g)%float in
  let endYInTile :=
    Js.Math_min (startYInTile + tileStripHeight c g) (tileHeight g) in
  (startYInTile, endYInTile).

(** Line 73, [startYInTile >= endYInTile]. *)
Definition skipped (s : float * float) : bool := (snd s <=? fst s)%float.

(** Line 65, [for (let i = 0; i < WORKER_COUNT; i++)]: the values the
    counter takes from [i] on, in at most [fuel] turns. *)
Fixpoint counter (fuel : nat) (c : Main.Config) (i : float) : list float :=
  match fuel with
  | O => []
  | S fuel' =>
      if (i <? Js.of_Z (Main.WORKER_COUNT c))%float
      then i :: counter fuel' c (i + 1)
      else []
  end.

End Number.

(** ** Messages between the main thread and a worker *)

Module Msg.

(** The object passed to [worker.postMessage], lines 79-94. *)
Record data := {
  tileWidth : Z;
  tileHeight : Z;
  startYInTile : Z;
  endYInTile : Z;
  fullWidth : Z;
  fullHeight : Z;
  tileOffsetX : Z;
  tileOffsetY : Z;
  maxIter : Z;
  cenX : float;
  cenY : float;
  zoom : float;
  aspectRatio : float
}.

End Msg.

Module Reply.

(** The object a worker posts back, line 232. *)
Record data := {
  pixels : list Z;
  startYInTile : Z;
  endYInTile : Z
}.

End Reply.

(** ** Worker script *)

Module Worker.

Record rgb := { r : float; g : float; b : float }.

(** [hsbToRgb(h, s, v)], lines 236-262. When no [case] of the [switch]
    matches, [r, g, b] stay [undefined], and [undefined * 255] is NaN. *)
Definition hsbToRgb (h s v : float) : rgb :=
  let h := Js.rem (Js.rem h 360 + 360) 360 in
  let s := (Js.Math_max 0 (Js.Math_min 100 s) / 100)%float in
  let v := (Js.Math_max 0 (Js.Math_min 100 v) / 100)%float in
  let i := Js.Math_floor (h / 60) in
  let f := (h / 60 - i)%float in
  let p := (v * (1 - s))%float in
  let q := (v * (1 - s * f))%float in
  let t := (v * (1 - s * (1 - f)))%float in
  let k := Js.rem i 6 in
  let '(r, g, b) :=
    if (k =? 0)%float then (v, t, p)
    else if (k =? 1)%float then (q, v, p)
    else if (k =? 2)%float then (p, v, t)
    else if (k =? 3)%float then (p, q, v)
    else if (k =? 4)%float then (t, p, v)
    else if (k =? 5)%float then (v, p, q)
    else (nan, nan, nan) in
  {| r := Js.Math_round (r * 255);
     g := Js.Math_round (g * 255);
     b := Js.Math_round (b * 255) |}.

(** The variables of the iteration, lines 160-162. *)
Record zstate := {
  zx : float;
  zy : float;
  zx2 : float;
  zy2 : float;
  iter : Z
}.

Definition z0 : zstate :=
  {| zx := 0; zy := 0; zx2 := 0; zy2 := 0; iter := 0 |}.

(** The loop condition of line 164. *)
Definition continues (maxIter : Z) (st : zstate) : bool :=
  (zx2 st + zy2 st <? 4)%float && (iter st <? maxIter).

(** The loop body, lines 165-169. *)
Definition body (cx cy : float) (st : zstate) : zstate :=
  let zy' := (2 * zx st * zy st + cy)%float in
  let zx' := (zx2 st - zy2 st + cx)%float in
  {| zx := zx'; zy := zy';
     zx2 := (zx' * zx')%float; zy2 := (zy' * zy')%float;
     iter := iter st + 1 |}.

(** The [while] loop, unrolled at most [fuel] times. *)
Fixpoint while_loop (fuel : nat) (cx cy : float) (maxIter : Z) (st : zstate)
  : zstate :=
  match fuel with
  | O => st
  | S fuel' =>
      if continues maxIter st
      then while_loop fuel' cx cy maxIter (body cx cy st)
      else st
  end.

(** Lines 160-170. The counter bounds the number of turns by [maxIter]. *)
Definition escape (cx cy : float) (maxIter : Z) : zstate :=
  while_loop (Z.to_nat maxIter) cx cy maxIter z0.

Section WithLog.

(** [Math.log]. *)
Variable Math_log : float -> float.

(** Lines 182-184, from the counter and the magnitude [zn]. *)
Definition smoothIter_of (iter : Z) (zn : float) : float :=
  let safeZn := Js.Math_max zn 1e-10 in
  let nu := (Math_log (Math_log safeZn / Js.LN2) / Js.LN2)%float in
  (Js.of_Z (iter + 1) - nu)%float.

(** Lines 186-194: hue, saturation and brightness of an escaped point. *)
Definition hsb_of (maxIter iter : Z) (zn : float) : float * float * float :=
  let smoothIter := smoothIter_of iter zn in
  let hue := Js.rem (smoothIter / Js.of_Z maxIter * 1080) 360 in
  let saturation := 125%float in
  let brightness :=
    if (smoothIter <? Js.of_Z maxIter * 0.1)%float
    then Js.Math_min 100 (smoothIter / Js.of_Z maxIter * 1000)
    else Js.Math_min 100 (30 + smoothIter / Js.of_Z maxIter * 70) in
  let brightness :=
    if (Js.of_Z maxIter * 0.9 <? Js.of_Z iter)%float
    then (brightness *
          (Js.of_Z (maxIter - iter) / (Js.of_Z maxIter * 0.1)))%float
    else brightness in
  (hue, saturation, brightness).

(** Lines 182-200: the bytes written for an escaped point. *)
Definition color (maxIter iter : Z) (zn : float) : list Z :=
  let '(hue, saturation, brightness) := hsb_of maxIter iter zn in
  let c := hsbToRgb hue saturation brightness in
  [Js.ToUint8Clamp (r c); Js.ToUint8Clamp (g c); Js.ToUint8Clamp (b c); 255].

(** Lines 172-201: the four bytes written for one pixel. *)
Definition shade (maxIter : Z) (st : zstate) : list Z :=
  if iter st =? maxIter then [0; 0; 0; 255]
  else
    let zn := PrimFloat.sqrt (zx2 st + zy2 st) in
    color maxIter (iter st) zn.

Definition xScale (d : Msg.data) : float :=
  (Msg.zoom d * 2 * Msg.aspectRatio d / Js.of_Z (Msg.fullWidth d))%float.

Definition yScale (d : Msg.data) : float :=
  (Msg.zoom d * 2 / Js.of_Z (Msg.fullHeight d))%float.

(** Lines 150-151. *)
Definition cy_of (d : Msg.data) (y : Z) : float :=
  let globalY := Msg.tileOffsetY d + y in
  ((Js.of_Z globalY - Js.of_Z (Msg.fullHeight d) / 2) * yScale d
   + Msg.cenY d)%float.

(** Lines 156-157. *)
Definition cx_of (d : Msg.data) (x : Z) : float :=
  let globalX := Msg.tileOffsetX d + x in
  ((Js.of_Z globalX - Js.of_Z (Msg.fullWidth d) / 2) * xScale d
   + Msg.cenX d)%float.

(** The bytes of the pixel at local position [(x, y)]. *)
Definition pixel_bytes (d : Msg.data) (x y : Z) : list Z :=
  shade (Msg.maxIter d) (escape (cx_of d x) (cy_of d y) (Msg.maxIter d)).

(** Four consecutive stores at [pixelIndex .. pixelIndex + 3]. *)
Definition store_pixel (pixels : list Z) (pixelIndex : Z) (bytes : list Z)
  : list Z :=
  fold_left (fun px '(k, v) => Js.store px (pixelIndex + Z.of_nat k) v)
            (combine (seq 0 4) bytes) pixels.

(** The body of the inner loop, lines 153-228. *)
Definition column_step (d : Msg.data) (y rowOffset : Z)
  (pixels : list Z) (x : Z) : list Z :=
  let pixelIndex := rowOffset + x * 4 in
  store_pixel pixels pixelIndex (pixel_bytes d x y).

(** The body of the outer loop, lines 147-229. *)
Definition row_step (d : Msg.data) (pixels : list Z) (y : Z) : list Z :=
  let rowOffset := (y - Msg.startYInTile d) * Msg.tileWidth d * 4 in
  fold_left (column_step d y rowOffset) (Js.range 0 (Msg.tileWidth d)) pixels.

(** [onmessage], lines 130-233. [new Uint8ClampedArray(n)] is [n] zero
    bytes. *)
Definition onmessage (d : Msg.data) : Reply.data :=
  let rows := Msg.endYInTile d - Msg.startYInTile d in
  let pixels0 := replicate (Z.to_nat (Msg.tileWidth d * rows * 4)) 0 in
  let pixels :=
    fold_left (row_step d)
              (Js.range (Msg.startYInTile d) (Msg.endYInTile d)) pixels0 in
  {| Reply.pixels := pixels;
     Reply.startYInTile := Msg.startYInTile d;
     Reply.endYInTile := Msg.endYInTile d |}.

End WithLog.

End Worker.

(** ** Main thread: [renderTileWithWorkers] and the reply handler *)

Module Scheduler.

Import Main.

(** What the main thread holds while a tile is rendered: the counter
    [completedWorkers], the bytes of the tile canvas (RGBA, row-major), the
    messages posted to workers that have not answered yet, and the canvases
    handed to [saveCanvas] so far. *)
Record state := {
  completedWorkers : Z;
  canvas : list Z;
  posted : list Msg.data;
  saved : list (list Z)
}.

(** Line 63, [Math.ceil(tileHeight / WORKER_COUNT)], on integers: the
    integer that [Number.tileStripHeight] holds for sizes below [2^52]
    (lemma [strip_exact]). *)
Definition tileStripHeight (c : Config) (g : Globals) : Z :=
  - ((- tileHeight g) / WORKER_COUNT c).

(** Lines 69-70: [(startYInTile, endYInTile)] of worker [i], on integers
    (see [Number.strip] and lemma [strip_exact]). *)
Definition strip (c : Config) (g : Globals) (i : Z) : Z * Z :=
  let startYInTile := i * tileStripHeight c g in
  let endYInTile := Z.min (startYInTile + tileStripHeight c g) (tileHeight g) in
  (startYInTile, endYInTile).

(** Lines 79-94. *)
Definition message (c : Config) (g : Globals) (startY endY : Z) : Msg.data :=
  {| Msg.tileWidth := tileWidth g;
     Msg.tileHeight := tileHeight g;
     Msg.startYInTile := startY;
     Msg.endYInTile := endY;
     Msg.fullWidth := FULL_WIDTH c;
     Msg.fullHeight := FULL_HEIGHT c;
     Msg.tileOffsetX := tileX g;
     Msg.tileOffsetY := tileY g;
     Msg.maxIter := MAX_ITER c;
     Msg.cenX := cenX c;
     Msg.cenY := cenY c;
     Msg.zoom := zoom c;
     Msg.aspectRatio := ASPECT_RATIO c |}.

(** One turn of the loop of lines 65-124: an empty strip is counted as
    completed at once, another one is posted to its worker. *)
Definition dispatch_step (c : Config) (g : Globals) (st : state) (i : Z)
  : state :=
  let '(startYInTile, endYInTile) := strip c g i in
  if startYInTile >=? endYInTile then
    {| completedWorkers := completedWorkers st + 1;
       canvas := canvas st; posted := posted st; saved := saved st |}
  else
    {| completedWorkers := completedWorkers st;
       canvas := canvas st;
       posted := posted st ++ [message c g startYInTile endYInTile];
       saved := saved st |}.

(** [createCanvas(tileWidth, tileHeight)]: transparent black. *)
Definition createCanvas (w h : Z) : list Z :=
  replicate (Z.to_nat (w * h * 4)) 0.

(** The state when [renderTileWithWorkers] starts, lines 58-60. *)
Definition start (g : Globals) : state :=
  {| completedWorkers := 0;
     canvas := createCanvas (tileWidth g) (tileHeight g);
     posted := [];
     saved := [] |}.

(** [renderTileWithWorkers()], lines 56-125: the state once the loop has
    run; the replies arrive afterwards, one event at a time. *)
Definition renderTileWithWorkers (c : Config) (g : Globals) : state :=
  fold_left (dispatch_step c g) (Js.range 0 (WORKER_COUNT c)) (start g).

(** [new ImageData(pixels, width, height)] throws unless both sizes are
    positive and the array holds [4 * width * height] bytes. *)
Definition ImageData_ok (pixels : list Z) (width height : Z) : bool :=
  (0 <? width) && (0 <? height)
  && (Z.of_nat (length pixels) =? 4 * width * height).

(** [putImageData(imageData, 0, dy)] for image data as wide as the canvas:
    its rows replace the canvas rows from [dy] on, clipped at the end of
    the canvas. Every byte written here is opaque, so it is stored as is. *)
Definition putImageData (canvas pixels : list Z) (width dy : Z) : list Z :=
  let off := Z.to_nat (dy * width * 4) in
  take off canvas
  ++ take (length canvas - off) pixels
  ++ drop (off + length pixels) canvas.

(** [worker.onmessage], lines 96-119, run on the reply [data]. A throwing
    [ImageData] constructor ends the handler before it changes anything. *)
Definition worker_onmessage (c : Config) (g : Globals) (st : state)
  (data : Reply.data) : state :=
  let pixels := Reply.pixels data in
  let rowCount := Reply.endYInTile data - Reply.startYInTile data in
  if negb (ImageData_ok pixels (tileWidth g) rowCount) then st
  else
    let canvas' :=
      putImageData (canvas st) pixels (tileWidth g) (Reply.startYInTile data) in
    let completed := completedWorkers st + 1 in
    {| completedWorkers := completed;
       canvas := canvas';
       posted := posted st;
       saved := if completed =? WORKER_COUNT c
                then saved st ++ [canvas'] else saved st |}.

Section Events.

Variable Math_log : float -> float.
Variable c : Config.
Variable g : Globals.

(** One event of the main thread: some worker that was posted a message
    answers, in any order, and its handler runs to completion. *)
Inductive step : state -> state -> Prop :=
| step_reply : forall st before d after,
    posted st = before ++ d :: after ->
    step st
      (worker_onmessage c g
         {| completedWorkers := completedWorkers st;
            canvas := canvas st;
            posted := before ++ after;
            saved := saved st |}
         (Worker.onmessage Math_log d)).

(** The states the main thread goes through after the dispatch loop. *)
Inductive reachable : state -> Prop :=
| reachable_start : reachable (renderTileWithWorkers c g)
| reachable_step : forall st st',
    reachable st -> step st st' -> reachable st'.

(** The replies handled in the order given by [order]: each entry is the
    position, among the messages still unanswered, of the next worker to
    answer. *)
Fixpoint run (order : list nat) (st : state) : state :=
  match order with
  | [] => st
  | k :: order' =>
      match posted st !! k with
      | Some d =>
          run order'
            (worker_onmessage c g
               {| completedWorkers := completedWorkers st;
                  canvas := canvas st;
                  posted := take k (posted st) ++ drop (S k) (posted st);
                  saved := saved st |}
               (Worker.onmessage Math_log d))
      | None => run order' st
      end
  end.

End Events.

End Scheduler.

(** ** The properties the specification states, as definitions *)

Module Spec.

Import Main.

(** The tile of grid position [(row, col)]. *)
Definition tile (c : Config) (row col : Z) : Globals :=
  setup {| MAX_ITER := MAX_ITER c; ESCAPE_RADIUS := ESCAPE_RADIUS c;
           WORKER_COUNT := WORKER_COUNT c;
           FULL_WIDTH := FULL_WIDTH c; FULL_HEIGHT := FULL_HEIGHT c;
           ROWS := ROWS c; COLS := COLS c; ROW := row; COL := col;
           cenX := cenX c; cenY := cenY c; zoom := zoom c |}.

(** The configuration of the run that renders tile [(row, col)]. *)
Definition grid_position (c : Config) (row col : Z) : Config :=
  {| MAX_ITER := MAX_ITER c; ESCAPE_RADIUS := ESCAPE_RADIUS c;
     WORKER_COUNT := WORKER_COUNT c;
     FULL_WIDTH := FULL_WIDTH c; FULL_HEIGHT := FULL_HEIGHT c;
     ROWS := ROWS c; COLS := COLS c; ROW := row; COL := col;
     cenX := cenX c; cenY := cenY c; zoom := zoom c |}.

(** Pixel [(px, py)] of the full image lies in the rectangle of [g]. *)
Definition in_tile (g : Globals) (px py : Z) : Prop :=
  tileX g <= px < tileX g + tileWidth g /\
  tileY g <= py < tileY g + tileHeight g.

(** Number of pixels of all the tiles of the grid. *)
Definition total_pixels (c : Config) : Z :=
  fold_right Z.add 0
    (flat_map (fun row =>
       map (fun col => tileWidth (tile c row col) * tileHeight (tile c row col))
           (Js.range 0 (COLS c)))
       (Js.range 0 (ROWS c))).

(** Row [y] of tile-local rows lies in strip [(startY, endY)]. *)
Definition in_strip (s : Z * Z) (y : Z) : Prop := fst s <= y < snd s.

(** The message posted for the strip of worker [i]. *)
Definition strip_message (c : Config) (g : Globals) (i : Z) : Msg.data :=
  Scheduler.message c g (fst (Scheduler.strip c g i))
                        (snd (Scheduler.strip c g i)).

(** The same configuration with another [ESCAPE_RADIUS]. *)
Definition with_ESCAPE_RADIUS (radius : float) (c : Config) : Config :=
  {| MAX_ITER := MAX_ITER c; ESCAPE_RADIUS := radius;
     WORKER_COUNT := WORKER_COUNT c;
     FULL_WIDTH := FULL_WIDTH c; FULL_HEIGHT := FULL_HEIGHT c;
     ROWS := ROWS c; COLS := COLS c; ROW := ROW c; COL := COL c;
     cenX := cenX c; cenY := cenY c; zoom := zoom c |}.

(** The four bytes are bytes. *)
Definition is_byte (v : Z) : Prop := 0 <= v <= 255.

(** The integer a number is, if it is one (either zero counts as 0). *)
Definition integer_value (x : float) : option Z :=
  match Prim2SF x with
  | S754_zero _ => Some 0
  | S754_finite s m e =>
      if 0 <=? e then Some (cond_Zopp s (Zpos m * 2 ^ e))
      else if Zpos m mod 2 ^ (- e) =? 0
           then Some (cond_Zopp s (Zpos m / 2 ^ (- e)))
           else None
  | _ => None
  end.

(** A number that is an integer between 0 and 255. *)
Definition is_byte_number (x : float) : Prop :=
  exists n : Z, integer_value x = Some n /\ 0 <= n <= 255.

(** A state of the loop in which [zx] and [zy] are numbers and [zx2], [zy2]
    are their squares. *)
Definition numbers (st : Worker.zstate) : Prop :=
  Worker.zx2 st = (Worker.zx st * Worker.zx st)%float /\
  Worker.zy2 st = (Worker.zy st * Worker.zy st)%float /\
  is_nan (Worker.zx st) = false /\ is_nan (Worker.zy st) = false.

(** Two states of the loop that differ by the sign of [zy] only. *)
Definition conjugate (st st' : Worker.zstate) : Prop :=
  Worker.zx st' = Worker.zx st /\ Worker.zx2 st' = Worker.zx2 st /\
  Worker.zy2 st' = Worker.zy2 st /\ Worker.iter st' = Worker.iter st /\
  B64.mirrored (Worker.zy st) (Worker.zy st').

(** The same image rendered as a single tile. *)
Definition whole (c : Config) : Config :=
  {| MAX_ITER := MAX_ITER c; ESCAPE_RADIUS := ESCAPE_RADIUS c;
     WORKER_COUNT := WORKER_COUNT c;
     FULL_WIDTH := FULL_WIDTH c; FULL_HEIGHT := FULL_HEIGHT c;
     ROWS := 1; COLS := 1; ROW := 0; COL := 0;
     cenX := cenX c; cenY := cenY c; zoom := zoom c |}.

(** The rectangle of [w] x [h] pixels at [(x0, y0)] of an image that is [W]
    pixels wide, given as RGBA bytes row by row. *)
Definition crop (img : list Z) (W x0 y0 w h : Z) : list Z :=
  flat_map (fun y =>
      take (Z.to_nat (4 * w))
           (drop (Z.to_nat (4 * (W * (y0 + y) + x0))) img))
    (Js.range 0 h).

(** The same configuration on a machine with another number of workers. *)
Definition with_WORKER_COUNT (n : Z) (c : Config) : Config :=
  {| MAX_ITER := MAX_ITER c; ESCAPE_RADIUS := ESCAPE_RADIUS c;
     WORKER_COUNT := n;
     FULL_WIDTH := FULL_WIDTH c; FULL_HEIGHT := FULL_HEIGHT c;
     ROWS := ROWS c; COLS := COLS c; ROW := ROW c; COL := COL c;
     cenX := cenX c; cenY := cenY c; zoom := zoom c |}.

(** The iterates of [z -> z^2 + c] from 0, as the loop body computes
    them. *)
Definition orbit (cx cy : float) (k : nat) : Worker.zstate :=
  Nat.iter k (Worker.body cx cy) Worker.z0.

Section WithLog.

Variable Math_log : float -> float.

(** The bytes of row [y] of the tile a message belongs to, from left to
    right. *)
Definition row_bytes (d : Msg.data) (y : Z) : list Z :=
  flat_map (fun x => Worker.pixel_bytes Math_log d x y)
           (Js.range 0 (Msg.tileWidth d)).

(** A single sequential render of a whole tile: the bytes of its pixels
    row by row, each row from left to right. *)
Definition sequential_render (c : Config) (g : Globals) : list Z :=
  flat_map (row_bytes (Scheduler.message c g 0 (tileHeight g)))
           (Js.range 0 (tileHeight g)).

(** Row [y] belongs to a strip whose worker has not answered yet. *)
Definition pending_row (posted : list Msg.data) (y : Z) : bool :=
  existsb (fun d => (Msg.startYInTile d <=? y) && (y <? Msg.endYInTile d))
          posted.

(** The canvas while the strips of [posted] are still awaited: their rows
    are as [createCanvas] left them, the other rows are rendered. *)
Definition partial_canvas (c : Config) (g : Globals)
  (posted : list Msg.data) : list Z :=
  flat_map (fun y =>
      if pending_row posted y
      then replicate (Z.to_nat (4 * tileWidth g)) 0
      else row_bytes (Scheduler.message c g 0 (tileHeight g)) y)
    (Js.range 0 (tileHeight g)).

(** A whole run of the script on one tile: [setup], the dispatch loop,
    then the replies handled in the given order. *)
Definition render_tile (c : Config) (order : list nat) : Scheduler.state :=
  let g := setup c in
  Scheduler.run Math_log c g order (Scheduler.renderTileWithWorkers c g).

End WithLog.

End Spec.

(** ** Concrete inputs *)

Module Example.

Import Main.

(** The constants of the script as published, on a machine that reports
    eight hardware threads. *)
Definition published : Config :=
  {| MAX_ITER := 4500; ESCAPE_RADIUS := 4; WORKER_COUNT := 10;
     FULL_WIDTH := 56000; FULL_HEIGHT := 32000;
     ROWS := 4; COLS := 4; ROW := 3; COL := 3;
     cenX := (-1)%float; cenY := 0; zoom := 1 |}.

(** The same image cut into a 2 x 2 grid, rendering its last tile. *)
Definition published_2x2 : Config :=
  {| MAX_ITER := 4500; ESCAPE_RADIUS := 4; WORKER_COUNT := 10;
     FULL_WIDTH := 56000; FULL_HEIGHT := 32000;
     ROWS := 2; COLS := 2; ROW := 1; COL := 1;
     cenX := (-1)%float; cenY := 0; zoom := 1 |}.

(** A small instance: an image of 2 x 5 pixels rendered as one tile by four
    workers, with three iterations at most. *)
Definition small : Config :=
  {| MAX_ITER := 3; ESCAPE_RADIUS := 4; WORKER_COUNT := 4;
     FULL_WIDTH := 2; FULL_HEIGHT := 5;
     ROWS := 1; COLS := 1; ROW := 0; COL := 0;
     cenX := 0; cenY := 0; zoom := 2 |}.

(** An instance of [Math.log] to run the worker with: the logarithm, linear
    between consecutive powers of two. *)
Definition log_linear (x : float) : float :=
  if is_nan x || (x <? 0)%float then nan
  else if is_zero x then neg_infinity
  else if is_infinity x then infinity
  else
    let (m, e) := Z.frexp x in
    (Js.LN2 * (Js.of_Z (e - 1) + (2 * m - 1)))%float.

End Example.

(** ** The name of the file a tile is saved to *)

Module Download.

Import Main.
Import String Ascii DecimalString.

(** What a template literal substitutes for an integer: [Number::toString].
    An integer below [2^53] in magnitude is a number and is printed with
    its decimal digits. Other integers are rounded to a number first, and
    from [10^21] on the result is in exponent notation; this is not
    described here. *)
Definition Number_toString (n : Z) : option string :=
  if Z.abs n <? 2 ^ 53 then Some (NilEmpty.string_of_int (Z.to_int n))
  else None.

(** [saveCanvas(`mandelbrot_r${ROW}_c${COL}`, 'png')], line 112: the name
    of the file that is downloaded. *)
Definition saveCanvas_name (c : Config) : option string :=
  match Number_toString (ROW c), Number_toString (COL c) with
  | Some row, Some col =>
      Some ("mandelbrot_r" ++ row ++ "_c" ++ col ++ ".png")%string
  | _, _ => None
  end.

(** The character [ch] does not occur in [s]. *)
Fixpoint avoids (ch : ascii) (s : string) : bool :=
  match s with
  | EmptyString => true
  | String a s' => negb (Ascii.eqb a ch) && avoids ch s'
  end.

End Download.

(** * Properties *)

Import Main Scheduler Spec Worker.

(** ** Index ranges and sums *)

Lemma range_nil lo hi : hi <= lo -> Js.range lo hi = [].
Proof.
  intros H. unfold Js.range.
  replace (Z.to_nat (hi - lo)) with O by lia. reflexivity.
Qed.

Lemma range_snoc lo hi :
  lo <= hi -> Js.range lo (hi + 1) = Js.range lo hi ++ [hi].
Proof.
  intros H. unfold Js.range.
  replace (Z.to_nat (hi + 1 - lo)) with (S (Z.to_nat (hi - lo))) by lia.
  rewrite seq_S, map_app. simpl. f_equal. f_equal. lia.
Qed.

Lemma range_cons lo hi :
  lo < hi -> Js.range lo hi = lo :: Js.range (lo + 1) hi.
Proof.
  intros H. unfold Js.range.
  replace (Z.to_nat (hi - lo)) with (S (Z.to_nat (hi - (lo + 1)))) by lia.
  simpl. f_equal; [lia|].
  rewrite <- seq_shift, map_map. apply map_ext. intros; lia.
Qed.

Lemma range_app lo mid hi :
  lo <= mid <= hi -> Js.range lo hi = Js.range lo mid ++ Js.range mid hi.
Proof.
  intros [H1 H2].
  replace hi with (mid + Z.of_nat (Z.to_nat (hi - mid))) by lia.
  induction (Z.to_nat (hi - mid)) as [|n IH].
  - rewrite Z.add_0_r, (range_nil mid mid), app_nil_r by lia. reflexivity.
  - replace (mid + Z.of_nat (S n)) with (mid + Z.of_nat n + 1) by lia.
    rewrite !range_snoc, IH, app_assoc by lia. reflexivity.
Qed.

Lemma range_last lo hi :
  lo < hi -> Js.range lo hi = Js.range lo (hi - 1) ++ [hi - 1].
Proof.
  intros H. rewrite <- range_snoc by lia. f_equal. lia.
Qed.

Lemma in_range lo hi x : In x (Js.range lo hi) <-> lo <= x < hi.
Proof.
  unfold Js.range. rewrite in_map_iff. split.
  - intros (k & <- & Hk). apply in_seq in Hk. lia.
  - intros H. exists (Z.to_nat (x - lo)). split; [lia|]. apply in_seq. lia.
Qed.

Lemma length_range lo hi : length (Js.range lo hi) = Z.to_nat (hi - lo).
Proof. unfold Js.range. now rewrite length_map, length_seq. Qed.

Lemma fold_right_add_acc l acc :
  fold_right Z.add acc l = fold_right Z.add 0 l + acc.
Proof. induction l as [|a l IH]; simpl; lia. Qed.

Lemma sum_const (f : Z -> Z) (l : list Z) w :
  (forall x, In x l -> f x = w) ->
  fold_right Z.add 0 (map f l) = Z.of_nat (length l) * w.
Proof.
  induction l as [|a l IH]; intros Hf; [reflexivity|].
  cbn [map fold_right length].
  rewrite IH by (intros; apply Hf; simpl; auto).
  rewrite (Hf a) by (simpl; auto). lia.
Qed.

Lemma sum_flat_map {A} (f : A -> list Z) l :
  fold_right Z.add 0 (flat_map f l)
  = fold_right Z.add 0 (map (fun a => fold_right Z.add 0 (f a)) l).
Proof.
  induction l as [|a l IH]; simpl; [reflexivity|].
  rewrite fold_right_app, fold_right_add_acc. lia.
Qed.

Lemma sum_scale_l (f : Z -> Z) k l :
  fold_right Z.add 0 (map (fun a => k * f a) l)
  = k * fold_right Z.add 0 (map f l).
Proof. induction l as [|a l IH]; simpl; lia. Qed.

Lemma sum_scale_r (f : Z -> Z) k l :
  fold_right Z.add 0 (map (fun a => f a * k) l)
  = fold_right Z.add 0 (map f l) * k.
Proof. induction l as [|a l IH]; simpl; lia. Qed.

(** ** One axis of the tile grid *)

Section Axis.

(** One axis of the grid: [F] pixels cut into [N] pieces, the last one
    taking the remainder. *)
Variables F N : Z.
Hypothesis HF : 0 < F.
Hypothesis HN : 0 < N.

Lemma axis_quotient : N * (F / N) <= F < N * (F / N) + N.
Proof.
  pose proof (Z.mul_div_le F N HN).
  pose proof (Z.mul_succ_div_gt F N HN). lia.
Qed.

Lemma axis_cover p :
  0 <= p < F ->
  exists k, 0 <= k < N /\
    k * (F / N) <= p
    < k * (F / N)
      + (if k =? N - 1 then F / N + (F - F / N * N) else F / N).
Proof.
  intros Hp. pose proof axis_quotient as Hq.
  set (w := F / N) in *.
  destruct (Z_lt_le_dec p ((N - 1) * w)) as [Hlt | Hge].
  - assert (Hw : 0 < w) by nia.
    exists (p / w).
    pose proof (Z.mul_div_le p w Hw).
    pose proof (Z.mul_succ_div_gt p w Hw).
    assert (p / w < N - 1) by (apply Z.div_lt_upper_bound; lia).
    assert (0 <= p / w) by (apply Z.div_pos; lia).
    destruct (Z.eqb_spec (p / w) (N - 1)); lia.
  - exists (N - 1). rewrite Z.eqb_refl. lia.
Qed.

Lemma axis_inside k p :
  0 <= k < N ->
  k * (F / N) <= p
  < k * (F / N) + (if k =? N - 1 then F / N + (F - F / N * N) else F / N) ->
  0 <= p < F.
Proof.
  intros Hk Hp. pose proof axis_quotient as Hq.
  assert (0 <= F / N) by (apply Z.div_pos; lia).
  set (w := F / N) in *.
  destruct (Z.eqb_spec k (N - 1)); nia.
Qed.

Lemma axis_unique k k' p :
  0 <= k < N -> 0 <= k' < N ->
  k * (F / N) <= p
  < k * (F / N) + (if k =? N - 1 then F / N + (F - F / N * N) else F / N) ->
  k' * (F / N) <= p
  < k' * (F / N) + (if k' =? N - 1 then F / N + (F - F / N * N) else F / N) ->
  k = k'.
Proof.
  intros Hk Hk' Hp Hp'. pose proof axis_quotient as Hq.
  assert (0 <= F / N) by (apply Z.div_pos; lia).
  set (w := F / N) in *.
  destruct (Z.eqb_spec k (N - 1)), (Z.eqb_spec k' (N - 1)); nia.
Qed.

Lemma axis_total :
  fold_right Z.add 0
    (map (fun k => if k =? N - 1 then F / N + (F - F / N * N) else F / N)
         (Js.range 0 N)) = F.
Proof.
  rewrite range_last, map_app by lia.
  rewrite fold_right_app. simpl.
  rewrite fold_right_add_acc.
  rewrite (sum_const _ _ (F / N)).
  - rewrite length_range, Z2Nat.id by lia. rewrite Z.eqb_refl. lia.
  - intros x Hx. apply in_range in Hx.
    destruct (Z.eqb_spec x (N - 1)); lia.
Qed.

End Axis.

(** ** The dispatch loop *)

Lemma ceil_bounds H W :
  0 < W -> (- ((- H) / W) - 1) * W < H <= - ((- H) / W) * W.
Proof.
  intros HW.
  pose proof (Z.mul_div_le (- H) W HW).
  pose proof (Z.mul_succ_div_gt (- H) W HW). lia.
Qed.

(** The dispatch loop over any list of worker indices: the empty strips are
    counted, the other ones are posted in order. *)
Lemma dispatch_fold c g l : forall st,
  fold_left (dispatch_step c g) l st =
  {| completedWorkers := completedWorkers st
       + Z.of_nat (length (List.filter
           (fun i => fst (strip c g i) >=? snd (strip c g i)) l));
     canvas := canvas st;
     posted := posted st
       ++ map (fun i => message c g (fst (strip c g i)) (snd (strip c g i)))
            (List.filter
               (fun i => negb (fst (strip c g i) >=? snd (strip c g i))) l);
     saved := saved st |}.
Proof.
  induction l as [|i l IH]; intros st.
  - simpl. rewrite Z.add_0_r, app_nil_r. now destruct st.
  - cbn [fold_left List.filter]. rewrite IH. unfold dispatch_step.
    destruct (strip c g i) as [s e] eqn:Hs. cbn [fst snd].
    destruct (s >=? e);
      cbn [negb completedWorkers canvas posted saved length map].
    + f_equal. lia.
    + f_equal. rewrite Hs, <- app_assoc. reflexivity.
Qed.

(** ** Comparisons of binary64 numbers *)

Lemma is_nan_Prim2SF x : is_nan x = true <-> Prim2SF x = S754_nan.
Proof.
  unfold Prim2SF. destruct (is_nan x); [tauto|].
  split; [discriminate|].
  destruct (is_zero x); [discriminate|].
  destruct (is_infinity x); [discriminate|].
  destruct (Z.frexp x) as [m e].
  destruct (shr_fexp _ _ _ _ _) as [mrs e'].
  destruct (shr_m mrs); discriminate.
Qed.

Lemma not_nan_Prim2SF x : is_nan x = false <-> Prim2SF x <> S754_nan.
Proof.
  rewrite <- is_nan_Prim2SF. destruct (is_nan x); split; congruence.
Qed.

Lemma SFcompare_antisym x y :
  SFcompare y x = option_map CompOpp (SFcompare x y).
Proof.
  destruct x as [sx|sx| |sx mx ex], y as [sy|sy| |sy my ey]; cbn;
    try destruct sx; try destruct sy; try reflexivity.
  all: rewrite (Z.compare_antisym ey ex); destruct (ey ?= ex); cbn;
    try reflexivity.
  all: rewrite (Pos.compare_cont_antisym mx my Eq); cbn.
  all: try rewrite CompOpp_involutive; reflexivity.
Qed.

(** Among numbers that are not NaN, "not less than" is "at least". *)
Lemma ltb_false_leb (x y : float) :
  is_nan x = false -> is_nan y = false ->
  (x <? y)%float = false -> (y <=? x)%float = true.
Proof.
  rewrite !not_nan_Prim2SF, ltb_spec, leb_spec. unfold SFltb, SFleb.
  rewrite (SFcompare_antisym (Prim2SF x) (Prim2SF y)).
  intros Hx Hy.
  destruct (SFcompare (Prim2SF x) (Prim2SF y)) as [[]|] eqn:Hc; cbn;
    try congruence.
  destruct (Prim2SF x), (Prim2SF y); cbn in Hc; congruence.
Qed.

(** ** The escape-time loop *)

(** The loop leaves through its condition: with [maxIter - iter] turns left
    to unroll, the state returned no longer satisfies it. *)
Lemma while_loop_exit cx cy maxIter : forall fuel st,
  iter st + Z.of_nat fuel = maxIter ->
  iter st <= iter (while_loop fuel cx cy maxIter st) <= maxIter /\
  continues maxIter (while_loop fuel cx cy maxIter st) = false.
Proof.
  induction fuel as [|fuel IH]; intros st Hfuel; cbn [while_loop].
  - split; [lia|]. unfold continues.
    replace (iter st <? maxIter) with false by (symmetry; apply Z.ltb_ge; lia).
    apply andb_false_r.
  - destruct (continues maxIter st) eqn:Hc.
    + destruct (IH (body cx cy st)) as [Hi Hx]; [cbn [body iter]; lia|].
      cbn [body iter] in Hi. split; [lia|exact Hx].
    + split; [lia|exact Hc].
Qed.

(** Unrolling the loop further changes nothing: [escape] gives it enough
    turns. *)
Lemma while_loop_fuel cx cy maxIter : forall fuel extra st,
  iter st + Z.of_nat fuel = maxIter ->
  while_loop (fuel + extra) cx cy maxIter st
  = while_loop fuel cx cy maxIter st.
Proof.
  induction fuel as [|fuel IH]; intros extra st Hfuel.
  - cbn [Nat.add while_loop]. destruct extra; [reflexivity|].
    cbn [while_loop]. unfold continues.
    replace (iter st <? maxIter) with false by (symmetry; apply Z.ltb_ge; lia).
    now rewrite andb_false_r.
  - cbn [Nat.add while_loop]. destruct (continues maxIter st); [|reflexivity].
    apply IH. cbn [body iter]. lia.
Qed.

Lemma continues_z0 maxIter : 1 <= maxIter -> continues maxIter z0 = true.
Proof.
  intros H. unfold continues, z0; cbn [zx2 zy2 iter].
  apply andb_true_intro. split; [reflexivity|]. apply Z.ltb_lt. lia.
Qed.

Lemma escape_unfold cx cy maxIter :
  1 <= maxIter ->
  escape cx cy maxIter
  = while_loop (Z.to_nat (maxIter - 1)) cx cy maxIter (body cx cy z0).
Proof.
  intros H. unfold escape.
  replace (Z.to_nat maxIter) with (S (Z.to_nat (maxIter - 1))) by lia.
  cbn [while_loop]. now rewrite continues_z0.
Qed.

(** The loop goes along the iterates of the body. *)
Lemma iter_orbit (cx cy : float) (k : nat) :
  iter (orbit cx cy k) = Z.of_nat k.
Proof.
  induction k as [|k IH]; [reflexivity|].
  change (orbit cx cy (S k)) with (body cx cy (orbit cx cy k)).
  cbn [body iter]. rewrite IH. lia.
Qed.

Lemma while_loop_orbit (cx cy : float) (maxIter : Z) :
  forall (fuel k : nat),
    Z.of_nat k + Z.of_nat fuel = maxIter ->
    exists j : nat,
      (k <= j)%nat /\ Z.of_nat j <= maxIter /\
      while_loop fuel cx cy maxIter (orbit cx cy k) = orbit cx cy j /\
      (forall i : nat, (k <= i < j)%nat ->
         (zx2 (orbit cx cy i) + zy2 (orbit cx cy i) <? 4)%float = true) /\
      (Z.of_nat j < maxIter ->
       (zx2 (orbit cx cy j) + zy2 (orbit cx cy j) <? 4)%float = false).
Proof.
  induction fuel as [|fuel IH]; intros k Hk; cbn [while_loop].
  - exists k. split; [lia|]. split; [lia|]. split; [reflexivity|].
    split; intros; lia.
  - unfold continues. rewrite iter_orbit.
    replace (Z.of_nat k <? maxIter) with true
      by (symmetry; apply Z.ltb_lt; lia).
    rewrite andb_true_r.
    destruct (zx2 (orbit cx cy k) + zy2 (orbit cx cy k) <? 4)%float eqn:E.
    + change (body cx cy (orbit cx cy k)) with (orbit cx cy (S k)).
      destruct (IH (S k) ltac:(lia)) as (j & Hj & Hm & Hr & Hb & He).
      exists j. split; [lia|]. split; [exact Hm|]. split; [exact Hr|].
      split; [|exact He].
      intros i Hi. destruct (Nat.eq_dec i k) as [->|]; [exact E|].
      apply Hb. lia.
    + exists k. split; [lia|]. split; [lia|]. split; [reflexivity|].
      split; [intros; lia|]. intros _. exact E.
Qed.

(** C9. With [maxIter >= 1] the loop condition holds in the initial state
    ([0 + 0 < 4] and [0 < maxIter]), so the body runs on it: what the loop
    returns is what it returns from [body z0] on, with one turn fewer left,
    and it is the state after [k >= 1] turns of the body from the initial
    state. The counter returned is that [k]; it lies in [[1, maxIter]] and
    is never 0. *)
Theorem escape_iterates_at_least_once (cx cy : float) (maxIter : Z) :
  1 <= maxIter ->
  continues maxIter z0 = true /\
  escape cx cy maxIter
  = while_loop (Z.to_nat (maxIter - 1)) cx cy maxIter (body cx cy z0) /\
  (exists k : nat,
     (1 <= k)%nat /\ escape cx cy maxIter = orbit cx cy k /\
     iter (escape cx cy maxIter) = Z.of_nat k) /\
  1 <= iter (escape cx cy maxIter) <= maxIter /\
  iter (escape cx cy maxIter) <> 0.
Proof.
  intros H. split; [now apply continues_z0|].
  split; [now apply escape_unfold|].
  rewrite escape_unfold by exact H.
  destruct (while_loop_orbit cx cy maxIter (Z.to_nat (maxIter - 1)) 1
              ltac:(lia)) as (k & Hk & Hm & Hr & _).
  change (orbit cx cy 1) with (body cx cy z0) in Hr.
  rewrite Hr, iter_orbit.
  split; [exists k; split; [exact Hk|split; reflexivity]|]. lia.
Qed.

Lemma escape_iterates_at_least_once_witness :
  1 <= 100 /\
  escape 2 2 100 = while_loop (Z.to_nat (100 - 1)) 2 2 100 (body 2 2 z0) /\
  1 <= iter (escape 2 2 100) <= 100.
Proof.
  assert (H : 1 <= 100) by lia.
  split; [exact H|].
  destruct (escape_iterates_at_least_once 2 2 100 H) as (_ & Hu & _ & Hi & _).
  split; [exact Hu|exact Hi].
Defined.

Section WithLog.

Variable Math_log : float -> float.

(** C1. Two messages that agree on the image-wide parameters give the
    same point [(cx, cy)], bit for bit, to local positions that are the same
    global pixel, whatever their tile sizes, offsets and strips are; with
    the same [maxIter] the four bytes of the pixel are the same too. *)
Theorem pixel_alignment (d1 d2 : Msg.data) (x1 y1 x2 y2 : Z) :
  Msg.fullWidth d1 = Msg.fullWidth d2 ->
  Msg.fullHeight d1 = Msg.fullHeight d2 ->
  Msg.zoom d1 = Msg.zoom d2 ->
  Msg.aspectRatio d1 = Msg.aspectRatio d2 ->
  Msg.cenX d1 = Msg.cenX d2 ->
  Msg.cenY d1 = Msg.cenY d2 ->
  Msg.tileOffsetX d1 + x1 = Msg.tileOffsetX d2 + x2 ->
  Msg.tileOffsetY d1 + y1 = Msg.tileOffsetY d2 + y2 ->
  cx_of d1 x1 = cx_of d2 x2 /\
  cy_of d1 y1 = cy_of d2 y2 /\
  (Msg.maxIter d1 = Msg.maxIter d2 ->
   pixel_bytes Math_log d1 x1 y1 = pixel_bytes Math_log d2 x2 y2).
Proof.
  intros Hw Hh Hz Ha Hx Hy Hgx Hgy.
  assert (Ecx : cx_of d1 x1 = cx_of d2 x2).
  { unfold cx_of, xScale. cbv zeta. now rewrite Hgx, Hw, Hz, Ha, Hx. }
  assert (Ecy : cy_of d1 y1 = cy_of d2 y2).
  { unfold cy_of, yScale. cbv zeta. now rewrite Hgy, Hh, Hz, Hy. }
  repeat split; [exact Ecx|exact Ecy|].
  intros Hm. unfold pixel_bytes. now rewrite Ecx, Ecy, Hm.
Qed.

End WithLog.

Lemma pixel_alignment_witness :
  (Msg.tileOffsetX (message Example.published (setup Example.published) 0 10)
     + 5
   = Msg.tileOffsetX
       (message Example.published_2x2 (setup Example.published_2x2) 0 10)
     + 14005 /\
   Msg.tileOffsetY (message Example.published (setup Example.published) 0 10)
     + 7
   = Msg.tileOffsetY
       (message Example.published_2x2 (setup Example.published_2x2) 0 10)
     + 8007) /\
  cx_of (message Example.published (setup Example.published) 0 10) 5
  = cx_of (message Example.published_2x2 (setup Example.published_2x2) 0 10)
      14005.
Proof.
  assert (Hx :
    Msg.tileOffsetX (message Example.published (setup Example.published) 0 10)
      + 5
    = Msg.tileOffsetX
        (message Example.published_2x2 (setup Example.published_2x2) 0 10)
      + 14005) by reflexivity.
  assert (Hy :
    Msg.tileOffsetY (message Example.published (setup Example.published) 0 10)
      + 7
    = Msg.tileOffsetY
        (message Example.published_2x2 (setup Example.published_2x2) 0 10)
      + 8007) by reflexivity.
  split; [split; assumption|].
  exact (proj1
    (pixel_alignment Example.log_linear
       (message Example.published (setup Example.published) 0 10)
       (message Example.published_2x2 (setup Example.published_2x2) 0 10)
       5 7 14005 8007
       eq_refl eq_refl eq_refl eq_refl eq_refl eq_refl Hx Hy)).
Defined.

(** ** The escape radius constant *)

Lemma message_with_ESCAPE_RADIUS radius c g s e :
  message (with_ESCAPE_RADIUS radius c) g s e = message c g s e.
Proof. reflexivity. Qed.

Lemma dispatch_step_with_ESCAPE_RADIUS radius c g st i :
  dispatch_step (with_ESCAPE_RADIUS radius c) g st i = dispatch_step c g st i.
Proof. reflexivity. Qed.

Lemma worker_onmessage_with_ESCAPE_RADIUS radius c g st data :
  worker_onmessage (with_ESCAPE_RADIUS radius c) g st data
  = worker_onmessage c g st data.
Proof. reflexivity. Qed.

Lemma run_with_ESCAPE_RADIUS Math_log radius c g order : forall st,
  run Math_log (with_ESCAPE_RADIUS radius c) g order st
  = run Math_log c g order st.
Proof.
  induction order as [|k order IH]; intros st; [reflexivity|].
  cbn [run]. destruct (posted st !! k) as [d|]; [|apply IH].
  rewrite worker_onmessage_with_ESCAPE_RADIUS. apply IH.
Qed.

(** C10. [ESCAPE_RADIUS] reaches no worker. Changing it alone changes no
    message that [renderTileWithWorkers] posts, and [Worker.onmessage] reads
    nothing but its message; so the whole run (tile geometry, messages
    posted, every state of the main thread, the canvas saved) is the same,
    whatever the order of the replies. *)
Theorem escape_radius_noninterference
  (Math_log : float -> float) (c : Config) (radius : float)
  (order : list nat) :
  setup (with_ESCAPE_RADIUS radius c) = setup c /\
  (forall g s e, message (with_ESCAPE_RADIUS radius c) g s e = message c g s e) /\
  (forall g, renderTileWithWorkers (with_ESCAPE_RADIUS radius c) g
             = renderTileWithWorkers c g) /\
  render_tile Math_log (with_ESCAPE_RADIUS radius c) order
  = render_tile Math_log c order.
Proof.
  assert (Hs : setup (with_ESCAPE_RADIUS radius c) = setup c) by reflexivity.
  assert (Hr : forall g, renderTileWithWorkers (with_ESCAPE_RADIUS radius c) g
                         = renderTileWithWorkers c g).
  { intros g. unfold renderTileWithWorkers.
    cbn [WORKER_COUNT with_ESCAPE_RADIUS].
    generalize (start g). induction (Js.range 0 (WORKER_COUNT c)) as [|i l IH];
      intros st; [reflexivity|].
    cbn [fold_left]. rewrite dispatch_step_with_ESCAPE_RADIUS. apply IH. }
  split; [exact Hs|]. split; [intros; apply message_with_ESCAPE_RADIUS|].
  split; [exact Hr|].
  unfold render_tile. cbv zeta.
  rewrite Hs, Hr. apply run_with_ESCAPE_RADIUS.
Qed.

(** ** The smooth color mapper *)

Section ColorMapper.

Variable Math_log : float -> float.

(** C6. For an escaped point ([iter < maxIter]) with final magnitude
    [zn = sqrt(zx2 + zy2)], the worker computes
    [smoothIter = iter + 1 - log(log(max(zn, 1e-10)) / LN2) / LN2], where
    [LN2] is the constant [Math.LN2] for [log(2)],
    [hue = (smoothIter / maxIter * 1080) % 360], saturation 125, and the
    brightness [min(100, smoothIter / maxIter * 1000)] when
    [smoothIter < maxIter * 0.1] and
    [min(100, 30 + smoothIter / maxIter * 70)] otherwise, multiplied by
    [(maxIter - iter) / (maxIter * 0.1)] exactly when
    [iter > maxIter * 0.9]; the bytes stored are those of [hsbToRgb] on
    these three values, then 255. *)
Theorem smooth_color_formula (cx cy : float) (maxIter : Z) :
  1 <= maxIter ->
  iter (escape cx cy maxIter) < maxIter ->
  let st := escape cx cy maxIter in
  let zn := PrimFloat.sqrt (zx2 st + zy2 st) in
  let n := Js.of_Z maxIter in
  let smoothIter :=
    (Js.of_Z (iter st + 1)
     - Math_log (Math_log (Js.Math_max zn 1e-10) / Js.LN2) / Js.LN2)%float in
  let hue := Js.rem (smoothIter / n * 1080) 360 in
  let base :=
    if (smoothIter <? n * 0.1)%float
    then Js.Math_min 100 (smoothIter / n * 1000)
    else Js.Math_min 100 (30 + smoothIter / n * 70) in
  let taper := (Js.of_Z (maxIter - iter st) / (n * 0.1))%float in
  exists brightness : float,
    hsb_of Math_log maxIter (iter st) zn = (hue, 125%float, brightness) /\
    ((n * 0.9 <? Js.of_Z (iter st))%float = true ->
     brightness = (base * taper)%float) /\
    ((n * 0.9 <? Js.of_Z (iter st))%float = false -> brightness = base) /\
    shade Math_log maxIter st
    = [Js.ToUint8Clamp (r (hsbToRgb hue 125 brightness));
       Js.ToUint8Clamp (g (hsbToRgb hue 125 brightness));
       Js.ToUint8Clamp (b (hsbToRgb hue 125 brightness)); 255] /\
    (Math_log 2%float = Js.LN2 ->
     smoothIter
     = (Js.of_Z (iter st + 1)
        - Math_log (Math_log (Js.Math_max zn 1e-10) / Math_log 2)
          / Math_log 2)%float).
Proof.
  intros H Hesc st zn n smoothIter hue base taper.
  assert (Hshade : shade Math_log maxIter st
                   = color Math_log maxIter (iter st) zn).
  { unfold shade. fold st in Hesc.
    replace (iter st =? maxIter) with false
      by (symmetry; apply Z.eqb_neq; lia).
    reflexivity. }
  assert (Hsmooth : smoothIter_of Math_log (iter st) zn = smoothIter)
    by reflexivity.
  exists (if (n * 0.9 <? Js.of_Z (iter st))%float
          then (base * taper)%float else base).
  split; [|split; [|split; [|split]]].
  - unfold hsb_of. cbv zeta. rewrite Hsmooth. reflexivity.
  - intros E. now rewrite E.
  - intros E. now rewrite E.
  - rewrite Hshade. unfold color, hsb_of. cbv zeta. rewrite Hsmooth.
    reflexivity.
  - intros E. subst smoothIter. now rewrite E.
Qed.

End ColorMapper.

Lemma smooth_color_formula_witness :
  (1 <= 100 /\ iter (escape 2 2 100) < 100) /\
  exists brightness : float,
    hsb_of Example.log_linear 100 1 (PrimFloat.sqrt 8)
    = (Js.rem
         ((Js.of_Z 2
           - Example.log_linear
               (Example.log_linear (Js.Math_max (PrimFloat.sqrt 8) 1e-10) / Js.LN2)
             / Js.LN2) / Js.of_Z 100 * 1080) 360,
       125%float, brightness).
Proof.
  assert (H1 : 1 <= 100) by lia.
  assert (H2 : iter (escape 2 2 100) < 100) by (vm_compute; reflexivity).
  split; [split; assumption|].
  destruct (smooth_color_formula Example.log_linear 2 2 100 H1 H2)
    as (brightness & Hhsb & _).
  exists brightness. exact Hhsb.
Defined.

(** ** The pixel buffer a worker fills *)

Lemma ToUint8Clamp_byte x : is_byte (Js.ToUint8Clamp x).
Proof.
  unfold is_byte, Js.ToUint8Clamp.
  destruct (Prim2SF x) as [s|[]| |[] m e]; try lia.
  destruct (0 <=? e) eqn:He.
  - assert (0 <= Z.pos m * 2 ^ e) by (apply Z.mul_nonneg_nonneg; lia).
    lia.
  - assert (0 < 2 ^ (- e)) by (apply Z.pow_pos_nonneg; lia).
    assert (0 <= Z.pos m / 2 ^ (- e)) by (apply Z.div_pos; lia).
    repeat match goal with |- context [if ?b then _ else _] => destruct b end;
      lia.
Qed.

Lemma color_bytes Math_log maxIter it zn :
  exists r g b, color Math_log maxIter it zn = [r; g; b; 255] /\
    is_byte r /\ is_byte g /\ is_byte b.
Proof.
  unfold color. destruct (hsb_of Math_log maxIter it zn) as [[hue sat] bri].
  eexists _, _, _. split; [reflexivity|].
  repeat split; apply ToUint8Clamp_byte.
Qed.

Lemma shade_bytes Math_log maxIter st :
  exists r g b, shade Math_log maxIter st = [r; g; b; 255] /\
    is_byte r /\ is_byte g /\ is_byte b.
Proof.
  unfold shade. destruct (iter st =? maxIter).
  - exists 0, 0, 0. unfold is_byte. repeat split; lia.
  - apply color_bytes.
Qed.

Lemma length_pixel_bytes Math_log d x y :
  length (pixel_bytes Math_log d x y) = 4%nat.
Proof.
  unfold pixel_bytes.
  destruct (shade_bytes Math_log (Msg.maxIter d)
              (escape (cx_of d x) (cy_of d y) (Msg.maxIter d)))
    as (r & g & b & -> & _).
  reflexivity.
Qed.

Lemma length_flat_map_const {A} (f : A -> list Z) (l : list A) (n : nat) :
  (forall a, length (f a) = n) ->
  length (flat_map f l) = (length l * n)%nat.
Proof.
  intros Hf. induction l as [|a l IH]; [reflexivity|].
  cbn [flat_map length]. rewrite length_app, Hf, IH. lia.
Qed.

Lemma length_row_bytes Math_log d y :
  length (row_bytes Math_log d y) = Z.to_nat (4 * Msg.tileWidth d).
Proof.
  unfold row_bytes.
  rewrite (length_flat_map_const _ _ 4%nat)
    by (intros; apply length_pixel_bytes).
  rewrite length_range. lia.
Qed.

(** Four stores in a row overwrite four consecutive bytes. *)
Lemma store_pixel_spec (pixels : list Z) (pixelIndex : Z) (b0 b1 b2 b3 : Z) :
  0 <= pixelIndex ->
  (Z.to_nat pixelIndex + 4 <= length pixels)%nat ->
  store_pixel pixels pixelIndex [b0; b1; b2; b3]
  = take (Z.to_nat pixelIndex) pixels ++ [b0; b1; b2; b3]
    ++ drop (Z.to_nat pixelIndex + 4) pixels.
Proof.
  intros Hi Hlen.
  set (n := Z.to_nat pixelIndex) in *.
  assert (Hst : forall (k : nat) px v,
    Js.store px (pixelIndex + Z.of_nat k) v = <[(n + k)%nat := v]> px).
  { intros k px v. unfold Js.store.
    replace (pixelIndex + Z.of_nat k <? 0) with false
      by (symmetry; apply Z.ltb_ge; lia).
    f_equal. lia. }
  unfold store_pixel. cbn [seq combine fold_left]. rewrite !Hst.
  rewrite <- (take_drop n pixels) at 1.
  assert (Hn : length (take n pixels) = n) by (rewrite length_take; lia).
  assert (Hd : (4 <= length (drop n pixels))%nat) by (rewrite length_drop; lia).
  rewrite <- (drop_drop pixels 4 n).
  destruct (drop n pixels) as [|a0 [|a1 [|a2 [|a3 rest]]]];
    cbn [length] in Hd; try lia.
  rewrite <- Hn at 1 2 3 4.
  rewrite !insert_app_r. cbn. reflexivity.
Qed.

(** A loop that overwrites one block of [size] bytes per turn, block after
    block from offset [base], leaves the blocks in order between the bytes
    before and the bytes after. *)
Lemma fill_blocks (step : list Z -> Z -> list Z) (blk : Z -> list Z)
  (size base : nat) (lo : Z) :
  (forall k, length (blk k) = size) ->
  (forall px (j : nat),
     (base + (j + 1) * size <= length px)%nat ->
     step px (lo + Z.of_nat j)
     = take (base + j * size) px ++ blk (lo + Z.of_nat j)
       ++ drop (base + (j + 1) * size) px) ->
  forall (m : nat) px,
    (base + m * size <= length px)%nat ->
    fold_left step (Js.range lo (lo + Z.of_nat m)) px
    = take base px ++ flat_map blk (Js.range lo (lo + Z.of_nat m))
      ++ drop (base + m * size) px.
Proof.
  intros Hblk Hstep. induction m as [|m IH]; intros px Hlen.
  - rewrite Z.add_0_r, range_nil by lia. cbn [fold_left flat_map app].
    rewrite Nat.add_0_r. symmetry. apply take_drop.
  - replace (lo + Z.of_nat (S m)) with (lo + Z.of_nat m + 1) by lia.
    rewrite range_snoc by lia.
    rewrite fold_left_app, flat_map_app. cbn [fold_left flat_map].
    rewrite app_nil_r.
    rewrite IH by lia.
    set (F := flat_map blk (Js.range lo (lo + Z.of_nat m))).
    assert (HF : length F = (m * size)%nat).
    { unfold F. rewrite (length_flat_map_const _ _ size) by exact Hblk.
      rewrite length_range. f_equal. lia. }
    assert (HA : length (take base px ++ F) = (base + m * size)%nat).
    { rewrite length_app, length_take, HF. lia. }
    rewrite Hstep.
    + rewrite (app_assoc (take base px) F).
      rewrite (take_app_length' _ _ _ (eq_sym HA)).
      replace (base + (m + 1) * size)%nat with ((base + m * size) + size)%nat
        by lia.
      rewrite (drop_app_add' _ _ _ _ (eq_sym HA)).
      rewrite drop_drop.
      replace (base + S m * size)%nat with (base + m * size + size)%nat
        by lia.
      rewrite <- !app_assoc. reflexivity.
    + rewrite !length_app, length_take, HF, length_drop. lia.
Qed.

Section WorkerBuffer.

Variable Math_log : float -> float.

(** The inner loop writes row [y] at [rowOffset]. *)
Lemma row_fill d y rowOffset pixels :
  0 <= rowOffset -> 0 <= Msg.tileWidth d ->
  (Z.to_nat rowOffset + Z.to_nat (4 * Msg.tileWidth d) <= length pixels)%nat ->
  fold_left (column_step Math_log d y rowOffset)
            (Js.range 0 (Msg.tileWidth d)) pixels
  = take (Z.to_nat rowOffset) pixels ++ row_bytes Math_log d y
    ++ drop (Z.to_nat rowOffset + Z.to_nat (4 * Msg.tileWidth d)) pixels.
Proof.
  intros Ho Hw Hlen.
  pose proof (fill_blocks (column_step Math_log d y rowOffset)
                (fun x => pixel_bytes Math_log d x y) 4 (Z.to_nat rowOffset) 0)
    as Hfill.
  specialize (Hfill (fun x => length_pixel_bytes Math_log d x y)).
  assert (Hstep : forall px (j : nat),
    (Z.to_nat rowOffset + (j + 1) * 4 <= length px)%nat ->
    column_step Math_log d y rowOffset px (0 + Z.of_nat j)
    = take (Z.to_nat rowOffset + j * 4) px
      ++ pixel_bytes Math_log d (0 + Z.of_nat j) y
      ++ drop (Z.to_nat rowOffset + (j + 1) * 4) px).
  { intros px j Hpx. unfold column_step. cbv zeta.
    pose proof (length_pixel_bytes Math_log d (0 + Z.of_nat j) y) as H4.
    destruct (pixel_bytes Math_log d (0 + Z.of_nat j) y)
      as [|b0 [|b1 [|b2 [|b3 [|? ?]]]]]; try discriminate H4.
    rewrite store_pixel_spec by lia.
    replace (Z.to_nat (rowOffset + (0 + Z.of_nat j) * 4))
      with (Z.to_nat rowOffset + j * 4)%nat by lia.
    replace (Z.to_nat rowOffset + (j + 1) * 4)%nat
      with (Z.to_nat rowOffset + j * 4 + 4)%nat by lia.
    reflexivity. }
  specialize (Hfill Hstep (Z.to_nat (Msg.tileWidth d)) pixels).
  rewrite Z.add_0_l, Z2Nat.id in Hfill by lia.
  rewrite Hfill by lia. unfold row_bytes.
  repeat f_equal. lia.
Qed.

(** The outer loop writes the rows of the strip one after the other: the
    buffer posted back holds the rows [startYInTile .. endYInTile - 1]. *)
Lemma onmessage_pixels d :
  0 <= Msg.tileWidth d -> Msg.startYInTile d <= Msg.endYInTile d ->
  Reply.pixels (onmessage Math_log d)
  = flat_map (row_bytes Math_log d)
      (Js.range (Msg.startYInTile d) (Msg.endYInTile d)).
Proof.
  intros Hw Hse. unfold onmessage. cbn [Reply.pixels]. cbv zeta.
  set (s := Msg.startYInTile d) in *. set (e := Msg.endYInTile d) in *.
  set (L := Z.to_nat (4 * Msg.tileWidth d)).
  pose proof (fill_blocks (row_step Math_log d) (row_bytes Math_log d) L 0 s
                (length_row_bytes Math_log d)) as Hfill.
  assert (Hstep : forall px (j : nat),
    (0 + (j + 1) * L <= length px)%nat ->
    row_step Math_log d px (s + Z.of_nat j)
    = take (0 + j * L) px ++ row_bytes Math_log d (s + Z.of_nat j)
      ++ drop (0 + (j + 1) * L) px).
  { intros px j Hpx. unfold row_step. cbv zeta. fold s.
    replace ((s + Z.of_nat j - s) * Msg.tileWidth d * 4)
      with (Z.of_nat j * (4 * Msg.tileWidth d)) by lia.
    assert (Hoff : Z.to_nat (Z.of_nat j * (4 * Msg.tileWidth d))
                   = (j * L)%nat).
    { unfold L. rewrite Z2Nat.inj_mul, Nat2Z.id by lia. reflexivity. }
    rewrite row_fill; [|apply Z.mul_nonneg_nonneg; lia|lia|].
    - rewrite Hoff. fold L.
      replace (0 + (j + 1) * L)%nat with (j * L + L)%nat by lia.
      reflexivity.
    - rewrite Hoff. fold L. lia. }
  specialize (Hfill Hstep (Z.to_nat (e - s))).
  replace (s + Z.of_nat (Z.to_nat (e - s))) with e in Hfill by lia.
  rewrite Hfill.
  - rewrite take_0. cbn [app].
    rewrite drop_ge, app_nil_r; [reflexivity|].
    rewrite length_replicate. unfold L. nia.
  - rewrite length_replicate. unfold L. nia.
Qed.

Lemma length_onmessage_pixels d :
  0 <= Msg.tileWidth d -> Msg.startYInTile d <= Msg.endYInTile d ->
  Z.of_nat (length (Reply.pixels (onmessage Math_log d)))
  = 4 * Msg.tileWidth d * (Msg.endYInTile d - Msg.startYInTile d).
Proof.
  intros Hw Hse. rewrite onmessage_pixels by assumption.
  rewrite (length_flat_map_const _ _ (Z.to_nat (4 * Msg.tileWidth d)))
    by (apply length_row_bytes).
  rewrite length_range. nia.
Qed.

End WorkerBuffer.

(** ** Reassembling the strips on the canvas *)

Lemma flat_map_ext_in {A B} (f g : A -> list B) (l : list A) :
  (forall a, In a l -> f a = g a) -> flat_map f l = flat_map g l.
Proof.
  induction l as [|a l IH]; intros Hfg; [reflexivity|].
  cbn [flat_map]. rewrite (Hfg a) by (left; reflexivity).
  rewrite IH by (intros; apply Hfg; right; assumption). reflexivity.
Qed.

Lemma replicate_rows (H : Z) (L : nat) :
  0 <= H ->
  replicate (Z.to_nat H * L) 0
  = flat_map (fun _ : Z => replicate L 0) (Js.range 0 H).
Proof.
  intros HH. rewrite <- (Z2Nat.id H) at 2 by exact HH.
  induction (Z.to_nat H) as [|n IH]; [reflexivity|].
  replace (Z.of_nat (S n)) with (Z.of_nat n + 1) by lia.
  rewrite range_snoc, flat_map_app by lia. cbn [flat_map].
  rewrite app_nil_r, <- IH, <- replicate_add. f_equal. lia.
Qed.

(** Putting the rows [s .. e - 1] on a canvas of whole rows replaces
    exactly these rows. *)
Lemma putImageData_rows (F G : Z -> list Z) (w H s e : Z) :
  0 <= w -> 0 <= s <= e -> e <= H ->
  (forall y, length (F y) = Z.to_nat (4 * w)) ->
  (forall y, length (G y) = Z.to_nat (4 * w)) ->
  putImageData (flat_map F (Js.range 0 H)) (flat_map G (Js.range s e)) w s
  = flat_map (fun y => if (s <=? y) && (y <? e) then G y else F y)
      (Js.range 0 H).
Proof.
  intros Hw Hse HeH HF HG. unfold putImageData. cbv zeta.
  set (L := Z.to_nat (4 * w)) in *.
  rewrite (range_app 0 s H), (range_app s e H) by lia.
  rewrite !flat_map_app.
  set (A := flat_map F (Js.range 0 s)).
  set (B := flat_map F (Js.range s e)).
  set (C := flat_map F (Js.range e H)).
  set (P := flat_map G (Js.range s e)).
  assert (HA : length A = Z.to_nat (s * w * 4)).
  { unfold A. rewrite (length_flat_map_const _ _ L) by exact HF.
    rewrite length_range. unfold L. nia. }
  assert (HB : length B = length P).
  { unfold B, P. rewrite !(length_flat_map_const _ _ L) by assumption.
    reflexivity. }
  rewrite <- HA.
  rewrite take_app_length.
  rewrite (take_ge P) by (rewrite !length_app; lia).
  rewrite drop_app_add, <- HB, drop_app_length.
  f_equal; [|f_equal].
  - apply flat_map_ext_in. intros y Hy. apply in_range in Hy.
    replace (s <=? y) with false by (symmetry; apply Z.leb_gt; lia).
    reflexivity.
  - apply flat_map_ext_in. intros y Hy. apply in_range in Hy.
    replace (s <=? y) with true by (symmetry; apply Z.leb_le; lia).
    replace (y <? e) with true by (symmetry; apply Z.ltb_lt; lia).
    reflexivity.
  - apply flat_map_ext_in. intros y Hy. apply in_range in Hy.
    replace (y <? e) with false by (symmetry; apply Z.ltb_ge; lia).
    now rewrite andb_false_r.
Qed.

Lemma filter_range_below (p : Z -> bool) (n W : Z) :
  0 <= n <= W ->
  (forall i, 0 <= i < W -> p i = (i <? n)) ->
  List.filter p (Js.range 0 W) = Js.range 0 n /\
  List.filter (fun i => negb (p i)) (Js.range 0 W) = Js.range n W.
Proof.
  intros Hn Hp. rewrite (range_app 0 n W) by lia.
  rewrite !List.filter_app.
  assert (H1 : forall l, (forall i, In i l -> p i = true) ->
             List.filter p l = l /\ List.filter (fun i => negb (p i)) l = []).
  { induction l as [|a l IH]; intros Hl; [split; reflexivity|].
    cbn [List.filter]. rewrite (Hl a) by (left; reflexivity). cbn [negb].
    destruct IH as [-> ->]; [intros; apply Hl; right; assumption|].
    split; reflexivity. }
  assert (H2 : forall l, (forall i, In i l -> p i = false) ->
             List.filter p l = [] /\ List.filter (fun i => negb (p i)) l = l).
  { induction l as [|a l IH]; intros Hl; [split; reflexivity|].
    cbn [List.filter]. rewrite (Hl a) by (left; reflexivity). cbn [negb].
    destruct IH as [-> ->]; [intros; apply Hl; right; assumption|].
    split; reflexivity. }
  destruct (H1 (Js.range 0 n)) as [-> ->].
  { intros i Hi. apply in_range in Hi. rewrite Hp by lia.
    apply Z.ltb_lt. lia. }
  destruct (H2 (Js.range n W)) as [-> ->].
  { intros i Hi. apply in_range in Hi. rewrite Hp by lia.
    apply Z.ltb_ge. lia. }
  split; [apply app_nil_r|reflexivity].
Qed.

(** The number [n] of workers whose strip is not empty, for a tile of
    [H >= 1] rows rendered by [W >= 1] workers. *)
Lemma strips_shape (c : Config) (g : Globals) :
  1 <= tileHeight g -> 1 <= WORKER_COUNT c ->
  exists n, 1 <= n <= WORKER_COUNT c /\
    (forall i, 0 <= i < WORKER_COUNT c ->
       (fst (strip c g i) >=? snd (strip c g i)) = negb (i <? n)) /\
    (forall i, 0 <= i < n -> 0 <= fst (strip c g i) < snd (strip c g i)
                             /\ snd (strip c g i) <= tileHeight g) /\
    (forall i j y, in_strip (strip c g i) y -> in_strip (strip c g j) y ->
                   i = j) /\
    (forall y, 0 <= y < tileHeight g ->
       exists i, 0 <= i < n /\ in_strip (strip c g i) y).
Proof.
  intros HH HW.
  pose proof (ceil_bounds (tileHeight g) (WORKER_COUNT c) ltac:(lia)) as Hc.
  fold (tileStripHeight c g) in Hc.
  unfold in_strip, strip. cbn [fst snd].
  generalize dependent (tileStripHeight c g). intros S Hc.
  generalize dependent (tileHeight g). intros H HH Hc.
  generalize dependent (WORKER_COUNT c). intros W HW Hc.
  assert (HS : 1 <= S) by nia.
  exists ((H - 1) / S + 1).
  pose proof (Z.mul_div_le (H - 1) S ltac:(lia)).
  pose proof (Z.mul_succ_div_gt (H - 1) S ltac:(lia)).
  assert (0 <= (H - 1) / S) by (apply Z.div_pos; lia).
  assert ((H - 1) / S < W) by (apply Z.div_lt_upper_bound; nia).
  split; [lia|]. split; [|split; [|split]].
  - intros i Hi.
    destruct (Z.ltb_spec i ((H - 1) / S + 1)); cbn [negb].
    + rewrite Z.geb_leb. apply Z.leb_gt. nia.
    + rewrite Z.geb_leb. apply Z.leb_le. nia.
  - intros i Hi. nia.
  - intros i j y Hi Hj. nia.
  - intros y Hy. exists (y / S).
    pose proof (Z.mul_div_le y S ltac:(lia)).
    pose proof (Z.mul_succ_div_gt y S ltac:(lia)).
    assert (0 <= y / S) by (apply Z.div_pos; lia).
    assert (y / S <= (H - 1) / S) by (apply Z.div_le_mono; lia).
    lia.
Qed.

Lemma NoDup_range lo hi : List.NoDup (Js.range lo hi).
Proof.
  remember (Z.to_nat (hi - lo)) as m eqn:Hm.
  revert lo Hm. induction m as [|m IH]; intros lo Hm.
  - rewrite range_nil by lia. constructor.
  - rewrite range_cons by lia. constructor.
    + rewrite in_range. lia.
    + apply IH. lia.
Qed.

(** What [renderTileWithWorkers] leaves behind when the first [n] strips are
    the non-empty ones: these are posted in order, the other [W - n] workers
    are counted, the canvas is blank. *)
Lemma renderTileWithWorkers_posted (c : Config) (g : Globals) (n : Z) :
  0 <= n <= WORKER_COUNT c ->
  (forall i, 0 <= i < WORKER_COUNT c ->
     (fst (strip c g i) >=? snd (strip c g i)) = negb (i <? n)) ->
  renderTileWithWorkers c g
  = {| completedWorkers := WORKER_COUNT c - n;
       canvas := createCanvas (tileWidth g) (tileHeight g);
       posted := map (strip_message c g) (Js.range 0 n);
       saved := [] |}.
Proof.
  intros Hn Hp. unfold renderTileWithWorkers. rewrite dispatch_fold.
  cbn [start completedWorkers canvas posted saved app].
  destruct (filter_range_below
              (fun i => negb (fst (strip c g i) >=? snd (strip c g i)))
              n (WORKER_COUNT c) Hn) as [E1 E2].
  { intros i Hi. rewrite Hp by exact Hi. apply negb_involutive. }
  rewrite E1.
  rewrite (List.filter_ext _
             (fun i => negb (negb (fst (strip c g i) >=? snd (strip c g i)))))
    by (intros; symmetry; apply negb_involutive).
  rewrite E2, length_range. f_equal. lia.
Qed.

Lemma pending_row_app l1 l2 y :
  pending_row (l1 ++ l2) y = pending_row l1 y || pending_row l2 y.
Proof. unfold pending_row. apply existsb_app. Qed.

Lemma pending_row_strips c g idxs y :
  pending_row (map (strip_message c g) idxs) y = true <->
  exists i, In i idxs /\ in_strip (strip c g i) y.
Proof.
  unfold pending_row. rewrite existsb_exists. split.
  - intros (d & Hd & Hy). apply in_map_iff in Hd. destruct Hd as (i & <- & Hi).
    exists i. split; [exact Hi|]. unfold in_strip.
    cbn [strip_message message Msg.startYInTile Msg.endYInTile] in Hy. lia.
  - intros (i & Hi & Hy). exists (strip_message c g i).
    split; [apply in_map; exact Hi|]. unfold in_strip in Hy.
    cbn [strip_message message Msg.startYInTile Msg.endYInTile]. lia.
Qed.

Section Reassembly.

Variable Math_log : float -> float.
Variable c : Config.
Variable g : Globals.

(** The bytes of a row do not depend on the strip it is rendered in. *)
Lemma row_bytes_strip s e y :
  row_bytes Math_log (message c g s e) y
  = row_bytes Math_log (message c g 0 (tileHeight g)) y.
Proof. reflexivity. Qed.

Lemma partial_canvas_nil :
  partial_canvas Math_log c g [] = sequential_render Math_log c g.
Proof. reflexivity. Qed.

Lemma createCanvas_all_pending (l : list Msg.data) :
  0 <= tileWidth g -> 0 <= tileHeight g ->
  (forall y, 0 <= y < tileHeight g -> pending_row l y = true) ->
  createCanvas (tileWidth g) (tileHeight g) = partial_canvas Math_log c g l.
Proof.
  intros Hw Hh Hall. unfold createCanvas, partial_canvas.
  replace (Z.to_nat (tileWidth g * tileHeight g * 4))
    with (Z.to_nat (tileHeight g) * Z.to_nat (4 * tileWidth g))%nat by nia.
  rewrite replicate_rows by exact Hh.
  apply flat_map_ext_in. intros y Hy. apply in_range in Hy.
  now rewrite Hall.
Qed.

(** The handler of a reply for strip [i], one of the strips still awaited,
    puts the rows of this strip on the canvas and leaves the others. *)
Lemma putImageData_strip (ib ia : list Z) (i : Z) :
  0 <= tileWidth g ->
  0 <= fst (strip c g i) <= snd (strip c g i) ->
  snd (strip c g i) <= tileHeight g ->
  ~ In i (ib ++ ia) ->
  (forall j y, in_strip (strip c g i) y -> in_strip (strip c g j) y -> i = j) ->
  putImageData
    (partial_canvas Math_log c g
       (map (strip_message c g) (ib ++ i :: ia)))
    (Reply.pixels (onmessage Math_log (strip_message c g i)))
    (tileWidth g) (fst (strip c g i))
  = partial_canvas Math_log c g (map (strip_message c g) (ib ++ ia)).
Proof.
  intros Hw Hse HeH Hni Hdisj.
  rewrite onmessage_pixels
    by (cbn [strip_message message Msg.tileWidth Msg.startYInTile
             Msg.endYInTile]; lia).
  cbn [strip_message message Msg.startYInTile Msg.endYInTile].
  unfold partial_canvas.
  rewrite (putImageData_rows _ _ (tileWidth g) (tileHeight g)); try lia.
  - apply flat_map_ext_in. intros y Hy.
    destruct ((fst (strip c g i) <=? y) && (y <? snd (strip c g i))) eqn:Hin.
    + assert (Hiy : in_strip (strip c g i) y) by (unfold in_strip; lia).
      replace (pending_row (map (strip_message c g) (ib ++ ia)) y) with false.
      { apply row_bytes_strip. }
      symmetry. apply not_true_is_false. intros Hp.
      apply pending_row_strips in Hp. destruct Hp as (j & Hj & Hjy).
      apply Hni. now rewrite (Hdisj j y Hiy Hjy).
    + rewrite !map_app, !pending_row_app. cbn [map].
      replace (pending_row (strip_message c g i :: map (strip_message c g) ia) y)
        with (pending_row (map (strip_message c g) ia) y); [reflexivity|].
      unfold pending_row at 2. cbn [existsb].
      cbn [strip_message message Msg.startYInTile Msg.endYInTile].
      rewrite Hin. reflexivity.
  - intros y. destruct (pending_row _ y).
    + apply length_replicate.
    + rewrite length_row_bytes. reflexivity.
  - intros y. rewrite length_row_bytes. reflexivity.
Qed.

End Reassembly.

(** ** The states of the main thread *)

Section Completion.

Variable Math_log : float -> float.
Variable c : Config.
Variable g : Globals.

(** Between two events, for a tile of positive size: the messages still
    awaited are those of pairwise different non-empty strips, the canvas
    holds the rows of all the other strips, [completedWorkers] is
    [WORKER_COUNT] minus the number of awaited strips, and the canvas has
    been saved, once, exactly if no strip is awaited. *)
Lemma reachable_invariant :
  1 <= tileWidth g -> 1 <= tileHeight g -> 1 <= WORKER_COUNT c ->
  forall st, reachable Math_log c g st ->
  exists idxs : list Z,
    posted st = map (strip_message c g) idxs /\
    List.NoDup idxs /\
    (forall i, In i idxs ->
       0 <= fst (strip c g i) < snd (strip c g i)
       /\ snd (strip c g i) <= tileHeight g) /\
    canvas st = partial_canvas Math_log c g (posted st) /\
    completedWorkers st = WORKER_COUNT c - Z.of_nat (length idxs) /\
    saved st = match idxs with [] => [canvas st] | _ :: _ => [] end.
Proof.
  intros Hw HH HW.
  destruct (strips_shape c g HH HW) as (n & Hn & Hgeb & Hne & Hdisj & Hcov).
  induction 1 as [|st st' Hreach IH Hstep].
  - exists (Js.range 0 n).
    rewrite (renderTileWithWorkers_posted c g n) by (try lia; exact Hgeb).
    cbn [posted canvas completedWorkers saved].
    split; [reflexivity|]. split; [apply NoDup_range|].
    split; [intros i Hi; apply in_range in Hi; apply Hne; exact Hi|].
    split; [|split].
    + apply createCanvas_all_pending; try lia.
      intros y Hy. apply pending_row_strips.
      destruct (Hcov y Hy) as (i & Hi & Hiy).
      exists i. split; [apply in_range; exact Hi|exact Hiy].
    + rewrite length_range. lia.
    + rewrite range_cons by lia. reflexivity.
  - destruct IH as (idxs & Hposted & Hnd & Hstrips & Hcanvas & Hcount & Hsaved).
    destruct Hstep as [st before d after Hsplit].
    rewrite Hsplit in Hposted. symmetry in Hposted.
    apply map_eq_app in Hposted.
    destruct Hposted as (ib & rest & -> & Hb & Hrest).
    apply map_eq_cons in Hrest.
    destruct Hrest as (i & ia & -> & Hd & Ha).
    subst before d after.
    destruct (Hstrips i) as [Hi1 Hi2]; [apply in_or_app; right; left; reflexivity|].
    exists (ib ++ ia).
    unfold worker_onmessage.
    cbn [completedWorkers canvas posted saved
         Reply.pixels Reply.startYInTile Reply.endYInTile onmessage
         strip_message message Msg.startYInTile Msg.endYInTile].
    fold (strip_message c g i).
    assert (Hok : ImageData_ok
                    (Reply.pixels (onmessage Math_log (strip_message c g i)))
                    (tileWidth g)
                    (snd (strip c g i) - fst (strip c g i)) = true).
    { unfold ImageData_ok.
      rewrite length_onmessage_pixels
        by (cbn [strip_message message Msg.tileWidth Msg.startYInTile
                 Msg.endYInTile]; lia).
      cbn [strip_message message Msg.tileWidth Msg.startYInTile
           Msg.endYInTile].
      rewrite Z.eqb_refl, andb_true_r.
      apply andb_true_intro. split; apply Z.ltb_lt; lia. }
    change (Reply.pixels (onmessage Math_log (strip_message c g i)))
      with (fold_left (row_step Math_log (strip_message c g i))
              (Js.range (fst (strip c g i)) (snd (strip c g i)))
              (replicate
                 (Z.to_nat (tileWidth g
                            * (snd (strip c g i) - fst (strip c g i)) * 4)) 0))
      in Hok.
    cbn [strip_message message Msg.tileWidth Msg.startYInTile Msg.endYInTile]
      in Hok |- *.
    rewrite Hok. cbn [negb completedWorkers canvas posted saved].
    assert (Hput := putImageData_strip Math_log c g ib ia i
                      ltac:(lia) ltac:(lia) Hi2
                      (NoDup_remove_2 _ _ _ Hnd) (Hdisj i)).
    rewrite Hcanvas, Hsplit.
    rewrite <- map_app.
    change (map (strip_message c g) ib ++ strip_message c g i
              :: map (strip_message c g) ia)
      with (map (strip_message c g) ib
            ++ map (strip_message c g) (i :: ia)).
    rewrite <- map_app.
    unfold onmessage in Hput. cbn [Reply.pixels] in Hput.
    cbn [strip_message message Msg.tileWidth Msg.startYInTile Msg.endYInTile]
      in Hput.
    cbv zeta in Hput. rewrite Hput.
    split; [reflexivity|].
    split; [exact (NoDup_remove_1 _ _ _ Hnd)|].
    split.
    { intros j Hj. apply Hstrips. apply in_app_or in Hj.
      apply in_or_app. destruct Hj; [left|right; right]; assumption. }
    split; [reflexivity|].
    rewrite length_app in Hcount |- *. cbn [length] in Hcount.
    split; [lia|].
    assert (Hs0 : saved st = []).
    { rewrite Hsaved. destruct ib; reflexivity. }
    rewrite Hs0.
    destruct (ib ++ ia) as [|j rest] eqn:Eidx.
    + apply (f_equal (@length Z)) in Eidx. rewrite length_app in Eidx.
      cbn [length] in Eidx.
      replace (completedWorkers st + 1 =? WORKER_COUNT c) with true
        by (symmetry; apply Z.eqb_eq; lia).
      reflexivity.
    + apply (f_equal (@length Z)) in Eidx. rewrite length_app in Eidx.
      cbn [length] in Eidx.
      replace (completedWorkers st + 1 =? WORKER_COUNT c) with false
        by (symmetry; apply Z.eqb_neq; lia).
      reflexivity.
Qed.

(** Handling the replies in a given order goes through reachable states. *)
Lemma run_reachable (order : list nat) : forall st,
  reachable Math_log c g st -> reachable Math_log c g (run Math_log c g order st).
Proof.
  induction order as [|k order IH]; intros st Hst; [exact Hst|].
  cbn [run]. destruct (posted st !! k) as [d|] eqn:Hk; [|apply IH; exact Hst].
  apply IH. eapply reachable_step; [exact Hst|].
  apply step_reply. symmetry. apply take_drop_middle. exact Hk.
Qed.

(** Every run can be completed: the workers still awaited answer one after
    the other. *)
Lemma run_completes : forall st,
  posted (run Math_log c g (replicate (length (posted st)) 0%nat) st) = [].
Proof.
  intros st. remember (length (posted st)) as k eqn:Hk.
  revert st Hk. induction k as [|k IH]; intros st Hk.
  - cbn [replicate run]. destruct (posted st); [reflexivity|discriminate].
  - cbn [replicate run]. destruct (posted st) as [|d rest] eqn:Hp;
      [discriminate|].
    change ((d :: rest) !! 0%nat) with (Some d).
    change (take 0 (d :: rest) ++ drop 1 (d :: rest)) with rest.
    apply IH. unfold worker_onmessage.
    cbn [completedWorkers canvas posted saved].
    cbn [length] in Hk.
    destruct (negb _); cbn [posted]; lia.
Qed.

End Completion.

(** C4. For a tile of positive width and height and at least one worker:
    the buffer a worker posts back for its strip is the rows
    [startYInTile .. endYInTile - 1] of the tile, [4 * tileWidth] bytes per
    row; a worker given the whole tile produces the sequential render; and
    once every strip has been put on the canvas at its row offset, in
    whatever order the replies arrived, the canvas is byte for byte the
    sequential render of the whole tile, and that is what is saved. Such a
    final state is reached by every run that lets all the workers answer. *)
Theorem strips_reassemble
  (Math_log : float -> float) (c : Config) (g : Globals) :
  1 <= tileWidth g -> 1 <= tileHeight g -> 1 <= WORKER_COUNT c ->
  (forall i, 0 <= i < WORKER_COUNT c ->
     fst (strip c g i) < snd (strip c g i) ->
     Reply.pixels (onmessage Math_log (strip_message c g i))
     = flat_map (row_bytes Math_log (message c g 0 (tileHeight g)))
         (Js.range (fst (strip c g i)) (snd (strip c g i)))) /\
  Reply.pixels (onmessage Math_log (message c g 0 (tileHeight g)))
  = sequential_render Math_log c g /\
  (forall st, reachable Math_log c g st -> posted st = [] ->
     canvas st = sequential_render Math_log c g /\
     saved st = [sequential_render Math_log c g]) /\
  (exists st, reachable Math_log c g st /\ posted st = []).
Proof.
  intros Hw HH HW. split; [|split; [|split]].
  - intros i Hi Hne.
    rewrite onmessage_pixels
      by (cbn [strip_message message Msg.tileWidth Msg.startYInTile
               Msg.endYInTile]; lia).
    reflexivity.
  - rewrite onmessage_pixels
      by (cbn [message Msg.tileWidth Msg.startYInTile Msg.endYInTile]; lia).
    reflexivity.
  - intros st Hst Hp.
    destruct (reachable_invariant Math_log c g Hw HH HW st Hst)
      as (idxs & Hposted & _ & _ & Hcanvas & _ & Hsaved).
    rewrite Hp in Hposted, Hcanvas.
    destruct idxs; [|discriminate Hposted].
    rewrite partial_canvas_nil in Hcanvas.
    split; [exact Hcanvas|]. now rewrite Hsaved, Hcanvas.
  - exists (run Math_log c g
              (replicate (length (posted (renderTileWithWorkers c g))) 0%nat)
              (renderTileWithWorkers c g)).
    split; [apply run_reachable; constructor|apply run_completes].
Qed.

Lemma strips_reassemble_witness :
  (1 <= tileWidth (setup Example.small) /\
   1 <= tileHeight (setup Example.small) /\
   1 <= WORKER_COUNT Example.small) /\
  canvas (render_tile Example.log_linear Example.small [2; 0; 0]%nat)
  = sequential_render Example.log_linear Example.small (setup Example.small).
Proof.
  assert (H1 : 1 <= tileWidth (setup Example.small))
    by (vm_compute; discriminate).
  assert (H2 : 1 <= tileHeight (setup Example.small))
    by (vm_compute; discriminate).
  assert (H3 : 1 <= WORKER_COUNT Example.small)
    by (vm_compute; discriminate).
  split; [repeat split; assumption|].
  apply (proj1 (proj2 (proj2
    (strips_reassemble Example.log_linear Example.small
       (setup Example.small) H1 H2 H3)))).
  - apply run_reachable. constructor.
  - vm_compute. reflexivity.
Defined.

(** ** Tiles without rows or columns *)

Lemma renderTileWithWorkers_saved (c : Config) (g : Globals) :
  saved (renderTileWithWorkers c g) = [].
Proof.
  unfold renderTileWithWorkers. rewrite dispatch_fold. reflexivity.
Qed.

(** Without rows every strip is empty. *)
Lemma no_rows_skipped (c : Config) (g : Globals) (i : Z) :
  tileHeight g <= 0 -> 1 <= WORKER_COUNT c -> 0 <= i ->
  (fst (strip c g i) >=? snd (strip c g i)) = true.
Proof.
  intros HH HW Hi. unfold strip, tileStripHeight. cbn [fst snd].
  assert (0 <= (- tileHeight g) / WORKER_COUNT c) by (apply Z.div_pos; lia).
  apply Z.geb_le. nia.
Qed.

Lemma no_rows_dispatch (c : Config) (g : Globals) :
  tileHeight g <= 0 -> 1 <= WORKER_COUNT c ->
  renderTileWithWorkers c g
  = {| completedWorkers := WORKER_COUNT c;
       canvas := createCanvas (tileWidth g) (tileHeight g);
       posted := [];
       saved := [] |}.
Proof.
  intros HH HW.
  rewrite (renderTileWithWorkers_posted c g 0) by
    (try lia; intros i Hi; rewrite no_rows_skipped by lia;
     replace (i <? 0) with false by (symmetry; apply Z.ltb_ge; lia);
     reflexivity).
  rewrite Z.sub_0_r. reflexivity.
Qed.

(** No event can follow the dispatch loop of a tile without rows. *)
Lemma no_rows_reachable (Math_log : float -> float) (c : Config)
  (g : Globals) (st : state) :
  tileHeight g <= 0 -> 1 <= WORKER_COUNT c ->
  reachable Math_log c g st -> st = renderTileWithWorkers c g.
Proof.
  intros HH HW Hst. induction Hst as [|st st' Hst IH Hstep]; [reflexivity|].
  exfalso. destruct Hstep as [st before d after Hq].
  rewrite IH, (no_rows_dispatch c g HH HW) in Hq. cbn [posted] in Hq.
  destruct before; discriminate.
Qed.

(** The replies for a tile without columns are all rejected. *)
Lemma no_columns_reachable (Math_log : float -> float) (c : Config)
  (g : Globals) (st : state) :
  tileWidth g <= 0 ->
  reachable Math_log c g st ->
  saved st = [] /\
  completedWorkers st = completedWorkers (renderTileWithWorkers c g).
Proof.
  intros Hw Hst. induction Hst as [|st st' Hst IH Hstep].
  - split; [apply renderTileWithWorkers_saved|reflexivity].
  - destruct Hstep as [st before d after Hp]. destruct IH as [IH1 IH2].
    unfold worker_onmessage, ImageData_ok.
    replace (0 <? tileWidth g) with false by (symmetry; apply Z.ltb_ge; lia).
    cbn [andb negb saved completedWorkers].
    split; assumption.
Qed.

(** C8, as the code has it. [completedWorkers] counts the skipped (empty)
    strips, at dispatch time, and the replies accepted; the canvas is saved
    by the handler that makes it equal to [WORKER_COUNT]. So, in every
    state the main thread goes through, for a tile of any size: the
    counter after the dispatch loop is [WORKER_COUNT] minus the number of
    strips dispatched; afterwards it is that plus the number of replies
    handled (for a tile without columns every reply is rejected and the
    counter stays as it was); the canvas has been saved exactly if the
    counter was below [WORKER_COUNT] after the loop and is [WORKER_COUNT]
    now, and then, but not before, every dispatched strip has reported; it
    is saved at most once. A tile with rows has some strip dispatched, so
    its counter is below [WORKER_COUNT] after the loop; a tile without rows
    has none, its counter is [WORKER_COUNT] from the start, no event
    follows the loop and it is never saved. *)
Theorem save_after_all_replies
  (Math_log : float -> float) (c : Config) (g : Globals) :
  1 <= WORKER_COUNT c ->
  forall st, reachable Math_log c g st ->
    completedWorkers (renderTileWithWorkers c g)
    + Z.of_nat (length (posted (renderTileWithWorkers c g)))
    = WORKER_COUNT c /\
    (1 <= tileWidth g ->
     completedWorkers st
     = completedWorkers (renderTileWithWorkers c g)
       + (Z.of_nat (length (posted (renderTileWithWorkers c g)))
          - Z.of_nat (length (posted st)))) /\
    (tileWidth g <= 0 ->
     completedWorkers st = completedWorkers (renderTileWithWorkers c g)) /\
    (saved st <> [] <->
     completedWorkers (renderTileWithWorkers c g) < WORKER_COUNT c /\
     completedWorkers st = WORKER_COUNT c) /\
    (saved st <> [] -> posted st = []) /\
    (posted st <> [] -> saved st = []) /\
    (saved st = [] \/ saved st = [canvas st]) /\
    (1 <= tileHeight g ->
     completedWorkers (renderTileWithWorkers c g) < WORKER_COUNT c) /\
    (tileHeight g <= 0 ->
     st = renderTileWithWorkers c g /\ posted st = [] /\
     completedWorkers st = WORKER_COUNT c).
Proof.
  intros HW st Hst.
  destruct (Z_le_gt_dec (tileHeight g) 0) as [H0|HH].
  { (* no rows: nothing is dispatched *)
    rewrite (no_rows_reachable Math_log c g st H0 HW Hst).
    rewrite (no_rows_dispatch c g H0 HW).
    cbn [completedWorkers posted saved length].
    repeat split; intros; try lia; try congruence.
    left. reflexivity. }
  destruct (strips_shape c g ltac:(lia) HW) as (n & Hn & Hgeb & _).
  rewrite (renderTileWithWorkers_posted c g n) by (try lia; exact Hgeb).
  cbn [completedWorkers posted]. rewrite length_map, length_range.
  assert (Hend : forall A B C D E F G H I : Prop,
            H -> I -> (A /\ B /\ C /\ D /\ E /\ F /\ G) ->
            A /\ B /\ C /\ D /\ E /\ F /\ G /\ H /\ I) by tauto.
  apply Hend; clear Hend; [intros _; lia|intros; lia|].
  destruct (Z_le_gt_dec (tileWidth g) 0) as [W0|Hw].
  { (* no columns: every reply is rejected *)
    destruct (no_columns_reachable Math_log c g st W0 Hst) as [Hs Hc].
    rewrite (renderTileWithWorkers_posted c g n) in Hc
      by (try lia; exact Hgeb).
    cbn [completedWorkers] in Hc. rewrite Hs, Hc.
    repeat split; intros; try lia; try congruence.
    left. reflexivity. }
  destruct (reachable_invariant Math_log c g ltac:(lia) ltac:(lia) HW st Hst)
    as (idxs & Hposted & _ & _ & _ & Hcount & Hsaved).
  rewrite Hposted, length_map, Hcount, Hsaved.
  destruct idxs as [|i idxs]; cbn [map length].
  - repeat split; intros; try lia; try congruence; try discriminate.
    right. reflexivity.
  - repeat split; intros; try lia; try congruence.
    left. reflexivity.
Qed.

Lemma save_after_all_replies_witness :
  1 <= WORKER_COUNT Example.small /\
  completedWorkers (render_tile Example.log_linear Example.small [1; 0; 0]%nat)
  = WORKER_COUNT Example.small /\
  posted (render_tile Example.log_linear Example.small [1; 0; 0]%nat) = [].
Proof.
  assert (H1 : 1 <= WORKER_COUNT Example.small)
    by (vm_compute; discriminate).
  assert (Hr : reachable Example.log_linear Example.small
                 (setup Example.small)
                 (render_tile Example.log_linear Example.small [1; 0; 0]%nat))
    by (apply run_reachable; constructor).
  assert (Hs : saved (render_tile Example.log_linear Example.small
                        [1; 0; 0]%nat) <> [])
    by (vm_compute; discriminate).
  destruct (save_after_all_replies Example.log_linear Example.small
              (setup Example.small) H1 _ Hr)
    as (_ & _ & _ & Hiff & Hdone & _).
  split; [exact H1|].
  split; [exact (proj2 (proj1 Hiff Hs))|exact (Hdone Hs)].
Defined.

(** C8 as stated fails: the counter that triggers the save is compared
    with [WORKER_COUNT], and it counts the skipped strips too. With 5 rows
    and 4 workers, 3 strips are dispatched and the canvas is saved when the
    counter is 4. *)
Lemma completion_counter_counterexample :
  ~ (forall (Math_log : float -> float) (c : Config) (g : Globals)
            (st : state),
       1 <= tileWidth g -> 1 <= tileHeight g -> 1 <= WORKER_COUNT c ->
       reachable Math_log c g st -> saved st <> [] ->
       completedWorkers st
       = Z.of_nat (length (posted (renderTileWithWorkers c g)))).
Proof.
  intros H.
  assert (E : completedWorkers
                (render_tile Example.log_linear Example.small [0; 0; 0]%nat)
              = Z.of_nat (length (posted (renderTileWithWorkers Example.small
                                            (setup Example.small))))).
  { apply (H Example.log_linear Example.small (setup Example.small)).
    - vm_compute; discriminate.
    - vm_compute; discriminate.
    - vm_compute; discriminate.
    - apply run_reachable. constructor.
    - vm_compute. discriminate. }
  vm_compute in E. discriminate E.
Qed.

(** ** HSB to RGB *)

Lemma ltb_leb (x y : float) :
  (x <? y)%float = true -> (x <=? y)%float = true.
Proof.
  rewrite ltb_spec, leb_spec. unfold SFltb, SFleb.
  destruct (SFcompare _ _) as [[]|]; congruence.
Qed.

Lemma ltb_not_nan (x y : float) :
  (x <? y)%float = true -> is_nan x = false /\ is_nan y = false.
Proof.
  rewrite ltb_spec, !not_nan_Prim2SF. unfold SFltb.
  destruct (Prim2SF x), (Prim2SF y); cbn; intros H; split; congruence.
Qed.

(** [Math.min(100, x)] of a number that is not NaN is a number that is at
    most 100. *)
Lemma Math_min_100 (x : float) :
  is_nan x = false ->
  is_nan (Js.Math_min 100 x) = false /\
  (Js.Math_min 100 x <=? 100)%float = true.
Proof.
  intros Hx. unfold Js.Math_min. rewrite Hx.
  change (is_nan 100) with false. cbn [orb].
  destruct (100 <? x)%float eqn:H1; [split; reflexivity|].
  change (get_sign 100) with false.
  assert (Hle : (x <=? 100)%float = true)
    by (apply ltb_false_leb; [reflexivity|exact Hx|exact H1]).
  destruct (x <? 100)%float; split; assumption.
Qed.

(** [Math.max(0, x)] of a number that is not NaN and at most 100 is a
    number between 0 and 100. *)
Lemma Math_max_0 (x : float) :
  is_nan x = false -> (x <=? 100)%float = true ->
  is_nan (Js.Math_max 0 x) = false /\
  (0 <=? Js.Math_max 0 x)%float = true /\
  (Js.Math_max 0 x <=? 100)%float = true.
Proof.
  intros Hx Hle. unfold Js.Math_max. rewrite Hx.
  change (is_nan 0) with false. cbn [orb].
  destruct (0 <? x)%float eqn:H1.
  - repeat split; [exact Hx|apply ltb_leb; exact H1|exact Hle].
  - change (get_sign 0) with false.
    destruct (x <? 0)%float; repeat split; reflexivity.
Qed.

(** C7 as stated fails: a NaN hue matches no [case] of the [switch], and
    the components returned are NaN, not integers. *)
Lemma hsbToRgb_nan_hue :
  ~ (forall h s v : float,
       is_byte_number (r (hsbToRgb h s v)) /\
       is_byte_number (g (hsbToRgb h s v)) /\
       is_byte_number (b (hsbToRgb h s v))).
Proof.
  intros H. destruct (H nan 125%float 50%float) as [(n & Hn & _) _].
  vm_compute in Hn. discriminate Hn.
Qed.


(** ** Binary64 arithmetic *)

Import B64.


Lemma bpow_gt_0 e : (0 < bpow e)%R.
Proof. apply powerRZ_lt. lra. Qed.

Lemma bpow_add a b : bpow (a + b) = (bpow a * bpow b)%R.
Proof. apply powerRZ_add. lra. Qed.

Lemma bpow_IZR e : 0 <= e -> bpow e = IZR (2 ^ e).
Proof.
  intros He. unfold bpow.
  rewrite <- (Z2Nat.id e) at 1 by exact He.
  rewrite <- pow_powerRZ.
  rewrite <- (Z2Nat.id e) at 2 by exact He.
  generalize (Z.to_nat e). intros n. induction n as [|n IH].
  - reflexivity.
  - rewrite Nat2Z.inj_succ, Z.pow_succ_r, mult_IZR by lia.
    cbn [pow]. rewrite IH. reflexivity.
Qed.

Lemma bpow_ge_1 e : 0 <= e -> (1 <= bpow e)%R.
Proof.
  intros He. rewrite bpow_IZR by exact He. apply IZR_le.
  assert (0 < 2 ^ e) by (apply Z.pow_pos_nonneg; lia). lia.
Qed.

Lemma bpow_le a b : a <= b -> (bpow a <= bpow b)%R.
Proof.
  intros H. replace b with (a + (b - a)) by lia. rewrite bpow_add.
  pose proof (bpow_gt_0 a). pose proof (bpow_ge_1 (b - a) ltac:(lia)). nra.
Qed.

Lemma bpow_lt a b : a < b -> (bpow a < bpow b)%R.
Proof.
  intros H. replace b with (a + 1 + (b - a - 1)) by lia. rewrite !bpow_add.
  pose proof (bpow_gt_0 a). pose proof (bpow_ge_1 (b - a - 1) ltac:(lia)).
  assert (E : bpow 1 = 2%R) by (unfold bpow; simpl; lra). rewrite E. nra.
Qed.

Lemma F2R_shift m e k : 0 <= k -> F2R (m * 2 ^ k) (e - k) = F2R m e.
Proof.
  intros Hk. unfold F2R. rewrite mult_IZR, <- bpow_IZR by exact Hk.
  replace e with ((e - k) + k) at 2 by lia. rewrite bpow_add. ring.
Qed.

Lemma F2R_le m1 m2 e : m1 <= m2 -> (F2R m1 e <= F2R m2 e)%R.
Proof.
  intros H. unfold F2R. pose proof (bpow_gt_0 e). apply IZR_le in H. nra.
Qed.

Lemma F2R_lt_inv m1 m2 e : (F2R m1 e < F2R m2 e)%R -> m1 < m2.
Proof.
  intros H. unfold F2R in H. pose proof (bpow_gt_0 e).
  apply lt_IZR. nra.
Qed.

Lemma F2R_le_inv m1 m2 e : (F2R m1 e <= F2R m2 e)%R -> m1 <= m2.
Proof.
  intros H. unfold F2R in H. pose proof (bpow_gt_0 e).
  apply le_IZR. nra.
Qed.

(** digits *)
Lemma digits2_pos_bounds (m : positive) :
  2 ^ (Zpos (digits2_pos m) - 1) <= Zpos m < 2 ^ Zpos (digits2_pos m).
Proof.
  induction m as [m IH|m IH|]; cbn [digits2_pos].
  - rewrite Pos2Z.inj_succ.
    replace (Z.succ (Zpos (digits2_pos m)) - 1) with (Z.succ (Zpos (digits2_pos m) - 1)) by lia.
    rewrite !Z.pow_succ_r by lia. lia.
  - rewrite Pos2Z.inj_succ.
    replace (Z.succ (Zpos (digits2_pos m)) - 1) with (Z.succ (Zpos (digits2_pos m) - 1)) by lia.
    rewrite !Z.pow_succ_r by lia. lia.
  - cbn. lia.
Qed.

Lemma Zdigits2_bounds (m : Z) : 0 < m ->
  2 ^ (Zdigits2 m - 1) <= m < 2 ^ Zdigits2 m.
Proof.
  destruct m as [|p|p]; try lia. intros _. apply digits2_pos_bounds.
Qed.

Lemma Zdigits2_nonneg m : 0 <= Zdigits2 m.
Proof. destruct m; cbn; lia. Qed.

Lemma Zdigits2_pos m : 0 < m -> 0 < Zdigits2 m.
Proof. destruct m; cbn; lia. Qed.

(** [d] is the number of digits of [m] as soon as [2^(d-1) <= m < 2^d]. *)
Lemma Zdigits2_unique m d : 0 < m -> 2 ^ (d - 1) <= m < 2 ^ d -> Zdigits2 m = d.
Proof.
  intros Hm [H1 H2]. pose proof (Zdigits2_bounds m Hm) as [H3 H4].
  pose proof (Zdigits2_pos m Hm).
  assert (0 < d).
  { destruct (Z_lt_le_dec 0 d); [assumption|].
    assert (2 ^ d <= 2 ^ 0) by (destruct (Z.eq_dec d 0); [subst; lia|rewrite Z.pow_neg_r by lia; lia]).
    lia. }
  destruct (Z.lt_trichotomy (Zdigits2 m) d) as [Hlt|[Heq|Hgt]]; [|exact Heq|].
  - assert (2 ^ Zdigits2 m <= 2 ^ (d - 1)) by (apply Z.pow_le_mono_r; lia). lia.
  - assert (2 ^ d <= 2 ^ (Zdigits2 m - 1)) by (apply Z.pow_le_mono_r; lia). lia.
Qed.

Lemma Zdigits2_shiftl m k : 0 < m -> 0 <= k -> Zdigits2 (m * 2 ^ k) = Zdigits2 m + k.
Proof.
  intros Hm Hk. pose proof (Zdigits2_bounds m Hm) as [H1 H2].
  pose proof (Zdigits2_pos m Hm).
  assert (0 < 2 ^ k) by (apply Z.pow_pos_nonneg; lia).
  apply Zdigits2_unique; [nia|].
  replace (Zdigits2 m + k - 1) with (Zdigits2 m - 1 + k) by lia.
  rewrite !Z.pow_add_r by lia. nia.
Qed.

Lemma Zdigits2_shiftr m k : 0 <= k < Zdigits2 m -> 0 < m ->
  Zdigits2 (m / 2 ^ k) = Zdigits2 m - k /\ 0 < m / 2 ^ k.
Proof.
  intros Hk Hm. pose proof (Zdigits2_bounds m Hm) as [H1 H2].
  assert (H2k : 0 < 2 ^ k) by (apply Z.pow_pos_nonneg; lia).
  assert (Hlow : 2 ^ (Zdigits2 m - k - 1) <= m / 2 ^ k).
  { apply Z.div_le_lower_bound; [lia|].
    rewrite <- Z.pow_add_r by lia.
    replace (k + (Zdigits2 m - k - 1)) with (Zdigits2 m - 1) by lia. exact H1. }
  assert (Hup : m / 2 ^ k < 2 ^ (Zdigits2 m - k)).
  { apply Z.div_lt_upper_bound; [lia|].
    rewrite <- Z.pow_add_r by lia.
    replace (k + (Zdigits2 m - k)) with (Zdigits2 m) by lia. exact H2. }
  assert (0 < 2 ^ (Zdigits2 m - k - 1)) by (apply Z.pow_pos_nonneg; lia).
  split; [|lia].
  apply Zdigits2_unique; [lia|]. split; [|exact Hup].
  replace (Zdigits2 m - k - 1) with (Zdigits2 m - k - 1) by lia. lia.
Qed.

Lemma Zdigits2_le m1 m2 : 0 < m1 <= m2 -> Zdigits2 m1 <= Zdigits2 m2.
Proof.
  intros [H1 H2]. pose proof (Zdigits2_bounds m1 H1) as [A B].
  pose proof (Zdigits2_bounds m2 ltac:(lia)) as [C D].
  destruct (Z_lt_le_dec (Zdigits2 m2) (Zdigits2 m1)) as [Hlt|]; [|assumption].
  assert (2 ^ Zdigits2 m2 <= 2 ^ (Zdigits2 m1 - 1)).
  { apply Z.pow_le_mono_r; [lia|]. lia. }
  lia.
Qed.


(** ** Shifting and rounding *)


Lemma fexp_spec x : fexp prec emax x = Z.max (x - 53) (-1074).
Proof. reflexivity. Qed.

Lemma F2R_succ_e m e : F2R m (e + 1) = (2 * F2R m e)%R.
Proof.
  unfold F2R. rewrite bpow_add.
  assert (E : bpow 1 = 2%R) by (unfold bpow; simpl; lra). rewrite E. ring.
Qed.

Lemma F2R_plus1 m e : F2R (m + 1) e = (F2R m e + bpow e)%R.
Proof. unfold F2R. rewrite plus_IZR. ring. Qed.

Lemma loc_of_record_of_loc m l :
  loc_of_shr_record (shr_record_of_loc m l) = l /\
  shr_m (shr_record_of_loc m l) = m.
Proof. destruct l as [|[]]; split; reflexivity. Qed.

Lemma shr_1_located x mrs e :
  0 <= shr_m mrs ->
  located x (shr_m mrs) e (loc_of_shr_record mrs) ->
  located x (shr_m (shr_1 mrs)) (e + 1) (loc_of_shr_record (shr_1 mrs)) /\
  shr_m (shr_1 mrs) = shr_m mrs / 2.
Proof.
  destruct mrs as [m r s]. cbn [shr_m]. intros Hm Hloc.
  assert (Hdiv : forall p, (Zpos p~0 / 2 = Zpos p) /\ (Zpos p~1 / 2 = Zpos p)).
  { intros p. split.
    - rewrite Pos2Z.inj_xO, Z.mul_comm, Z.div_mul; lia.
    - rewrite Pos2Z.inj_xI.
      replace (2 * Z.pos p + 1) with (1 + Z.pos p * 2) by lia.
      rewrite Z.div_add by lia. reflexivity. }
  destruct m as [|[p|p|]|p]; try lia; cbn [shr_1 shr_m].
  - (* 0 *)
    split; [|reflexivity].
    assert (E1 : F2R 0 (e + 1) = 0%R) by (unfold F2R; lra).
    assert (E0 : F2R 0 e = 0%R) by (unfold F2R; lra).
    assert (E2 : (F2R (0 + 1) e < F2R (0 + 1) (e + 1))%R).
    { rewrite F2R_succ_e. unfold F2R. replace (0 + 1) with 1 by lia.
      pose proof (bpow_gt_0 e). lra. }
    pose proof (bpow_gt_0 e) as H1.
    destruct r, s; cbn [loc_of_shr_record located orb] in *;
      rewrite ?F2R_plus1 in *; lra.
  - (* 2p+1 *)
    split; [|symmetry; apply (proj2 (Hdiv p))].
    assert (E1 : F2R (Zpos p~1) e = (F2R (Zpos p) (e + 1) + F2R 1 e)%R).
    { rewrite F2R_succ_e. unfold F2R. rewrite Pos2Z.inj_xI, plus_IZR, mult_IZR. ring. }
    assert (E2 : F2R (Zpos p~1 + 1) e = F2R (Zpos p + 1) (e + 1)).
    { rewrite F2R_succ_e. unfold F2R. rewrite Pos2Z.inj_xI, !plus_IZR, mult_IZR. ring. }
    assert (H1 : (0 < F2R 1 e)%R) by (unfold F2R; pose proof (bpow_gt_0 e); lra).
    assert (H2 : F2R 1 e = bpow e) by (unfold F2R; lra).
    destruct r, s; cbn [loc_of_shr_record located orb] in *;
      rewrite ?F2R_plus1 in *; lra.
  - (* 2p *)
    split; [|symmetry; apply (proj1 (Hdiv p))].
    assert (E1 : F2R (Zpos p~0) e = F2R (Zpos p) (e + 1)).
    { rewrite F2R_succ_e. unfold F2R. rewrite Pos2Z.inj_xO, mult_IZR. ring. }
    assert (E2 : (F2R (Zpos p~0 + 1) e < F2R (Zpos p + 1) (e + 1))%R).
    { rewrite F2R_succ_e. unfold F2R. rewrite Pos2Z.inj_xO, !plus_IZR, mult_IZR.
      pose proof (bpow_gt_0 e). lra. }
    pose proof (bpow_gt_0 e) as H1.
    destruct r, s; cbn [loc_of_shr_record located orb] in *;
      rewrite ?F2R_plus1 in *; lra.
  - (* 1 *)
    split; [|reflexivity].
    assert (E1 : F2R 0 (e + 1) = 0%R) by (unfold F2R; lra).
    assert (E2 : F2R (0 + 1) (e + 1) = F2R (1 + 1) e).
    { rewrite F2R_succ_e. unfold F2R. replace (0 + 1) with 1 by lia.
      replace (1 + 1) with 2 by lia. lra. }
    assert (H1 : (0 < F2R 1 e)%R) by (unfold F2R; pose proof (bpow_gt_0 e); lra).
    assert (H2 : F2R 1 e = bpow e) by (unfold F2R; lra).
    destruct r, s; cbn [loc_of_shr_record located orb] in *;
      rewrite ?F2R_plus1 in *; lra.
Qed.

Lemma iter_shr_1_located x : forall p mrs e,
  0 <= shr_m mrs ->
  located x (shr_m mrs) e (loc_of_shr_record mrs) ->
  located x (shr_m (SpecFloat.iter_pos shr_1 p mrs)) (e + Zpos p)
          (loc_of_shr_record (SpecFloat.iter_pos shr_1 p mrs)) /\
  shr_m (SpecFloat.iter_pos shr_1 p mrs) = shr_m mrs / 2 ^ Zpos p.
Proof.
  assert (Hnn : forall m k, 0 <= m -> 0 <= m / 2 ^ Zpos k).
  { intros. apply Z.div_pos; [assumption|apply Z.pow_pos_nonneg; lia]. }
  induction p as [p IH|p IH|]; intros mrs e Hm Hloc; cbn [SpecFloat.iter_pos].
  - destruct (shr_1_located x mrs e Hm Hloc) as [L1 E1].
    destruct (IH (shr_1 mrs) (e + 1)) as [L2 E2]; [rewrite E1; apply Z.div_pos; lia|exact L1|].
    destruct (IH (SpecFloat.iter_pos shr_1 p (shr_1 mrs)) (e + 1 + Zpos p)) as [L3 E3];
      [rewrite E2; apply Hnn; rewrite E1; apply Z.div_pos; lia|exact L2|].
    split.
    + replace (e + Zpos p~1) with (e + 1 + Zpos p + Zpos p) by lia. exact L3.
    + rewrite E3, E2, E1. rewrite !Z.div_div by
        (try lia; apply Z.pow_pos_nonneg; lia).
      f_equal.
      replace (Zpos p~1) with (1 + Zpos p + Zpos p) by lia.
      rewrite !Z.pow_add_r by lia. ring.
  - destruct (IH mrs e Hm Hloc) as [L2 E2].
    destruct (IH (SpecFloat.iter_pos shr_1 p mrs) (e + Zpos p)) as [L3 E3];
      [rewrite E2; apply Hnn; exact Hm|exact L2|].
    split.
    + replace (e + Zpos p~0) with (e + Zpos p + Zpos p) by lia. exact L3.
    + rewrite E3, E2. rewrite !Z.div_div by
        (try lia; apply Z.pow_pos_nonneg; lia).
      f_equal.
      replace (Zpos p~0) with (Zpos p + Zpos p) by lia.
      rewrite !Z.pow_add_r by lia. ring.
  - destruct (shr_1_located x mrs e Hm Hloc) as [L1 E1].
    split; [exact L1|]. rewrite E1. reflexivity.
Qed.

(** [shr_fexp] moves the exponent up to [fexp] and keeps the location. *)
Lemma shr_fexp_located x m e l :
  0 <= m -> located x m e l ->
  let '(mrs, e') := shr_fexp prec emax m e l in
  e' = Z.max e (fexp prec emax (Zdigits2 m + e)) /\
  shr_m mrs = m / 2 ^ (e' - e) /\
  located x (shr_m mrs) e' (loc_of_shr_record mrs).
Proof.
  intros Hm Hloc. unfold shr_fexp, shr.
  destruct (loc_of_record_of_loc m l) as [El Em].
  destruct (fexp prec emax (Zdigits2 m + e) - e) as [|p|p] eqn:En.
  - split; [lia|]. rewrite Em, El. split; [|exact Hloc].
    rewrite Z.sub_diag. cbn. symmetry. apply Z.div_1_r.
  - destruct (iter_shr_1_located x p (shr_record_of_loc m l) e) as [L E].
    + rewrite Em. exact Hm.
    + rewrite Em, El. exact Hloc.
    + split; [lia|]. split; [|exact L].
      rewrite E, Em. f_equal. f_equal. lia.
  - split; [lia|]. rewrite Em, El. split; [|exact Hloc].
    rewrite Z.sub_diag. cbn. symmetry. apply Z.div_1_r.
Qed.

Lemma round_nearest_even_cases m l :
  round_nearest_even m l = m \/
  (round_nearest_even m l = m + 1 /\ l <> loc_Exact).
Proof.
  destruct l as [|[]]; cbn [round_nearest_even].
  - left. reflexivity.
  - destruct (Z.even m); [left; reflexivity|].
    right. split; [reflexivity|discriminate].
  - left. reflexivity.
  - right. split; [reflexivity|discriminate].
Qed.


Lemma bounded_spec m e :
  SpecFloat.bounded prec emax m e = true <->
  fexp prec emax (Zpos (digits2_pos m) + e) = e /\ e <= 971.
Proof.
  unfold SpecFloat.bounded, canonical_mantissa.
  rewrite andb_true_iff, Z.eqb_eq, Z.leb_le. reflexivity.
Qed.

(** A canonical mantissa has at most 53 digits, and exactly 53 above the
    smallest exponent. *)
Lemma canonical_digits m e :
  0 < m -> fexp prec emax (Zdigits2 m + e) = e ->
  -1074 <= e /\ m < 2 ^ 53 /\ (-1074 < e -> 2 ^ 52 <= m).
Proof.
  intros Hm Hc. rewrite fexp_spec in Hc.
  pose proof (Zdigits2_bounds m Hm) as [H1 H2].
  pose proof (Zdigits2_pos m Hm).
  split; [lia|]. split.
  - assert (2 ^ Zdigits2 m <= 2 ^ 53) by (apply Z.pow_le_mono_r; lia). lia.
  - intros He. assert (Zdigits2 m = 53) by lia.
    replace 52 with (Zdigits2 m - 1) by lia. exact H1.
Qed.

(** The first shift of [binary_round_aux]. *)
Lemma shr_fexp_first x mx ex lx :
  0 <= mx -> located x mx ex lx ->
  ex <= fexp prec emax (Zdigits2 mx + ex) ->
  let '(mrs, e') := shr_fexp prec emax mx ex lx in
  e' = fexp prec emax (Zdigits2 mx + ex) /\
  0 <= shr_m mrs < 2 ^ 53 /\
  (-1074 < e' -> 2 ^ 52 <= shr_m mrs) /\
  located x (shr_m mrs) e' (loc_of_shr_record mrs).
Proof.
  intros Hmx Hloc Hshift.
  pose proof (shr_fexp_located x mx ex lx Hmx Hloc) as H.
  destruct (shr_fexp prec emax mx ex lx) as [mrs e'].
  destruct H as (He' & Hm & Hl).
  assert (Ee : e' = fexp prec emax (Zdigits2 mx + ex)) by lia.
  split; [exact Ee|]. split; [|split; [|exact Hl]].
  - rewrite Hm.
    assert (0 < 2 ^ (e' - ex)) by (apply Z.pow_pos_nonneg; lia).
    split; [apply Z.div_pos; lia|].
    destruct (Z.eq_dec mx 0) as [->|Hne]; [now rewrite Z.div_0_l by lia|].
    pose proof (Zdigits2_bounds mx ltac:(lia)) as [H1 H2].
    apply Z.div_lt_upper_bound; [lia|].
    rewrite <- Z.pow_add_r by lia.
    rewrite fexp_spec in Ee.
    assert (2 ^ Zdigits2 mx <= 2 ^ (e' - ex + 53))
      by (apply Z.pow_le_mono_r; lia).
    lia.
  - intros Hbig. rewrite Hm. rewrite fexp_spec in Ee.
    destruct (Z.eq_dec mx 0) as [->|Hne].
    { cbn [Zdigits2] in Ee. lia. }
    pose proof (Zdigits2_bounds mx ltac:(lia)) as [H1 H2].
    assert (E2 : e' - ex = Zdigits2 mx - 53) by lia.
    rewrite E2.
    apply Z.div_le_lower_bound; [apply Z.pow_pos_nonneg; lia|].
    rewrite <- Z.pow_add_r by lia.
    replace (Zdigits2 mx - 53 + 52) with (Zdigits2 mx - 1) by lia. exact H1.
Qed.

(** The second shift renormalises a mantissa of at most [2^53]. *)
Lemma shr_fexp_second M e' :
  0 <= M <= 2 ^ 53 -> -1074 <= e' -> (-1074 < e' -> 2 ^ 52 <= M) ->
  let '(mrs, e'') := shr_fexp prec emax M e' loc_Exact in
  0 <= shr_m mrs /\
  (M = 0 -> shr_m mrs = 0) /\
  (0 < M -> 0 < shr_m mrs /\
            fexp prec emax (Zdigits2 (shr_m mrs) + e'') = e'') /\
  F2R (shr_m mrs) e'' = F2R M e'.
Proof.
  intros HM He' Hbig.
  pose proof (shr_fexp_located (F2R M e') M e' loc_Exact ltac:(lia) eq_refl)
    as H.
  destruct (shr_fexp prec emax M e' loc_Exact) as [mrs e''].
  destruct H as (Ee & Hm & Hl).
  rewrite fexp_spec in Ee.
  destruct (Z.eq_dec M 0) as [->|Hne].
  { rewrite Z.div_0_l in Hm
      by (apply Z.pow_nonzero; lia).
    rewrite Hm. repeat split; try lia. unfold F2R. lra. }
  pose proof (Zdigits2_bounds M ltac:(lia)) as [H1 H2].
  pose proof (Zdigits2_pos M ltac:(lia)) as Hd.
  destruct (Z.eq_dec M (2 ^ 53)) as [E53|N53].
  - assert (Hd54 : Zdigits2 M = 54).
    { apply Zdigits2_unique; [lia|]. rewrite E53. cbn. lia. }
    assert (Ee2 : e'' = e' + 1) by lia.
    assert (Em : shr_m mrs = 2 ^ 52).
    { rewrite Hm, Ee2, E53. replace (e' + 1 - e') with 1 by lia. reflexivity. }
    rewrite Em. repeat split; try lia.
    + rewrite fexp_spec.
      replace (Zdigits2 (2 ^ 52)) with 53 by reflexivity. lia.
    + rewrite Ee2, F2R_succ_e, E53. unfold F2R.
      replace (2 ^ 53) with (2 * 2 ^ 52) by reflexivity.
      rewrite mult_IZR. ring.
  - assert (Hd53 : Zdigits2 M <= 53).
    { destruct (Z_lt_le_dec 53 (Zdigits2 M)) as [Hgt|]; [|assumption].
      assert (2 ^ 53 <= 2 ^ (Zdigits2 M - 1))
        by (apply Z.pow_le_mono_r; lia). lia. }
    assert (Ee2 : e'' = e') by lia.
    assert (Em : shr_m mrs = M).
    { rewrite Hm, Ee2, Z.sub_diag. apply Z.div_1_r. }
    rewrite Em, Ee2. repeat split; try lia.
    rewrite fexp_spec.
    destruct (Z_le_gt_dec e' (-1074)); [lia|].
    assert (2 ^ 52 <= M) by (apply Hbig; lia).
    assert (53 <= Zdigits2 M).
    { destruct (Z_lt_le_dec (Zdigits2 M) 53) as [Hlt|]; [|assumption].
      assert (2 ^ Zdigits2 M <= 2 ^ 52) by (apply Z.pow_le_mono_r; lia).
      lia. }
    lia.
Qed.


(** A canonical number strictly between two neighbours of a grid at least
    as fine as its own does not exist: next to [m * 2^e], with [m] a full
    mantissa when [e] is above the smallest exponent, the canonical numbers
    are on the grid [2^e]. *)
Lemma canonical_on_grid m e mb eb :
  0 <= m -> -1074 <= e -> (-1074 < e -> 2 ^ 52 <= m) ->
  SpecFloat.bounded prec emax mb eb = true ->
  (F2R m e < F2R (Zpos mb) eb)%R ->
  (F2R (m + 1) e <= F2R (Zpos mb) eb)%R.
Proof.
  intros Hm He Hbig Hb Hlt.
  apply bounded_spec in Hb. destruct Hb as [Hc Hle].
  destruct (canonical_digits (Zpos mb) eb ltac:(lia) Hc) as (Heb & Hmb & _).
  destruct (Z_le_gt_dec e eb) as [Hee|Hee].
  - rewrite <- (F2R_shift (Zpos mb) eb (eb - e)) in Hlt |- * by lia.
    replace (eb - (eb - e)) with e in Hlt |- * by lia.
    apply F2R_lt_inv in Hlt. apply F2R_le. lia.
  - exfalso.
    assert (H52 : 2 ^ 52 <= m) by (apply Hbig; lia).
    assert (H1 : (F2R (Zpos mb) eb < F2R (2 ^ 53) eb)%R).
    { unfold F2R. pose proof (bpow_gt_0 eb). apply IZR_lt in Hmb. nra. }
    assert (H2 : (F2R (2 ^ 53) eb <= F2R (2 ^ 52) e)%R).
    { rewrite <- (F2R_shift (2 ^ 52) e (e - eb)) by lia.
      replace (e - (e - eb)) with eb by lia. apply F2R_le.
      replace (2 ^ 53) with (2 ^ 52 * 2 ^ 1) by reflexivity.
      apply Z.mul_le_mono_nonneg_l; [lia|].
      apply Z.pow_le_mono_r; lia. }
    assert (H3 : (F2R (2 ^ 52) e <= F2R m e)%R) by (apply F2R_le; lia).
    lra.
Qed.

Lemma canonical_below_grid m e mb eb :
  0 <= m -> -1074 <= e -> (-1074 < e -> 2 ^ 52 <= m) ->
  SpecFloat.bounded prec emax mb eb = true ->
  (F2R (Zpos mb) eb < F2R (m + 1) e)%R ->
  (F2R (Zpos mb) eb <= F2R m e)%R.
Proof.
  intros Hm He Hbig Hb Hlt.
  apply bounded_spec in Hb. destruct Hb as [Hc Hle].
  destruct (canonical_digits (Zpos mb) eb ltac:(lia) Hc) as (Heb & Hmb & _).
  destruct (Z_le_gt_dec e eb) as [Hee|Hee].
  - rewrite <- (F2R_shift (Zpos mb) eb (eb - e)) in Hlt |- * by lia.
    replace (eb - (eb - e)) with e in Hlt |- * by lia.
    apply F2R_lt_inv in Hlt. apply F2R_le. lia.
  - assert (H52 : 2 ^ 52 <= m) by (apply Hbig; lia).
    assert (H1 : (F2R (Zpos mb) eb < F2R (2 ^ 53) eb)%R).
    { unfold F2R. pose proof (bpow_gt_0 eb). apply IZR_lt in Hmb. nra. }
    assert (H2 : (F2R (2 ^ 53) eb <= F2R (2 ^ 52) e)%R).
    { rewrite <- (F2R_shift (2 ^ 52) e (e - eb)) by lia.
      replace (e - (e - eb)) with eb by lia. apply F2R_le.
      replace (2 ^ 53) with (2 ^ 52 * 2 ^ 1) by reflexivity.
      apply Z.mul_le_mono_nonneg_l; [lia|].
      apply Z.pow_le_mono_r; lia. }
    assert (H3 : (F2R (2 ^ 52) e <= F2R m e)%R) by (apply F2R_le; lia).
    lra.
Qed.

(** What [binary_round_aux] returns for a number [x >= 0] located by
    [(mx, ex, lx)]: a valid number of the sign asked for, on the same side
    as [x] of every canonical number. *)
Theorem binary_round_aux_spec (sx : bool) (mx ex : Z) (lx : location) (x : R) :
  0 <= mx -> located x mx ex lx ->
  ex <= fexp prec emax (Zdigits2 mx + ex) ->
  valid_binary (binary_round_aux prec emax sx mx ex lx) = true /\
  (binary_round_aux prec emax sx mx ex lx = S754_zero sx \/
   binary_round_aux prec emax sx mx ex lx = S754_infinity sx \/
   exists m e, binary_round_aux prec emax sx mx ex lx = S754_finite sx m e) /\
  (forall mb eb, SpecFloat.bounded prec emax mb eb = true ->
     (x <= F2R (Zpos mb) eb)%R ->
     binary_round_aux prec emax sx mx ex lx = S754_zero sx \/
     exists m e, binary_round_aux prec emax sx mx ex lx = S754_finite sx m e /\
                 (F2R (Zpos m) e <= F2R (Zpos mb) eb)%R) /\
  (forall mb eb, SpecFloat.bounded prec emax mb eb = true ->
     (F2R (Zpos mb) eb <= x)%R ->
     binary_round_aux prec emax sx mx ex lx = S754_infinity sx \/
     exists m e, binary_round_aux prec emax sx mx ex lx = S754_finite sx m e /\
                 (F2R (Zpos mb) eb <= F2R (Zpos m) e)%R).
Proof.
  intros Hmx Hloc Hshift. unfold binary_round_aux.
  pose proof (shr_fexp_first x mx ex lx Hmx Hloc Hshift) as H1.
  destruct (shr_fexp prec emax mx ex lx) as [mrs' e'].
  destruct H1 as (Ee' & Hm' & Hbig' & Hl').
  set (m' := shr_m mrs') in *. set (l' := loc_of_shr_record mrs') in *.
  assert (He' : -1074 <= e') by (rewrite Ee', fexp_spec; lia).
  set (M := round_nearest_even m' l').
  assert (HM : (M = m' \/ (M = m' + 1 /\ l' <> loc_Exact)))
    by apply round_nearest_even_cases.
  assert (HM1 : 0 <= M <= 2 ^ 53) by lia.
  assert (HM2 : -1074 < e' -> 2 ^ 52 <= M) by (intros; specialize (Hbig' H); lia).
  pose proof (shr_fexp_second M e' HM1 He' HM2) as H2.
  destruct (shr_fexp prec emax M e' loc_Exact) as [mrs'' e''].
  destruct H2 as (Hnn & Hz & Hpos & Hval).
  set (M'' := shr_m mrs'') in *.
  (* where x stands with respect to [F2R M e'] *)
  assert (Hup : forall mb eb, SpecFloat.bounded prec emax mb eb = true ->
            (x <= F2R (Zpos mb) eb)%R -> (F2R M e' <= F2R (Zpos mb) eb)%R).
  { intros mb eb Hb Hx. destruct HM as [->|[-> Hne]].
    - destruct l'; cbn [located] in Hl'; lra.
    - apply canonical_on_grid; try assumption; [lia|].
      destruct l'; [congruence|]. cbn [located] in Hl'. lra. }
  assert (Hlow : forall mb eb, SpecFloat.bounded prec emax mb eb = true ->
            (F2R (Zpos mb) eb <= x)%R -> (F2R (Zpos mb) eb <= F2R M e')%R).
  { intros mb eb Hb Hx.
    assert (Hle : (F2R m' e' <= F2R M e')%R) by (apply F2R_le; lia).
    destruct l' eqn:El'; cbn [located] in Hl'.
    - destruct HM as [->|[_ Hne]]; [lra|congruence].
    - assert ((F2R (Zpos mb) eb <= F2R m' e')%R); [|lra].
      apply canonical_below_grid; try assumption; [lia|lra]. }
  destruct M'' as [|p|p] eqn:EM''; [| |lia].
  - (* zero *)
    split; [reflexivity|]. split; [left; reflexivity|]. split.
    + intros; left; reflexivity.
    + intros mb eb Hb Hx. exfalso. specialize (Hlow mb eb Hb Hx).
      rewrite <- Hval in Hlow. unfold F2R in Hlow.
      pose proof (bpow_gt_0 eb). pose proof (Pos2Z.is_pos mb) as Hp.
      apply IZR_lt in Hp. nra.
  - assert (HMpos : 0 < M).
    { destruct (Z.eq_dec M 0) as [E0|]; [|lia]. specialize (Hz E0). lia. }
    destruct (Hpos HMpos) as [_ Hcanon].
    change (Z.sub emax prec) with 971.
    destruct (Z.leb_spec e'' 971) as [Hle|Hgt].
    + split.
      { cbn [valid_binary]. apply bounded_spec. split; [exact Hcanon|exact Hle]. }
      split; [right; right; eauto|]. split.
      * intros mb eb Hb Hx. right. exists p, e''. split; [reflexivity|].
        rewrite Hval. apply Hup; assumption.
      * intros mb eb Hb Hx. right. exists p, e''. split; [reflexivity|].
        rewrite Hval. apply Hlow; assumption.
    + split; [reflexivity|]. split; [right; left; reflexivity|]. split.
      * intros mb eb Hb Hx. exfalso. specialize (Hup mb eb Hb Hx).
        rewrite <- Hval in Hup.
        destruct (canonical_digits (Zpos p) e'' ltac:(lia) Hcanon)
          as (_ & _ & H52).
        specialize (H52 ltac:(lia)).
        apply bounded_spec in Hb. destruct Hb as [Hc Hle].
        destruct (canonical_digits (Zpos mb) eb ltac:(lia) Hc) as (Heb & Hmb & _).
        assert (H1 : (F2R (Zpos mb) eb < F2R (2 ^ 53) eb)%R).
        { unfold F2R. pose proof (bpow_gt_0 eb). apply IZR_lt in Hmb. nra. }
        assert (H2 : (F2R (2 ^ 53) eb <= F2R (2 ^ 52) e'')%R).
        { rewrite <- (F2R_shift (2 ^ 52) e'' (e'' - eb)) by lia.
          replace (e'' - (e'' - eb)) with eb by lia. apply F2R_le.
          replace (2 ^ 53) with (2 ^ 52 * 2 ^ 1) by reflexivity.
          apply Z.mul_le_mono_nonneg_l; [lia|].
          apply Z.pow_le_mono_r; lia. }
        assert (H3 : (F2R (2 ^ 52) e'' <= F2R (Zpos p) e'')%R)
          by (apply F2R_le; lia).
        lra.
      * intros; left; reflexivity.
Qed.


Lemma located_zero m e l : 0 <= m -> located 0 m e l -> m = 0 /\ l = loc_Exact.
Proof.
  intros Hm Hl. pose proof (bpow_gt_0 e) as Hb.
  assert (H0 : (0 <= F2R m e)%R).
  { unfold F2R. apply IZR_le in Hm. nra. }
  destruct l; cbn [located] in Hl.
  - split; [|reflexivity]. unfold F2R in Hl.
    assert (E : IZR m = 0%R) by nra. now apply eq_IZR in E.
  - lra.
Qed.

Lemma binary_round_aux_zero (sx : bool) (mx ex : Z) (lx : location) :
  0 <= mx -> located 0 mx ex lx ->
  ex <= fexp prec emax (Zdigits2 mx + ex) ->
  binary_round_aux prec emax sx mx ex lx = S754_zero sx.
Proof.
  intros Hmx Hloc Hshift. unfold binary_round_aux.
  pose proof (shr_fexp_first 0 mx ex lx Hmx Hloc Hshift) as H1.
  destruct (shr_fexp prec emax mx ex lx) as [mrs' e'].
  destruct H1 as (Ee' & Hm' & Hbig' & Hl').
  destruct (located_zero _ _ _ (proj1 Hm') Hl') as [E0 El].
  rewrite E0, El. cbn [round_nearest_even].
  assert (He' : -1074 <= e') by (rewrite Ee', fexp_spec; lia).
  assert (HM2 : -1074 < e' -> 2 ^ 52 <= 0) by (intros H; specialize (Hbig' H); lia).
  pose proof (shr_fexp_second 0 e' ltac:(lia) He' HM2) as H2.
  destruct (shr_fexp prec emax 0 e' loc_Exact) as [mrs'' e''].
  destruct H2 as (_ & Hz & _). rewrite (Hz eq_refl). reflexivity.
Qed.

(** ** The real number a binary64 value denotes *)



Lemma F2R_pos_gt_0 m e : (0 < F2R (Zpos m) e)%R.
Proof.
  unfold F2R. pose proof (bpow_gt_0 e). pose proof (Pos2Z.is_pos m) as Hp.
  apply IZR_lt in Hp. nra.
Qed.

Lemma F2R_opp m e : F2R (- m) e = (- F2R m e)%R.
Proof. unfold F2R. rewrite opp_IZR. ring. Qed.

Lemma SF2R_finite s m e :
  SF2R (S754_finite s m e) = if s then (- F2R (Zpos m) e)%R else F2R (Zpos m) e.
Proof. destruct s; cbn [SF2R cond_Zopp]; [apply F2R_opp|reflexivity]. Qed.

(** Rounding is monotone and keeps the numbers of the format: the result
    for [x], with the sign [s], lies between any two finite numbers of the
    format that [x] lies between. *)
Theorem binary_round_aux_between
  (s : bool) (mx ex : Z) (lx : location) (x : R) (lo hi : spec_float) :
  0 <= mx -> located x mx ex lx ->
  ex <= fexp prec emax (Zdigits2 mx + ex) ->
  finite_SF lo -> valid_binary lo = true ->
  finite_SF hi -> valid_binary hi = true ->
  (SF2R lo <= (if s then - x else x) <= SF2R hi)%R ->
  valid_binary (binary_round_aux prec emax s mx ex lx) = true /\
  finite_SF (binary_round_aux prec emax s mx ex lx) /\
  (SF2R lo <= SF2R (binary_round_aux prec emax s mx ex lx) <= SF2R hi)%R /\
  (binary_round_aux prec emax s mx ex lx = S754_zero s \/
   exists m e, binary_round_aux prec emax s mx ex lx = S754_finite s m e).
Proof.
  intros Hmx Hloc Hshift Flo Vlo Fhi Vhi Hx.
  destruct (binary_round_aux_spec s mx ex lx x Hmx Hloc Hshift)
    as (Hv & Hshape & Hup & Hlow).
  pose proof (fun H => binary_round_aux_zero s mx ex lx Hmx H Hshift) as Hzero.
  assert (Hx0 : (0 <= x)%R).
  { pose proof (bpow_gt_0 ex) as Hb.
    assert (H0 : (0 <= F2R mx ex)%R) by (unfold F2R; apply IZR_le in Hmx; nra).
    destruct lx; cbn [located] in Hloc; lra. }
  set (z := binary_round_aux prec emax s mx ex lx) in *.
  (* the magnitude of a bound of the same sign as the result *)
  destruct s.
  - (* negative results: [x <= - lo] *)
    assert (Hz : z = S754_zero true \/
                 exists m e, z = S754_finite true m e /\
                             (SF2R lo <= - F2R (Zpos m) e)%R).
    { destruct lo as [sl| | |sl ml el]; try contradiction.
      - cbn [SF2R] in Hx. left. apply Hzero. replace x with 0%R in Hloc by lra. exact Hloc.
      - rewrite SF2R_finite in Hx. destruct sl.
        + destruct (Hup ml el Vlo ltac:(lra)) as [E|(m & e & E & Hle)];
            [left; exact E|right].
          exists m, e. split; [exact E|]. rewrite SF2R_finite. lra.
        + pose proof (F2R_pos_gt_0 ml el). lra. }
    assert (Hhi : forall m e, z = S754_finite true m e ->
                    (- F2R (Zpos m) e <= SF2R hi)%R).
    { intros m e E.
      destruct hi as [sh| | |sh mh eh]; try contradiction.
      - cbn [SF2R] in Hx |- *. pose proof (F2R_pos_gt_0 m e). lra.
      - rewrite SF2R_finite in Hx |- *. destruct sh.
        + destruct (Hlow mh eh Vhi ltac:(lra)) as [E'|(m' & e' & E' & Hle)].
          * destruct Hz as [Hz|(m1 & e1 & Hz & _)]; congruence.
          * rewrite E in E'. injection E' as -> ->. lra.
        + pose proof (F2R_pos_gt_0 m e). pose proof (F2R_pos_gt_0 mh eh). lra. }
    split; [exact Hv|].
    destruct Hz as [Hz|(m & e & Hz & Hle)]; rewrite Hz in *.
    + split; [exact I|]. cbn [SF2R]. split; [|left; reflexivity].
      split.
      * destruct lo as [sl| | |sl ml el]; try contradiction;
          [cbn [SF2R]; lra|].
        rewrite SF2R_finite in Hx |- *.
        pose proof (F2R_pos_gt_0 ml el). destruct sl; lra.
      * destruct hi as [sh| | |sh mh eh]; try contradiction;
          [cbn [SF2R]; lra|].
        rewrite SF2R_finite in Hx |- *.
        pose proof (F2R_pos_gt_0 mh eh). destruct sh; [|lra].
        destruct (Hlow mh eh Vhi ltac:(lra)) as [E'|(m' & e' & E' & _)];
          congruence.
    + split; [exact I|]. rewrite SF2R_finite.
      split; [|right; eauto].
      split; [exact Hle|apply Hhi; reflexivity].
  - (* positive results *)
    assert (Hz : z = S754_zero false \/
                 exists m e, z = S754_finite false m e /\
                             (F2R (Zpos m) e <= SF2R hi)%R).
    { destruct hi as [sh| | |sh mh eh]; try contradiction.
      - cbn [SF2R] in Hx. left. apply Hzero. replace x with 0%R in Hloc by lra. exact Hloc.
      - rewrite SF2R_finite in Hx. destruct sh.
        + pose proof (F2R_pos_gt_0 mh eh). lra.
        + destruct (Hup mh eh Vhi ltac:(lra)) as [E|(m & e & E & Hle)];
            [left; exact E|right].
          exists m, e. split; [exact E|]. rewrite SF2R_finite. lra. }
    assert (Hlo : forall m e, z = S754_finite false m e ->
                    (SF2R lo <= F2R (Zpos m) e)%R).
    { intros m e E.
      destruct lo as [sl| | |sl ml el]; try contradiction.
      - cbn [SF2R] in Hx |- *. pose proof (F2R_pos_gt_0 m e). lra.
      - rewrite SF2R_finite in Hx |- *. destruct sl.
        + pose proof (F2R_pos_gt_0 m e). pose proof (F2R_pos_gt_0 ml el). lra.
        + destruct (Hlow ml el Vlo ltac:(lra)) as [E'|(m' & e' & E' & Hle)].
          * destruct Hz as [Hz|(m1 & e1 & Hz & _)]; congruence.
          * rewrite E in E'. injection E' as -> ->. lra. }
    split; [exact Hv|].
    destruct Hz as [Hz|(m & e & Hz & Hle)]; rewrite Hz in *.
    + split; [exact I|]. cbn [SF2R]. split; [|left; reflexivity].
      split.
      * destruct lo as [sl| | |sl ml el]; try contradiction;
          [cbn [SF2R]; lra|].
        rewrite SF2R_finite in Hx |- *.
        pose proof (F2R_pos_gt_0 ml el). destruct sl; [lra|].
        destruct (Hlow ml el Vlo ltac:(lra)) as [E'|(m' & e' & E' & _)];
          congruence.
      * destruct hi as [sh| | |sh mh eh]; try contradiction;
          [cbn [SF2R]; lra|].
        rewrite SF2R_finite in Hx |- *.
        pose proof (F2R_pos_gt_0 mh eh). destruct sh; lra.
    + split; [exact I|]. rewrite SF2R_finite.
      split; [|right; eauto].
      split; [apply Hlo; reflexivity|exact Hle].
Qed.


(** ** [binary_round] and [binary_normalize] *)

Lemma Pos_iter_xO m d : Zpos (Pos.iter xO m d) = Zpos m * 2 ^ Zpos d.
Proof.
  induction d as [|d IH] using Pos.peano_ind.
  - cbn [Pos.iter]. rewrite Pos2Z.inj_xO. change (2 ^ 1) with 2. lia.
  - rewrite Pos.iter_succ, Pos2Z.inj_xO, IH, Pos2Z.inj_succ, Z.pow_succ_r by lia.
    ring.
Qed.

Lemma shl_align_spec mx ex ex' :
  Zpos (fst (shl_align mx ex ex'))
  = Zpos mx * 2 ^ (ex - snd (shl_align mx ex ex')) /\
  snd (shl_align mx ex ex') = Z.min ex ex'.
Proof.
  unfold shl_align. destruct (ex' - ex) as [|d|d] eqn:Ed; cbn [fst snd].
  - replace (ex - ex) with 0 by lia. split; [cbn; lia|lia].
  - replace (ex - ex) with 0 by lia. split; [cbn; lia|lia].
  - rewrite Pos_iter_xO. split; [|lia]. f_equal. f_equal. lia.
Qed.

Theorem binary_round_between
  (s : bool) (mx : positive) (ex : Z) (lo hi : spec_float) :
  finite_SF lo -> valid_binary lo = true ->
  finite_SF hi -> valid_binary hi = true ->
  (SF2R lo <= SF2R (S754_finite s mx ex) <= SF2R hi)%R ->
  valid_binary (binary_round prec emax s mx ex) = true /\
  finite_SF (binary_round prec emax s mx ex) /\
  (SF2R lo <= SF2R (binary_round prec emax s mx ex) <= SF2R hi)%R.
Proof.
  intros Flo Vlo Fhi Vhi Hx. unfold binary_round.
  pose proof (shl_align_spec mx ex (fexp prec emax (Zpos (digits2_pos mx) + ex)))
    as [Hm He].
  destruct (shl_align mx ex (fexp prec emax (Zpos (digits2_pos mx) + ex)))
    as [mz ez]. cbn [fst snd] in Hm, He.
  assert (Hval : F2R (Zpos mz) ez = F2R (Zpos mx) ex).
  { rewrite Hm. replace ez with (ex - (ex - ez)) at 2 by lia.
    apply F2R_shift. lia. }
  assert (Hd : Zdigits2 (Zpos mz) + ez = Zpos (digits2_pos mx) + ex).
  { rewrite Hm, Zdigits2_shiftl by lia. cbn [Zdigits2]. lia. }
  destruct (binary_round_aux_between s (Zpos mz) ez loc_Exact
              (F2R (Zpos mx) ex) lo hi) as (Hv & Hf & Hb & _);
    try assumption; try lia.
  - cbn [located]. symmetry. exact Hval.
  - rewrite Hd. lia.
  - rewrite SF2R_finite in Hx. destruct s; exact Hx.
  - auto.
Qed.

Theorem binary_normalize_between
  (m e : Z) (szero : bool) (lo hi : spec_float) :
  finite_SF lo -> valid_binary lo = true ->
  finite_SF hi -> valid_binary hi = true ->
  (SF2R lo <= F2R m e <= SF2R hi)%R ->
  valid_binary (binary_normalize prec emax m e szero) = true /\
  finite_SF (binary_normalize prec emax m e szero) /\
  (SF2R lo <= SF2R (binary_normalize prec emax m e szero) <= SF2R hi)%R.
Proof.
  intros Flo Vlo Fhi Vhi Hx. unfold binary_normalize.
  destruct m as [|p|p].
  - repeat split. all: cbn [SF2R]; unfold F2R in Hx; lra.
  - apply binary_round_between; assumption.
  - apply binary_round_between; assumption.
Qed.

(** ** The arithmetic operations on finite numbers *)

Lemma valid_finite s m e :
  valid_binary (S754_finite s m e) = true ->
  -1074 <= e <= 971 /\ Zpos m < 2 ^ 53 /\ (-1074 < e -> 2 ^ 52 <= Zpos m) /\
  fexp prec emax (Zpos (digits2_pos m) + e) = e.
Proof.
  cbn [valid_binary]. rewrite bounded_spec. intros [Hc Hle].
  destruct (canonical_digits (Zpos m) e ltac:(lia) Hc) as (H1 & H2 & H3).
  repeat split; try assumption; lia.
Qed.

Theorem SFmul_between (x y lo hi : spec_float) :
  finite_SF x -> valid_binary x = true ->
  finite_SF y -> valid_binary y = true ->
  finite_SF lo -> valid_binary lo = true ->
  finite_SF hi -> valid_binary hi = true ->
  (SF2R lo <= SF2R x * SF2R y <= SF2R hi)%R ->
  finite_SF (SFmul prec emax x y) /\
  (SF2R lo <= SF2R (SFmul prec emax x y) <= SF2R hi)%R.
Proof.
  intros Fx Vx Fy Vy Flo Vlo Fhi Vhi Hx.
  destruct x as [sx| | |sx mx ex], y as [sy| | |sy my ey]; try contradiction;
    cbn [SFmul].
  1-3: split; [exact I|]; cbn [SF2R] in Hx |- *; lra.
  destruct (valid_finite _ _ _ Vx) as (Hex & Hmx & Hbx & Hcx).
  destruct (valid_finite _ _ _ Vy) as (Hey & Hmy & Hby & Hcy).
  destruct (binary_round_aux_between (xorb sx sy) (Zpos (mx * my)) (ex + ey)
              loc_Exact (F2R (Zpos (mx * my)) (ex + ey)) lo hi)
    as (Hv & Hf & Hb & _); try assumption; try lia.
  - reflexivity.
  - rewrite fexp_spec.
    destruct (Z_le_gt_dec (ex + ey) (-1074)); [lia|].
    assert (Hbig : 2 ^ 52 <= Zpos mx \/ 2 ^ 52 <= Zpos my).
    { destruct (Z_le_gt_dec ex (-1074)); [right; apply Hby; lia|left; apply Hbx; lia]. }
    assert (H52 : 2 ^ 52 <= Zpos (mx * my)).
    { rewrite Pos2Z.inj_mul. destruct Hbig; nia. }
    assert (53 <= Zdigits2 (Zpos (mx * my))).
    { pose proof (Zdigits2_bounds (Zpos (mx * my)) ltac:(lia)) as [_ H2].
      destruct (Z_lt_le_dec (Zdigits2 (Zpos (mx * my))) 53) as [Hlt|]; [|assumption].
      assert (2 ^ Zdigits2 (Zpos (mx * my)) <= 2 ^ 52)
        by (apply Z.pow_le_mono_r; lia).
      lia. }
    lia.
  - rewrite !SF2R_finite in Hx.
    assert (E : F2R (Zpos (mx * my)) (ex + ey)
                = (F2R (Zpos mx) ex * F2R (Zpos my) ey)%R).
    { unfold F2R. rewrite Pos2Z.inj_mul, mult_IZR, bpow_add. ring. }
    rewrite E. destruct sx, sy; cbn [xorb]; lra.
  - auto.
Qed.


Lemma F2R_add a b e : F2R (a + b) e = (F2R a e + F2R b e)%R.
Proof. unfold F2R. rewrite plus_IZR. ring. Qed.

Lemma F2R_sub a b e : F2R (a - b) e = (F2R a e - F2R b e)%R.
Proof. unfold F2R. rewrite minus_IZR. ring. Qed.

Lemma F2R_cond_Zopp s m e :
  F2R (cond_Zopp s m) e = if s then (- F2R m e)%R else F2R m e.
Proof. destruct s; cbn [cond_Zopp]; [apply F2R_opp|reflexivity]. Qed.

Lemma shl_align_min mx ex ey :
  F2R (Zpos (fst (shl_align mx ex (Z.min ex ey)))) (Z.min ex ey)
  = F2R (Zpos mx) ex.
Proof.
  destruct (shl_align_spec mx ex (Z.min ex ey)) as [Hm He].
  rewrite Hm, He. replace (Z.min ex (Z.min ex ey)) with (Z.min ex ey) by lia.
  replace (Z.min ex ey) with (ex - (ex - Z.min ex ey)) at 2 by lia.
  apply F2R_shift. lia.
Qed.

Theorem SFadd_between (x y lo hi : spec_float) :
  finite_SF x -> valid_binary x = true ->
  finite_SF y -> valid_binary y = true ->
  finite_SF lo -> valid_binary lo = true ->
  finite_SF hi -> valid_binary hi = true ->
  (SF2R lo <= SF2R x + SF2R y <= SF2R hi)%R ->
  finite_SF (SFadd prec emax x y) /\
  (SF2R lo <= SF2R (SFadd prec emax x y) <= SF2R hi)%R.
Proof.
  intros Fx Vx Fy Vy Flo Vlo Fhi Vhi Hx.
  destruct x as [sx| | |sx mx ex], y as [sy| | |sy my ey]; try contradiction;
    cbn [SFadd].
  - destruct sx, sy; split; try exact I; cbn [SF2R] in Hx |- *; lra.
  - split; [exact I|]. cbn [SF2R] in Hx |- *. lra.
  - split; [exact I|]. cbn [SF2R] in Hx |- *. lra.
  - destruct (binary_normalize_between
                (cond_Zopp sx (Zpos (fst (shl_align mx ex (Z.min ex ey))))
                 + cond_Zopp sy (Zpos (fst (shl_align my ey (Z.min ex ey)))))
                (Z.min ex ey) false lo hi) as (_ & Hf & Hb); try assumption.
    + rewrite F2R_add, !F2R_cond_Zopp.
      rewrite shl_align_min.
      replace (Z.min ex ey) with (Z.min ey ex) by lia.
      rewrite shl_align_min.
      rewrite !SF2R_finite in Hx. exact Hx.
    + auto.
Qed.

Theorem SFsub_between (x y lo hi : spec_float) :
  finite_SF x -> valid_binary x = true ->
  finite_SF y -> valid_binary y = true ->
  finite_SF lo -> valid_binary lo = true ->
  finite_SF hi -> valid_binary hi = true ->
  (SF2R lo <= SF2R x - SF2R y <= SF2R hi)%R ->
  finite_SF (SFsub prec emax x y) /\
  (SF2R lo <= SF2R (SFsub prec emax x y) <= SF2R hi)%R.
Proof.
  intros Fx Vx Fy Vy Flo Vlo Fhi Vhi Hx.
  destruct x as [sx| | |sx mx ex], y as [sy| | |sy my ey]; try contradiction;
    cbn [SFsub].
  - destruct sx, sy; split; try exact I; cbn [SF2R] in Hx |- *; lra.
  - split; [exact I|]. rewrite !SF2R_finite in *. cbn [SF2R] in Hx.
    destruct sy; cbn [negb]; lra.
  - split; [exact I|]. cbn [SF2R] in Hx |- *. lra.
  - destruct (binary_normalize_between
                (cond_Zopp sx (Zpos (fst (shl_align mx ex (Z.min ex ey))))
                 - cond_Zopp sy (Zpos (fst (shl_align my ey (Z.min ex ey)))))
                (Z.min ex ey) false lo hi) as (_ & Hf & Hb); try assumption.
    + rewrite F2R_sub, !F2R_cond_Zopp.
      rewrite shl_align_min.
      replace (Z.min ex ey) with (Z.min ey ex) by lia.
      rewrite shl_align_min.
      rewrite !SF2R_finite in Hx. exact Hx.
    + auto.
Qed.


Lemma bpow_sub a b : bpow (a - b) = (bpow a / bpow b)%R.
Proof.
  pose proof (bpow_gt_0 b).
  replace a with ((a - b) + b) at 2 by lia. rewrite bpow_add.
  field. lra.
Qed.

Lemma new_location_exact n k :
  new_location n k = loc_Exact <-> k = 0.
Proof.
  unfold new_location, new_location_even, new_location_odd.
  destruct (Z.even n); destruct (Z.eqb_spec k 0); split; intros; try tauto;
    discriminate.
Qed.

(** The quotient that [SFdiv] rounds. *)
Lemma SFdiv_core_binary_spec (m1 : positive) (e1 : Z) (m2 : positive) (e2 : Z) :
  0 <= fst (fst (SFdiv_core_binary prec emax (Zpos m1) e1 (Zpos m2) e2)) /\
  located (F2R (Zpos m1) e1 / F2R (Zpos m2) e2)
    (fst (fst (SFdiv_core_binary prec emax (Zpos m1) e1 (Zpos m2) e2)))
    (snd (fst (SFdiv_core_binary prec emax (Zpos m1) e1 (Zpos m2) e2)))
    (snd (SFdiv_core_binary prec emax (Zpos m1) e1 (Zpos m2) e2)) /\
  snd (fst (SFdiv_core_binary prec emax (Zpos m1) e1 (Zpos m2) e2))
  <= fexp prec emax
       (Zdigits2 (fst (fst (SFdiv_core_binary prec emax (Zpos m1) e1 (Zpos m2) e2)))
        + snd (fst (SFdiv_core_binary prec emax (Zpos m1) e1 (Zpos m2) e2))).
Proof.
  unfold SFdiv_core_binary.
  set (d1 := Zdigits2 (Zpos m1)). set (d2 := Zdigits2 (Zpos m2)).
  set (e' := Z.min (fexp prec emax (d1 + e1 - (d2 + e2))) (e1 - e2)).
  set (s := e1 - e2 - e').
  assert (Hs : 0 <= s) by (unfold s, e'; lia).
  set (m' := match s with
             | 0 => Zpos m1 | Zpos _ => Z.shiftl (Zpos m1) s | Zneg _ => 0
             end).
  assert (Em' : m' = Zpos m1 * 2 ^ s).
  { unfold m'. destruct s as [|p|p] eqn:Es; [cbn; lia| |lia].
    apply Z.shiftl_mul_pow2. lia. }
  pose proof (Z_div_mod m' (Zpos m2) ltac:(lia)) as Hdm.
  destruct (Z.div_eucl m' (Zpos m2)) as [q r]. destruct Hdm as [Hq Hr].
  cbn [fst snd].
  assert (H2s : 0 < 2 ^ s) by (apply Z.pow_pos_nonneg; lia).
  assert (Hq0 : 0 <= q) by nia.
  split; [exact Hq0|].
  pose proof (bpow_gt_0 e') as Hbe. pose proof (bpow_gt_0 e2) as Hb2.
  pose proof (F2R_pos_gt_0 m2 e2) as Hy.
  assert (Hm2 : (0 < IZR (Zpos m2))%R) by (apply IZR_lt; lia).
  assert (Equot : (F2R (Zpos m1) e1 / F2R (Zpos m2) e2
                   = (IZR q + IZR r / IZR (Zpos m2)) * bpow e')%R).
  { unfold F2R.
    replace e1 with (s + e' + e2) by (unfold s; lia).
    rewrite !bpow_add.
    assert (E : (IZR (Zpos m1) * bpow s = IZR (Zpos m2) * IZR q + IZR r)%R).
    { rewrite bpow_IZR by lia. rewrite <- mult_IZR, <- Em', Hq.
      rewrite plus_IZR, mult_IZR. reflexivity. }
    field_simplify; try lra.
    replace (IZR (Zpos m1) * bpow s * bpow e')%R
      with ((IZR (Zpos m2) * IZR q + IZR r) * bpow e')%R by (rewrite <- E; ring).
    field. lra. }
  split.
  - rewrite Equot.
    destruct (new_location (Zpos m2) r) eqn:El.
    + apply new_location_exact in El. subst r. cbn [located]. unfold F2R.
      unfold Rdiv. rewrite Rmult_0_l. ring.
    + assert (Hr0 : r <> 0).
      { intros E0. apply (proj2 (new_location_exact (Zpos m2) r)) in E0.
        congruence. }
      cbn [located]. rewrite F2R_plus1. unfold F2R.
      assert (Hr1 : (0 < IZR r / IZR (Zpos m2) < 1)%R).
      { assert (0 < IZR r)%R by (apply IZR_lt; lia).
        assert (IZR r < IZR (Zpos m2))%R by (apply IZR_lt; lia).
        split.
        - apply Rdiv_lt_0_compat; assumption.
        - apply (Rmult_lt_reg_r (IZR (Zpos m2))); [assumption|].
          unfold Rdiv. rewrite Rmult_assoc, Rinv_l by lra. lra. }
      nra.
  - rewrite fexp_spec.
    destruct (Z_le_gt_dec e' (-1074)) as [Hle|Hgt]; [lia|].
    assert (Hf : d1 + e1 - (d2 + e2) - 53 >= e').
    { unfold e' in Hgt |- *. rewrite fexp_spec in *. lia. }
    pose proof (Zdigits2_bounds (Zpos m1) ltac:(lia)) as [A1 A2].
    pose proof (Zdigits2_bounds (Zpos m2) ltac:(lia)) as [B1 B2].
    fold d1 in A1, A2. fold d2 in B1, B2.
    pose proof (Zdigits2_pos (Zpos m1) ltac:(lia)) as Hd1. fold d1 in Hd1.
    pose proof (Zdigits2_pos (Zpos m2) ltac:(lia)) as Hd2. fold d2 in Hd2.
    set (k := d1 - 1 + s - d2).
    assert (Hk : 52 <= k) by (unfold k, s; lia).
    assert (Hqk : 2 ^ k <= q).
    { assert (Zpos m2 * 2 ^ k <= m').
      { rewrite Em'.
        assert (E : 2 ^ (d1 - 1) * 2 ^ s = 2 ^ k * 2 ^ d2).
        { rewrite <- !Z.pow_add_r by lia. f_equal. unfold k. lia. }
        assert (0 < 2 ^ k) by (apply Z.pow_pos_nonneg; lia).
        nia. }
      assert (0 < 2 ^ k) by (apply Z.pow_pos_nonneg; lia).
      nia. }
    assert (Hdq : k + 1 <= Zdigits2 q).
    { assert (0 < 2 ^ k) by (apply Z.pow_pos_nonneg; lia).
      pose proof (Zdigits2_bounds q ltac:(lia)) as [_ C2].
      destruct (Z_lt_le_dec (Zdigits2 q) (k + 1)) as [Hlt|]; [|assumption].
      assert (2 ^ Zdigits2 q <= 2 ^ k)
        by (apply Z.pow_le_mono_r; [lia|lia]). lia. }
    unfold k, s in Hdq. lia.
Qed.

Theorem SFdiv_between (x y lo hi : spec_float) :
  finite_SF x -> valid_binary x = true ->
  finite_SF y -> valid_binary y = true -> SF2R y <> 0%R ->
  finite_SF lo -> valid_binary lo = true ->
  finite_SF hi -> valid_binary hi = true ->
  (SF2R lo <= SF2R x / SF2R y <= SF2R hi)%R ->
  finite_SF (SFdiv prec emax x y) /\
  (SF2R lo <= SF2R (SFdiv prec emax x y) <= SF2R hi)%R.
Proof.
  intros Fx Vx Fy Vy Hy0 Flo Vlo Fhi Vhi Hx.
  destruct y as [sy| | |sy my ey]; try contradiction.
  destruct x as [sx| | |sx mx ex]; try contradiction; cbn [SFdiv].
  - split; [exact I|]. cbn [SF2R] in Hx |- *.
    unfold Rdiv in Hx. rewrite Rmult_0_l in Hx. exact Hx.
  - pose proof (SFdiv_core_binary_spec mx ex my ey) as (Hq & Hloc & Hshift).
    destruct (SFdiv_core_binary prec emax (Zpos mx) ex (Zpos my) ey)
      as [[mz ez] lz]. cbn [fst snd] in Hq, Hloc, Hshift.
    destruct (binary_round_aux_between (xorb sx sy) mz ez lz
                (F2R (Zpos mx) ex / F2R (Zpos my) ey) lo hi)
      as (_ & Hf & Hb & _); try assumption.
    + rewrite !SF2R_finite in Hx.
      pose proof (F2R_pos_gt_0 my ey).
      destruct sx, sy; cbn [xorb].
      * replace (- F2R (Zpos mx) ex / - F2R (Zpos my) ey)%R
          with (F2R (Zpos mx) ex / F2R (Zpos my) ey)%R in Hx
          by (field; lra). exact Hx.
      * replace (- F2R (Zpos mx) ex / F2R (Zpos my) ey)%R
          with (- (F2R (Zpos mx) ex / F2R (Zpos my) ey))%R in Hx
          by (field; lra). exact Hx.
      * replace (F2R (Zpos mx) ex / - F2R (Zpos my) ey)%R
          with (- (F2R (Zpos mx) ex / F2R (Zpos my) ey))%R in Hx
          by (field; lra). exact Hx.
      * exact Hx.
    + auto.
Qed.


(** ** Comparisons and the real order *)

Lemma F2R_lt_exp m1 e1 m2 e2 :
  0 <= m1 < 2 ^ 53 -> 2 ^ 52 <= m2 -> e1 < e2 ->
  (F2R m1 e1 < F2R m2 e2)%R.
Proof.
  intros Hm1 Hm2 He.
  assert (H1 : (F2R m1 e1 < F2R (2 ^ 53) e1)%R).
  { unfold F2R. pose proof (bpow_gt_0 e1).
    assert (IZR m1 < IZR (2 ^ 53))%R by (apply IZR_lt; lia). nra. }
  assert (H2 : (F2R (2 ^ 53) e1 <= F2R (2 ^ 52) e2)%R).
  { rewrite <- (F2R_shift (2 ^ 52) e2 (e2 - e1)) by lia.
    replace (e2 - (e2 - e1)) with e1 by lia. apply F2R_le.
    replace (2 ^ 53) with (2 ^ 52 * 2 ^ 1) by reflexivity.
    apply Z.mul_le_mono_nonneg_l; [lia|].
    apply Z.pow_le_mono_r; lia. }
  assert (H3 : (F2R (2 ^ 52) e2 <= F2R m2 e2)%R) by (apply F2R_le; lia).
  lra.
Qed.

Lemma canonical_compare s1 m1 e1 s2 m2 e2 :
  valid_binary (S754_finite s1 m1 e1) = true ->
  valid_binary (S754_finite s2 m2 e2) = true ->
  match
    match e1 ?= e2 with
    | Lt => Lt
    | Gt => Gt
    | Eq => Pos.compare_cont Eq m1 m2
    end
  with
  | Lt => (F2R (Zpos m1) e1 < F2R (Zpos m2) e2)%R
  | Eq => (F2R (Zpos m1) e1 = F2R (Zpos m2) e2)%R
  | Gt => (F2R (Zpos m2) e2 < F2R (Zpos m1) e1)%R
  end.
Proof.
  intros V1 V2.
  destruct (valid_finite _ _ _ V1) as (He1 & Hm1 & Hb1 & _).
  destruct (valid_finite _ _ _ V2) as (He2 & Hm2 & Hb2 & _).
  destruct (Z.compare_spec e1 e2) as [E|Hlt|Hgt].
  - subst e2. change (Pos.compare_cont Eq m1 m2) with (Pos.compare m1 m2).
    pose proof (bpow_gt_0 e1).
    destruct (Pos.compare_spec m1 m2) as [E|Hlt|Hgt].
    + now subst.
    + unfold F2R. assert (IZR (Zpos m1) < IZR (Zpos m2))%R by (apply IZR_lt; lia).
      nra.
    + unfold F2R. assert (IZR (Zpos m2) < IZR (Zpos m1))%R by (apply IZR_lt; lia).
      nra.
  - apply F2R_lt_exp; [lia|apply Hb2; lia|exact Hlt].
  - apply F2R_lt_exp; [lia|apply Hb1; lia|exact Hgt].
Qed.

Theorem SFcompare_value (x y : spec_float) :
  finite_SF x -> valid_binary x = true ->
  finite_SF y -> valid_binary y = true ->
  match SFcompare x y with
  | Some Lt => (SF2R x < SF2R y)%R
  | Some Eq => SF2R x = SF2R y
  | Some Gt => (SF2R y < SF2R x)%R
  | None => False
  end.
Proof.
  intros Fx Vx Fy Vy.
  destruct x as [sx| | |sx mx ex], y as [sy| | |sy my ey]; try contradiction;
    cbn [SFcompare].
  - reflexivity.
  - rewrite SF2R_finite. cbn [SF2R]. pose proof (F2R_pos_gt_0 my ey).
    destruct sy; lra.
  - rewrite SF2R_finite. cbn [SF2R]. pose proof (F2R_pos_gt_0 mx ex).
    destruct sx; lra.
  - rewrite !SF2R_finite.
    pose proof (F2R_pos_gt_0 mx ex). pose proof (F2R_pos_gt_0 my ey).
    pose proof (canonical_compare sx mx ex sy my ey Vx Vy) as Hc.
    destruct sx, sy; try lra.
    + destruct (ex ?= ey); [destruct (Pos.compare_cont Eq mx my)| |];
        cbn [CompOpp]; lra.
    + destruct (ex ?= ey); [destruct (Pos.compare_cont Eq mx my)| |]; lra.
Qed.

(** ** Primitive numbers *)



Lemma finite_not_nan x : finite x -> is_nan x = false.
Proof.
  unfold finite. intros H. destruct (is_nan x) eqn:E; [|reflexivity].
  unfold Prim2SF in H. rewrite E in H. contradiction.
Qed.

Lemma ltb_value x y :
  finite x -> finite y -> ((x <? y)%float = true <-> (value x < value y)%R).
Proof.
  intros Fx Fy. rewrite ltb_spec. unfold SFltb, value.
  pose proof (SFcompare_value _ _ Fx (Prim2SF_valid x) Fy (Prim2SF_valid y)) as H.
  destruct (SFcompare (Prim2SF x) (Prim2SF y)) as [[]|]; split; intros;
    try reflexivity; try discriminate; try lra; contradiction.
Qed.

Lemma leb_value x y :
  finite x -> finite y -> ((x <=? y)%float = true <-> (value x <= value y)%R).
Proof.
  intros Fx Fy. rewrite leb_spec. unfold SFleb, value.
  pose proof (SFcompare_value _ _ Fx (Prim2SF_valid x) Fy (Prim2SF_valid y)) as H.
  destruct (SFcompare (Prim2SF x) (Prim2SF y)) as [[]|]; split; intros;
    try reflexivity; try discriminate; try lra; contradiction.
Qed.

Lemma eqb_value x y :
  finite x -> finite y -> ((x =? y)%float = true <-> value x = value y).
Proof.
  intros Fx Fy. rewrite FloatAxioms.eqb_spec. unfold SFeqb, value.
  pose proof (SFcompare_value _ _ Fx (Prim2SF_valid x) Fy (Prim2SF_valid y)) as H.
  destruct (SFcompare (Prim2SF x) (Prim2SF y)) as [[]|]; split; intros;
    try reflexivity; try discriminate; try lra; contradiction.
Qed.

Lemma ltb_false_value x y :
  finite x -> finite y -> (x <? y)%float = false -> (value y <= value x)%R.
Proof.
  intros Fx Fy H. destruct (Rlt_le_dec (value x) (value y)) as [Hlt|]; [|assumption].
  apply (ltb_value x y Fx Fy) in Hlt. congruence.
Qed.

(** A number that compares with finite numbers on both sides is finite. *)
Lemma leb_finite lo x hi :
  finite lo -> finite hi ->
  (lo <=? x)%float = true -> (x <=? hi)%float = true -> finite x.
Proof.
  unfold finite. intros Flo Fhi H1 H2. rewrite leb_spec in H1, H2.
  unfold SFleb in H1, H2.
  destruct (Prim2SF x) as [s|s| |s m e]; try exact I.
  - destruct (Prim2SF lo) as [sl| | |sl ml el]; try contradiction;
      destruct (Prim2SF hi) as [sh| | |sh mh eh]; try contradiction;
      destruct s; cbn in H1, H2; try discriminate;
      try (destruct sl; discriminate); try (destruct sh; discriminate).
  - destruct (Prim2SF lo); cbn in H1; discriminate.
Qed.

Theorem mul_between (x y lo hi : float) :
  finite x -> finite y -> finite lo -> finite hi ->
  (value lo <= value x * value y <= value hi)%R ->
  finite (x * y) /\ (value lo <= value (x * y) <= value hi)%R.
Proof.
  intros Fx Fy Flo Fhi H. unfold finite, value in *. rewrite mul_spec.
  apply SFmul_between; try assumption; apply Prim2SF_valid.
Qed.

Theorem add_between (x y lo hi : float) :
  finite x -> finite y -> finite lo -> finite hi ->
  (value lo <= value x + value y <= value hi)%R ->
  finite (x + y) /\ (value lo <= value (x + y) <= value hi)%R.
Proof.
  intros Fx Fy Flo Fhi H. unfold finite, value in *. rewrite add_spec.
  apply SFadd_between; try assumption; apply Prim2SF_valid.
Qed.

Theorem sub_between (x y lo hi : float) :
  finite x -> finite y -> finite lo -> finite hi ->
  (value lo <= value x - value y <= value hi)%R ->
  finite (x - y) /\ (value lo <= value (x - y) <= value hi)%R.
Proof.
  intros Fx Fy Flo Fhi H. unfold finite, value in *. rewrite sub_spec.
  apply SFsub_between; try assumption; apply Prim2SF_valid.
Qed.

Theorem div_between (x y lo hi : float) :
  finite x -> finite y -> value y <> 0%R -> finite lo -> finite hi ->
  (value lo <= value x / value y <= value hi)%R ->
  finite (x / y) /\ (value lo <= value (x / y) <= value hi)%R.
Proof.
  intros Fx Fy Hy Flo Fhi H. unfold finite, value in *. rewrite div_spec.
  apply SFdiv_between; try assumption; apply Prim2SF_valid.
Qed.

Lemma F2R_int k n : 0 <= n -> F2R (k * 2 ^ n) (- n) = IZR k.
Proof.
  intros Hn. replace (- n) with (0 - n) by lia. rewrite F2R_shift by exact Hn.
  unfold F2R, bpow. cbn. ring.
Qed.

(** ** The operations of [hsbToRgb] on finite numbers *)

(** The value of a float constant that is a small integer. *)
Lemma value_const (c : float) (m : positive) (n : positive) (k : Z) :
  Prim2SF c = S754_finite false m (Zneg n) ->
  Zpos m = k * 2 ^ Zpos n ->
  finite c /\ value c = IZR k.
Proof.
  intros Hc Hm. unfold finite, value. rewrite Hc. split; [exact I|].
  cbn [SF2R cond_Zopp]. rewrite Hm.
  change (Zneg n) with (- Zpos n). apply F2R_int. lia.
Qed.

Lemma value_0 : finite 0 /\ value 0 = 0%R.
Proof. split; [exact I|reflexivity]. Qed.

Lemma value_1 : finite 1 /\ value 1 = 1%R.
Proof. eapply value_const with (n := 52%positive) (k := 1); vm_compute; reflexivity. Qed.

Lemma value_6 : finite 6 /\ value 6 = 6%R.
Proof. eapply value_const with (n := 50%positive) (k := 6); vm_compute; reflexivity. Qed.

Lemma value_60 : finite 60 /\ value 60 = 60%R.
Proof. eapply value_const with (n := 47%positive) (k := 60); vm_compute; reflexivity. Qed.

Lemma value_100 : finite 100 /\ value 100 = 100%R.
Proof. eapply value_const with (n := 46%positive) (k := 100); vm_compute; reflexivity. Qed.

Lemma value_255 : finite 255 /\ value 255 = 255%R.
Proof. eapply value_const with (n := 45%positive) (k := 255); vm_compute; reflexivity. Qed.

Lemma value_360 : finite 360 /\ value 360 = 360%R.
Proof. eapply value_const with (n := 44%positive) (k := 360); vm_compute; reflexivity. Qed.

Lemma value_720 : finite 720 /\ value 720 = 720%R.
Proof. eapply value_const with (n := 43%positive) (k := 720); vm_compute; reflexivity. Qed.

Lemma value_neg_360 : finite (-360) /\ value (-360) = (-360)%R.
Proof.
  split; [exact I|]. unfold value.
  change (Prim2SF (-360)) with (S754_finite true 6333186975989760 (-44)).
  rewrite SF2R_finite.
  change (Zpos 6333186975989760) with (360 * 2 ^ 44).
  change (-44) with (- 44). rewrite F2R_int by lia. reflexivity.
Qed.

(** A number built by [binary_normalize] from an exact value lying between
    two finite numbers. *)
Lemma normalize_between (m e : Z) (sz : bool) (lo hi : float) :
  finite lo -> finite hi ->
  (value lo <= F2R m e <= value hi)%R ->
  finite (SF2Prim (binary_normalize prec emax m e sz)) /\
  (value lo <= value (SF2Prim (binary_normalize prec emax m e sz))
   <= value hi)%R.
Proof.
  intros Flo Fhi H.
  destruct (binary_normalize_between m e sz (Prim2SF lo) (Prim2SF hi))
    as (V & F & B); try assumption; try apply Prim2SF_valid.
  unfold finite, value. rewrite Prim2SF_SF2Prim by exact V.
  split; assumption.
Qed.

Lemma value_opp (x : float) :
  finite x -> finite (- x) /\ value (- x) = (- value x)%R.
Proof.
  unfold finite, value. rewrite opp_spec.
  destruct (Prim2SF x) as [s|s| |s m e]; cbn [SFopp finite_SF SF2R];
    intros F; try contradiction; split; try exact I; try lra.
  rewrite !F2R_cond_Zopp. destruct s; cbn [negb]; lra.
Qed.

(** [a % b] for a finite [a] and a positive finite [b]: a finite number
    between [-b] and [b], and not negative when [a] is not. *)
Lemma rem_between (a b : float) (mb : positive) (eb : Z) :
  finite a -> Prim2SF b = S754_finite false mb eb ->
  finite (Js.rem a b) /\
  (- value b <= value (Js.rem a b) <= value b)%R /\
  ((0 <= value a)%R -> (0 <= value (Js.rem a b))%R).
Proof.
  intros Fa Hb.
  assert (Fb : finite b) by (unfold finite; rewrite Hb; exact I).
  assert (Vb : value b = F2R (Zpos mb) eb)
    by (unfold value; rewrite Hb; reflexivity).
  assert (Pb : (0 < value b)%R) by (rewrite Vb; apply F2R_pos_gt_0).
  destruct (value_opp b Fb) as [Fnb Vnb].
  unfold Js.rem. rewrite Hb.
  destruct (Prim2SF a) as [sa|sa| |sa ma ea] eqn:Ha.
  - assert (Va : value a = 0%R) by (unfold value; rewrite Ha; reflexivity).
    split; [exact Fa|]. rewrite Va. split; lra.
  - unfold finite in Fa. rewrite Ha in Fa. contradiction.
  - unfold finite in Fa. rewrite Ha in Fa. contradiction.
  - cbv zeta.
    set (e := Z.min ea eb).
    set (B := Zpos mb * 2 ^ (eb - e)).
    set (r := (Zpos ma * 2 ^ (ea - e)) mod B).
    assert (HB : 0 < B).
    { unfold B. apply Z.mul_pos_pos; [lia|]. apply Z.pow_pos_nonneg; lia. }
    assert (Hr : 0 <= r < B) by (apply Z.mod_pos_bound; exact HB).
    assert (EB : F2R B e = value b).
    { rewrite Vb. unfold B.
      replace e with (eb - (eb - e)) at 2 by lia.
      apply F2R_shift. lia. }
    assert (Hr0 : (0 <= F2R r e)%R).
    { replace 0%R with (F2R 0 e) by (unfold F2R; lra). apply F2R_le. lia. }
    assert (Hr1 : (F2R r e <= value b)%R).
    { rewrite <- EB. apply F2R_le. lia. }
    destruct sa.
    + destruct (normalize_between (cond_Zopp true r) e true (- b) b)
        as [F V]; try assumption.
      { rewrite Vnb. cbn [cond_Zopp]. rewrite F2R_opp. lra. }
      split; [exact F|]. rewrite Vnb in V. split; [exact V|].
      intros H. unfold value in H. rewrite Ha, SF2R_finite in H.
      pose proof (F2R_pos_gt_0 ma ea). lra.
    + destruct (normalize_between (cond_Zopp false r) e false 0 b)
        as [F V]; try assumption; try exact I.
      { change (value 0) with 0%R. cbn [cond_Zopp]. lra. }
      change (value 0) with 0%R in V.
      split; [exact F|]. split; [lra|]. intros _. lra.
Qed.

Lemma F2R_lt (m1 m2 e : Z) : m1 < m2 -> (F2R m1 e < F2R m2 e)%R.
Proof.
  intros H. unfold F2R. apply Rmult_lt_compat_r; [apply bpow_gt_0|].
  apply IZR_lt. exact H.
Qed.

(** A finite number with a non-negative exponent is at least [2^52]. *)
Lemma large_exponent (m : positive) (e : Z) :
  valid_binary (S754_finite false m e) = true -> 0 <= e ->
  (IZR (2 ^ 52) <= F2R (Zpos m) e)%R.
Proof.
  intros V He. apply valid_finite in V. destruct V as (_ & _ & Hm & _).
  assert (H : 2 ^ 52 <= Zpos m) by (apply Hm; lia).
  apply IZR_le in H. pose proof (bpow_ge_1 e He) as Hb.
  unfold F2R.
  assert (H0 : (0 < IZR (2 ^ 52))%R) by (apply IZR_lt; reflexivity).
  nra.
Qed.

(** The integer part of [m * 2^(-k)]. *)
Lemma F2R_floor (m k : Z) :
  0 < k ->
  (IZR (m / 2 ^ k) <= F2R m (- k) < IZR (m / 2 ^ k) + 1)%R.
Proof.
  intros Hk.
  assert (Hp : 0 < 2 ^ k) by (apply Z.pow_pos_nonneg; lia).
  pose proof (Z.div_mod m (2 ^ k) ltac:(lia)) as E.
  pose proof (Z.mod_pos_bound m (2 ^ k) Hp) as Hr.
  pose proof (F2R_int (m / 2 ^ k) k ltac:(lia)) as E1.
  pose proof (F2R_int (m / 2 ^ k + 1) k ltac:(lia)) as E2.
  rewrite plus_IZR in E2.
  assert (H1 : m / 2 ^ k * 2 ^ k <= m) by nia.
  assert (H2 : m < (m / 2 ^ k + 1) * 2 ^ k) by nia.
  apply (F2R_le _ _ (- k)) in H1. apply (F2R_lt _ _ (- k)) in H2.
  lra.
Qed.

(** [Math.floor] of a finite number between 0 and 6: one of the integers
    0 to 6 (or -0), the largest that is not above the number. *)
Lemma floor_sector (x : float) :
  finite x -> (0 <= value x <= 6)%R ->
  exists n : Z,
    0 <= n <= 6 /\
    (Js.Math_floor x = Js.of_Z n \/ n = 0 /\ Js.Math_floor x = neg_zero) /\
    (IZR n <= value x < IZR n + 1)%R.
Proof.
  intros F H. pose proof (Prim2SF_valid x) as V.
  pose proof (SF2Prim_Prim2SF x) as Ex.
  unfold Js.Math_floor, finite, value in *.
  destruct (Prim2SF x) as [s|s| |s m e]; try contradiction.
  - exists 0. cbn [SF2R]. split; [lia|]. split; [|lra].
    destruct s; [right|left]; rewrite <- Ex; split; reflexivity.
  - rewrite SF2R_finite in H. destruct s.
    { pose proof (F2R_pos_gt_0 m e). lra. }
    rewrite SF2R_finite.
    destruct (0 <=? e) eqn:He.
    + apply Z.leb_le in He. pose proof (large_exponent m e V He) as L.
      assert (H6 : (6 < IZR (2 ^ 52))%R) by (apply IZR_lt; reflexivity).
      lra.
    + apply Z.leb_gt in He. cbv zeta.
      pose proof (F2R_floor (Zpos m) (- e) ltac:(lia)) as B.
      replace (- - e) with e in B by lia.
      exists (Zpos m / 2 ^ (- e)). split; [|split; [left; reflexivity|exact B]].
      split.
      * apply Z.div_pos; [lia|]. apply Z.pow_pos_nonneg; lia.
      * apply le_IZR. lra.
Qed.

(** The sectors: [i % 6] selects one [case] of the [switch]. *)
Lemma sector_switch (i : float) (n : Z) {A : Type} (c0 c1 c2 c3 c4 c5 d : A) :
  0 <= n <= 6 ->
  i = Js.of_Z n \/ n = 0 /\ i = neg_zero ->
  In (if (Js.rem i 6 =? 0)%float then c0
      else if (Js.rem i 6 =? 1)%float then c1
      else if (Js.rem i 6 =? 2)%float then c2
      else if (Js.rem i 6 =? 3)%float then c3
      else if (Js.rem i 6 =? 4)%float then c4
      else if (Js.rem i 6 =? 5)%float then c5
      else d) [c0; c1; c2; c3; c4; c5].
Proof.
  intros Hn Hi.
  assert (N : n = 0 \/ n = 1 \/ n = 2 \/ n = 3 \/ n = 4 \/ n = 5 \/ n = 6)
    by lia.
  destruct Hi as [->|[_ ->]];
    [destruct N as [->|[->|[->|[->|[->|[->| ->]]]]]]|];
    vm_compute; tauto.
Qed.

Lemma sector_value (i : float) (n : Z) :
  0 <= n <= 6 ->
  i = Js.of_Z n \/ n = 0 /\ i = neg_zero ->
  finite i /\ value i = IZR n.
Proof.
  intros Hn Hi.
  assert (N : n = 0 \/ n = 1 \/ n = 2 \/ n = 3 \/ n = 4 \/ n = 5 \/ n = 6)
    by lia.
  destruct Hi as [->|[-> ->]];
    [destruct N as [->|[->|[->|[->|[->|[->| ->]]]]]]|].
  - split; [exact I|reflexivity].
  - exact value_1.
  - eapply value_const with (n := 51%positive) (k := 2); vm_compute; reflexivity.
  - eapply value_const with (n := 51%positive) (k := 3); vm_compute; reflexivity.
  - eapply value_const with (n := 50%positive) (k := 4); vm_compute; reflexivity.
  - eapply value_const with (n := 50%positive) (k := 5); vm_compute; reflexivity.
  - exact value_6.
  - split; [exact I|reflexivity].
Qed.

Lemma integer_value_of_Z (n : Z) :
  0 <= n <= 255 -> integer_value (Js.of_Z n) = Some n.
Proof.
  intros Hn.
  assert (H : forallb
                (fun k => match integer_value (Js.of_Z k) with
                          | Some j => j =? k
                          | None => false
                          end) (Js.range 0 256) = true)
    by (vm_compute; reflexivity).
  rewrite forallb_forall in H. specialize (H n).
  rewrite in_range in H. specialize (H ltac:(lia)).
  destruct (integer_value (Js.of_Z n)); [|discriminate].
  apply Z.eqb_eq in H. congruence.
Qed.

(** [Math.round] of a finite number between 0 and 255 is an integer
    between 0 and 255. *)
Lemma round_byte (x : float) :
  finite x -> (0 <= value x <= 255)%R -> is_byte_number (Js.Math_round x).
Proof.
  intros F H. pose proof (Prim2SF_valid x) as V.
  unfold is_byte_number, Js.Math_round, finite, value in *.
  destruct (Prim2SF x) as [s|s| |s m e] eqn:Hx; try contradiction.
  - exists 0. unfold integer_value. rewrite Hx. split; [reflexivity|lia].
  - rewrite SF2R_finite in H. destruct s.
    { pose proof (F2R_pos_gt_0 m e). lra. }
    destruct (0 <=? e) eqn:He.
    + apply Z.leb_le in He. pose proof (large_exponent m e V He) as L.
      assert (H6 : (255 < IZR (2 ^ 52))%R) by (apply IZR_lt; reflexivity).
      lra.
    + apply Z.leb_gt in He. cbv zeta. cbn [cond_Zopp].
      set (k := - e). assert (Hk : 0 < k) by (unfold k; lia).
      assert (Hp : 0 < 2 ^ k) by (apply Z.pow_pos_nonneg; lia).
      assert (Hm : Zpos m <= 255 * 2 ^ k).
      { apply (F2R_le_inv _ _ (- k)). rewrite F2R_int by lia.
        replace (- k) with e by (unfold k; lia). lra. }
      set (n := (2 * Zpos m + 2 ^ k) / 2 ^ (k + 1)).
      assert (Hn : 0 <= n < 256).
      { unfold n. rewrite Z.pow_add_r by lia. change (2 ^ 1) with 2. split.
        - apply Z.div_pos; lia.
        - apply Z.div_lt_upper_bound; lia. }
      destruct (n =? 0) eqn:Hz.
      * exists 0. split; [reflexivity|lia].
      * exists n. split; [apply integer_value_of_Z|]; lia.
Qed.

(** Numbers between 0 and 1, and the numbers computed from such. *)
Lemma unit_clamp (s : float) :
  is_nan s = false ->
  unit_number (Js.Math_max 0 (Js.Math_min 100 s) / 100).
Proof.
  intros Hs. destruct (Math_min_100 s Hs) as [N1 L1].
  destruct (Math_max_0 _ N1 L1) as (N2 & L0 & L2).
  set (c := Js.Math_max 0 (Js.Math_min 100 s)) in *.
  destruct value_100 as [F100 V100].
  assert (Fc : finite c) by (apply (leb_finite 0 c 100); assumption || exact I).
  apply leb_value in L0; [|exact I|exact Fc].
  apply leb_value in L2; [|exact Fc|exact F100].
  change (value 0) with 0%R in L0. rewrite V100 in L2.
  destruct value_1 as [F1 V1].
  destruct (div_between c 100 0 1) as [F B]; try assumption; try exact I.
  - rewrite V100. lra.
  - change (value 0) with 0%R. rewrite V100, V1. lra.
  - change (value 0) with 0%R in B. rewrite V1 in B. split; assumption.
Qed.

Lemma unit_complement (c : float) : unit_number c -> unit_number (1 - c).
Proof.
  intros [F B]. destruct value_1 as [F1 V1].
  destruct (sub_between 1 c 0 1) as [F' B']; try assumption; try exact I.
  - change (value 0) with 0%R. rewrite V1. lra.
  - change (value 0) with 0%R in B'. rewrite V1 in B'. split; assumption.
Qed.

Lemma unit_product (a b : float) :
  unit_number a -> unit_number b -> unit_number (a * b).
Proof.
  intros [Fa Ba] [Fb Bb]. destruct value_1 as [F1 V1].
  destruct (mul_between a b 0 1) as [F' B']; try assumption; try exact I.
  - change (value 0) with 0%R. rewrite V1. nra.
  - change (value 0) with 0%R in B'. rewrite V1 in B'. split; assumption.
Qed.

Lemma unit_channel (c : float) :
  unit_number c -> is_byte_number (Js.Math_round (c * 255)).
Proof.
  intros [F B]. destruct value_255 as [F255 V255].
  destruct (mul_between c 255 0 255) as [F' B']; try assumption; try exact I.
  - change (value 0) with 0%R. rewrite V255. nra.
  - change (value 0) with 0%R in B'. rewrite V255 in B'.
    apply round_byte; assumption.
Qed.

(** The hue after [h = (h % 360 + 360) % 360] and its sector [h / 60]. *)
Lemma hue_sector (h : float) :
  finite h ->
  let q := (Js.rem (Js.rem h 360 + 360) 360 / 60)%float in
  finite q /\ (0 <= value q <= 6)%R.
Proof.
  intros Fh q. subst q.
  destruct value_360 as [F360 V360]. destruct value_720 as [F720 V720].
  destruct value_60 as [F60 V60]. destruct value_6 as [F6 V6].
  destruct (rem_between h 360 6333186975989760 (-44) Fh eq_refl)
    as (F1 & B1 & _).
  rewrite V360 in B1.
  destruct (add_between (Js.rem h 360) 360 0 720) as [F2 B2];
    try assumption; try exact I.
  { change (value 0) with 0%R. rewrite V360, V720. lra. }
  change (value 0) with 0%R in B2. rewrite V720 in B2.
  destruct (rem_between (Js.rem h 360 + 360) 360 6333186975989760 (-44)
              F2 eq_refl) as (F3 & B3 & P3).
  rewrite V360 in B3. specialize (P3 (proj1 B2)).
  destruct (div_between (Js.rem (Js.rem h 360 + 360) 360) 60 0 6)
    as [F4 B4]; try assumption; try exact I.
  - rewrite V60. lra.
  - change (value 0) with 0%R. rewrite V60, V6. lra.
  - change (value 0) with 0%R in B4. rewrite V6 in B4. split; assumption.
Qed.

(** The fractional part [f = h / 60 - i]. *)
Lemma hue_fraction (q : float) :
  finite q -> (0 <= value q <= 6)%R ->
  unit_number (q - Js.Math_floor q).
Proof.
  intros Fq Bq. destruct (floor_sector q Fq Bq) as (n & Hn & Hi & B).
  destruct (sector_value _ n Hn Hi) as [Fi Vi].
  destruct value_1 as [F1 V1].
  destruct (sub_between q (Js.Math_floor q) 0 1) as [F' B'];
    try assumption; try exact I.
  - change (value 0) with 0%R. rewrite V1, Vi. lra.
  - change (value 0) with 0%R in B'. rewrite V1 in B'. split; assumption.
Qed.

(** C7, amended: [hsbToRgb] clamps saturation and brightness into [0, 1]
    before the sector computation, and for every finite hue (inside
    [0, 360) or not) and every saturation and brightness that are numbers
    (NaN excluded; 125 and the infinities included) it returns [r], [g] and
    [b] each an integer between 0 and 255.  Every pixel a worker emits is
    three bytes followed by the alpha byte 255. *)
Theorem hsbToRgb_range (h s v : float) :
  finite h -> is_nan s = false -> is_nan v = false ->
  unit_number (Js.Math_max 0 (Js.Math_min 100 s) / 100) /\
  unit_number (Js.Math_max 0 (Js.Math_min 100 v) / 100) /\
  is_byte_number (r (hsbToRgb h s v)) /\
  is_byte_number (g (hsbToRgb h s v)) /\
  is_byte_number (b (hsbToRgb h s v)) /\
  (forall (Math_log : float -> float) (d : Msg.data) (x y : Z),
     exists r g b : Z,
       pixel_bytes Math_log d x y = [r; g; b; 255] /\
       is_byte r /\ is_byte g /\ is_byte b).
Proof.
  intros Fh Hs Hv.
  pose proof (unit_clamp s Hs) as Us. pose proof (unit_clamp v Hv) as Uv.
  split; [exact Us|]. split; [exact Uv|].
  enough (Hrgb : is_byte_number (r (hsbToRgb h s v)) /\
                 is_byte_number (g (hsbToRgb h s v)) /\
                 is_byte_number (b (hsbToRgb h s v))).
  { destruct Hrgb as (Hr & Hg & Hb).
    split; [exact Hr|]. split; [exact Hg|]. split; [exact Hb|].
    intros. apply shade_bytes. }
  unfold hsbToRgb. cbv zeta.
  destruct (hue_sector h Fh) as [Fq Bq].
  set (s1 := (Js.Math_max 0 (Js.Math_min 100 s) / 100)%float) in *.
  set (v1 := (Js.Math_max 0 (Js.Math_min 100 v) / 100)%float) in *.
  set (q := (Js.rem (Js.rem h 360 + 360) 360 / 60)%float) in *.
  pose proof (hue_fraction q Fq Bq) as Uf.
  destruct (floor_sector q Fq Bq) as (n & Hn & Hi & _).
  set (i := Js.Math_floor q) in *.
  set (f := (q - i)%float) in *.
  assert (Up : unit_number (v1 * (1 - s1)))
    by (apply unit_product; [|apply unit_complement]; assumption).
  assert (Uq : unit_number (v1 * (1 - s1 * f))).
  { apply unit_product; [assumption|]. apply unit_complement.
    apply unit_product; assumption. }
  assert (Ut : unit_number (v1 * (1 - s1 * (1 - f)))).
  { apply unit_product; [assumption|]. apply unit_complement.
    apply unit_product; [assumption|]. apply unit_complement. assumption. }
  set (p := (v1 * (1 - s1))%float) in *.
  set (q' := (v1 * (1 - s1 * f))%float) in *.
  set (t := (v1 * (1 - s1 * (1 - f)))%float) in *.
  pose proof (sector_switch i n (v1, t, p) (q', v1, p) (p, v1, t)
                (p, q', v1) (t, p, v1) (v1, p, q') (nan, nan, nan) Hn Hi)
    as Hc.
  destruct Hc as [<-|[<-|[<-|[<-|[<-|[<-|[]]]]]]]; cbn [r g b];
    repeat split; apply unit_channel; assumption.
Qed.

Lemma hsbToRgb_range_witness :
  is_byte_number (r (hsbToRgb (-400) 125 50)) /\
  is_byte_number (g (hsbToRgb (-400) 125 50)) /\
  is_byte_number (b (hsbToRgb (-400) 125 50)).
Proof.
  assert (Fh : finite (-400)) by exact I.
  assert (Hs : is_nan 125 = false) by reflexivity.
  assert (Hv : is_nan 50 = false) by reflexivity.
  destruct (hsbToRgb_range (-400) 125 50 Fh Hs Hv)
    as (_ & _ & Hr & Hg & Hb & _).
  split; [exact Hr|]. split; [exact Hg|exact Hb].
Defined.

(** ** Results that may overflow *)

(** A result that is [+infinity] or a finite number at least [mb * 2^eb]. *)
Lemma binary_round_above (s : bool) (mx : positive) (ex : Z) :
  (binary_round prec emax s mx ex = S754_zero s \/
   binary_round prec emax s mx ex = S754_infinity s \/
   exists m e, binary_round prec emax s mx ex = S754_finite s m e) /\
  (forall mb eb, SpecFloat.bounded prec emax mb eb = true ->
     (F2R (Zpos mb) eb <= F2R (Zpos mx) ex)%R ->
     binary_round prec emax s mx ex = S754_infinity s \/
     exists m e, binary_round prec emax s mx ex = S754_finite s m e /\
                 (F2R (Zpos mb) eb <= F2R (Zpos m) e)%R).
Proof.
  unfold binary_round.
  pose proof (shl_align_spec mx ex (fexp prec emax (Zpos (digits2_pos mx) + ex)))
    as [Hm He].
  destruct (shl_align mx ex (fexp prec emax (Zpos (digits2_pos mx) + ex)))
    as [mz ez]. cbn [fst snd] in Hm, He.
  assert (Hval : F2R (Zpos mz) ez = F2R (Zpos mx) ex).
  { rewrite Hm. replace ez with (ex - (ex - ez)) at 2 by lia.
    apply F2R_shift. lia. }
  assert (Hd : Zdigits2 (Zpos mz) + ez = Zpos (digits2_pos mx) + ex).
  { rewrite Hm, Zdigits2_shiftl by lia. cbn [Zdigits2]. lia. }
  destruct (binary_round_aux_spec s (Zpos mz) ez loc_Exact (F2R (Zpos mx) ex))
    as (_ & Hshape & _ & Hlow).
  - lia.
  - cbn [located]. symmetry. exact Hval.
  - rewrite Hd. lia.
  - split; assumption.
Qed.

Lemma binary_normalize_above (m e : Z) (sz : bool) :
  binary_normalize prec emax m e sz <> S754_nan /\
  (forall mb eb, SpecFloat.bounded prec emax mb eb = true ->
     (F2R (Zpos mb) eb <= F2R m e)%R ->
     binary_normalize prec emax m e sz = S754_infinity false \/
     exists m' e', binary_normalize prec emax m e sz = S754_finite false m' e' /\
                   (F2R (Zpos mb) eb <= F2R (Zpos m') e')%R).
Proof.
  unfold binary_normalize. destruct m as [|p|p].
  - split; [discriminate|]. intros mb eb _ H.
    pose proof (F2R_pos_gt_0 mb eb). unfold F2R in H at 2. lra.
  - destruct (binary_round_above false p e) as [Hs Hl]. split; [|exact Hl].
    destruct Hs as [E|[E|(m' & e' & E)]]; rewrite E; discriminate.
  - destruct (binary_round_above true p e) as [Hs _]. split.
    + destruct Hs as [E|[E|(m' & e' & E)]]; rewrite E; discriminate.
    + intros mb eb _ H. pose proof (F2R_pos_gt_0 mb eb).
      pose proof (F2R_pos_gt_0 p e) as Hp.
      change (Zneg p) with (- Zpos p) in H. rewrite F2R_opp in H. lra.
Qed.

(** The product of two finite numbers. *)
Lemma SFmul_finite (sx : bool) (mx : positive) (ex : Z)
  (sy : bool) (my : positive) (ey : Z) :
  valid_binary (S754_finite sx mx ex) = true ->
  valid_binary (S754_finite sy my ey) = true ->
  let z := SFmul prec emax (S754_finite sx mx ex) (S754_finite sy my ey) in
  (z = S754_zero (xorb sx sy) \/ z = S754_infinity (xorb sx sy) \/
   exists m e, z = S754_finite (xorb sx sy) m e) /\
  (forall mb eb, SpecFloat.bounded prec emax mb eb = true ->
     (F2R (Zpos mb) eb <= F2R (Zpos mx) ex * F2R (Zpos my) ey)%R ->
     z = S754_infinity (xorb sx sy) \/
     exists m e, z = S754_finite (xorb sx sy) m e /\
                 (F2R (Zpos mb) eb <= F2R (Zpos m) e)%R).
Proof.
  intros Vx Vy z. subst z. cbn [SFmul].
  destruct (valid_finite _ _ _ Vx) as (Hex & Hmx & Hbx & Hcx).
  destruct (valid_finite _ _ _ Vy) as (Hey & Hmy & Hby & Hcy).
  assert (E : F2R (Zpos (mx * my)) (ex + ey)
              = (F2R (Zpos mx) ex * F2R (Zpos my) ey)%R).
  { unfold F2R. rewrite Pos2Z.inj_mul, mult_IZR, bpow_add. ring. }
  rewrite <- E.
  destruct (binary_round_aux_spec (xorb sx sy) (Zpos (mx * my)) (ex + ey)
              loc_Exact (F2R (Zpos (mx * my)) (ex + ey)))
    as (_ & Hshape & _ & Hlow).
  - lia.
  - reflexivity.
  - rewrite fexp_spec.
    destruct (Z_le_gt_dec (ex + ey) (-1074)); [lia|].
    assert (Hbig : 2 ^ 52 <= Zpos mx \/ 2 ^ 52 <= Zpos my).
    { destruct (Z_le_gt_dec ex (-1074));
        [right; apply Hby; lia|left; apply Hbx; lia]. }
    assert (H52 : 2 ^ 52 <= Zpos (mx * my)).
    { rewrite Pos2Z.inj_mul. destruct Hbig; nia. }
    assert (53 <= Zdigits2 (Zpos (mx * my))).
    { pose proof (Zdigits2_bounds (Zpos (mx * my)) ltac:(lia)) as [_ H2].
      destruct (Z_lt_le_dec (Zdigits2 (Zpos (mx * my))) 53) as [Hlt|];
        [|assumption].
      assert (2 ^ Zdigits2 (Zpos (mx * my)) <= 2 ^ 52)
        by (apply Z.pow_le_mono_r; lia).
      lia. }
    lia.
  - split; assumption.
Qed.

(** A square is not negative, and NaN only for NaN. *)
Lemma SFmul_square (x : spec_float) :
  valid_binary x = true -> x <> S754_nan -> nonneg_SF (SFmul prec emax x x).
Proof.
  intros V N. destruct x as [s|s| |s m e]; [| |congruence|].
  - destruct s; exact I.
  - destruct s; exact I.
  - destruct (SFmul_finite s m e s m e V V) as [Hs _].
    replace (xorb s s) with false in Hs by (destruct s; reflexivity).
    destruct Hs as [E|[E|(m' & e' & E)]]; rewrite E; exact I.
Qed.

Lemma SFmul_square_finite (x : spec_float) :
  finite_SF (SFmul prec emax x x) -> finite_SF x.
Proof. destruct x as [s|s| |s m e]; cbn [SFmul finite_SF]; auto. Qed.

Lemma SFmul_above (x y : spec_float) (mb : positive) (eb : Z) :
  finite_SF x -> valid_binary x = true ->
  finite_SF y -> valid_binary y = true ->
  SpecFloat.bounded prec emax mb eb = true ->
  (F2R (Zpos mb) eb <= SF2R x * SF2R y)%R ->
  SFmul prec emax x y = S754_infinity false \/
  exists m e, SFmul prec emax x y = S754_finite false m e /\
              (F2R (Zpos mb) eb <= F2R (Zpos m) e)%R.
Proof.
  intros Fx Vx Fy Vy Hb H. pose proof (F2R_pos_gt_0 mb eb) as Hp.
  destruct x as [sx| | |sx mx ex], y as [sy| | |sy my ey]; try contradiction.
  1-3: cbn [SF2R] in H; lra.
  destruct (SFmul_finite sx mx ex sy my ey Vx Vy) as [_ Hl].
  rewrite !SF2R_finite in H.
  pose proof (F2R_pos_gt_0 mx ex). pose proof (F2R_pos_gt_0 my ey).
  destruct sx, sy; cbn [xorb] in Hl; try nra.
  - apply Hl; [exact Hb|nra].
  - apply Hl; [exact Hb|nra].
Qed.

Lemma SFadd_finite (sx : bool) (mx : positive) (ex : Z)
  (sy : bool) (my : positive) (ey : Z) :
  let z := SFadd prec emax (S754_finite sx mx ex) (S754_finite sy my ey) in
  z <> S754_nan /\
  (forall mb eb, SpecFloat.bounded prec emax mb eb = true ->
     (F2R (Zpos mb) eb
      <= SF2R (S754_finite sx mx ex) + SF2R (S754_finite sy my ey))%R ->
     z = S754_infinity false \/
     exists m e, z = S754_finite false m e /\
                 (F2R (Zpos mb) eb <= F2R (Zpos m) e)%R).
Proof.
  intros z. subst z. cbn [SFadd].
  destruct (binary_normalize_above
              (cond_Zopp sx (Zpos (fst (shl_align mx ex (Z.min ex ey))))
               + cond_Zopp sy (Zpos (fst (shl_align my ey (Z.min ex ey)))))
              (Z.min ex ey) false) as [Hn Hl].
  split; [exact Hn|]. intros mb eb Hb H. apply Hl; [exact Hb|].
  rewrite F2R_add, !F2R_cond_Zopp. rewrite shl_align_min.
  replace (Z.min ex ey) with (Z.min ey ex) by lia.
  rewrite shl_align_min. rewrite !SF2R_finite in H. exact H.
Qed.

Lemma SFadd_nonneg (x y : spec_float) :
  nonneg_SF x -> nonneg_SF y ->
  nonneg_SF (SFadd prec emax x y) /\
  (finite_SF (SFadd prec emax x y) -> finite_SF x /\ finite_SF y).
Proof.
  intros Hx Hy.
  destruct x as [sx|[]| |[] mx ex], y as [sy|[]| |[] my ey];
    try contradiction; try (cbn; split; [exact I|tauto]).
  - split; [|split; exact I]. destruct sx, sy; exact I.
  - split; [|split; exact I]. cbn [SFadd cond_Zopp].
    change (Zpos (fst (shl_align mx ex (Z.min ex ey)))
            + Zpos (fst (shl_align my ey (Z.min ex ey))))
      with (Zpos (fst (shl_align mx ex (Z.min ex ey))
                  + fst (shl_align my ey (Z.min ex ey)))).
    cbn [binary_normalize].
    destruct (binary_round_above false
                (fst (shl_align mx ex (Z.min ex ey))
                 + fst (shl_align my ey (Z.min ex ey))) (Z.min ex ey))
      as [[E|[E|(m' & e' & E)]] _]; rewrite E; exact I.
Qed.

Lemma SFadd_finite_not_nan (x y : spec_float) :
  finite_SF x -> y <> S754_nan -> SFadd prec emax x y <> S754_nan.
Proof.
  intros Fx Ny.
  destruct x as [sx| | |sx mx ex], y as [sy|sy| |sy my ey];
    try contradiction; try congruence; try (cbn; discriminate).
  - destruct sx, sy; discriminate.
  - apply (SFadd_finite sx mx ex sy my ey).
Qed.

Lemma SFadd_above (x y : spec_float) (mb : positive) (eb : Z) :
  finite_SF x -> nonneg_SF x -> finite_SF y -> nonneg_SF y ->
  SpecFloat.bounded prec emax mb eb = true ->
  (F2R (Zpos mb) eb <= SF2R x + SF2R y)%R ->
  SFadd prec emax x y = S754_infinity false \/
  exists m e, SFadd prec emax x y = S754_finite false m e /\
              (F2R (Zpos mb) eb <= F2R (Zpos m) e)%R.
Proof.
  intros Fx Nx Fy Ny Hb H. pose proof (F2R_pos_gt_0 mb eb) as Hp.
  destruct x as [sx|[]| |[] mx ex], y as [sy|[]| |[] my ey];
    try contradiction.
  - cbn [SF2R] in H. lra.
  - right. exists my, ey. split; [reflexivity|].
    cbn [SF2R cond_Zopp] in H. lra.
  - right. exists mx, ex. split; [reflexivity|].
    cbn [SF2R cond_Zopp] in H. lra.
  - apply (SFadd_finite false mx ex false my ey); assumption.
Qed.

Lemma square_nonneg (x : float) : is_nan x = false -> nonneg (x * x).
Proof.
  intros N. unfold nonneg. rewrite mul_spec.
  apply SFmul_square; [apply Prim2SF_valid|].
  apply not_nan_Prim2SF. exact N.
Qed.

Lemma square_finite (x : float) : finite (x * x) -> finite x.
Proof. unfold finite. rewrite mul_spec. apply SFmul_square_finite. Qed.

Lemma nonneg_value (x : float) : nonneg x -> (0 <= value x)%R.
Proof.
  unfold nonneg, value.
  destruct (Prim2SF x) as [s|[]| |[] m e]; cbn [nonneg_SF SF2R cond_Zopp];
    intros H; try contradiction; try lra.
  pose proof (F2R_pos_gt_0 m e). lra.
Qed.

Lemma add_nonneg_not_nan (x y : float) :
  nonneg x -> nonneg y -> is_nan (x + y) = false.
Proof.
  intros Hx Hy. apply not_nan_Prim2SF. rewrite add_spec.
  destruct (SFadd_nonneg _ _ Hx Hy) as [H _]. unfold SF64add.
  destruct (SFadd prec emax (Prim2SF x) (Prim2SF y)); [discriminate..|contradiction|discriminate].
Qed.

Lemma add_finite_not_nan (x y : float) :
  finite x -> is_nan y = false -> is_nan (x + y) = false.
Proof.
  intros Fx Ny. apply not_nan_Prim2SF. rewrite add_spec.
  apply SFadd_finite_not_nan; [exact Fx|]. apply not_nan_Prim2SF. exact Ny.
Qed.

(** A result that is [+infinity] or at least [c] is not below [c]. *)
Lemma above_ltb (z : float) (c : float) (mb : positive) (eb : Z) :
  Prim2SF c = S754_finite false mb eb ->
  Prim2SF z = S754_infinity false \/
  (exists m e, Prim2SF z = S754_finite false m e /\
               (F2R (Zpos mb) eb <= F2R (Zpos m) e)%R) ->
  (z <? c)%float = false.
Proof.
  intros Hc [E|(m & e & E & Hle)].
  - rewrite ltb_spec, E, Hc. reflexivity.
  - destruct (z <? c)%float eqn:Hlt; [|reflexivity].
    apply ltb_value in Hlt.
    + unfold value in Hlt. rewrite E, Hc in Hlt. cbn [SF2R cond_Zopp] in Hlt. lra.
    + unfold finite. rewrite E. exact I.
    + unfold finite. rewrite Hc. exact I.
Qed.

Lemma bounded_Prim2SF (c : float) (mb : positive) (eb : Z) :
  Prim2SF c = S754_finite false mb eb ->
  SpecFloat.bounded prec emax mb eb = true.
Proof.
  intros Hc. pose proof (Prim2SF_valid c) as V. rewrite Hc in V. exact V.
Qed.

(** One-sided monotonicity of the product: a product of finite numbers
    whose exact value is at least [c > 0] is not below [c]. *)
Lemma mul_above (x y c : float) (mb : positive) (eb : Z) :
  finite x -> finite y -> Prim2SF c = S754_finite false mb eb ->
  (value c <= value x * value y)%R ->
  (x * y <? c)%float = false.
Proof.
  intros Fx Fy Hc H. apply (above_ltb _ c mb eb Hc). rewrite mul_spec.
  apply SFmul_above; try assumption; try apply Prim2SF_valid.
  - apply (bounded_Prim2SF c). exact Hc.
  - unfold value in H. rewrite Hc in H. exact H.
Qed.

Lemma add_above (x y c : float) (mb : positive) (eb : Z) :
  finite x -> nonneg x -> finite y -> nonneg y ->
  Prim2SF c = S754_finite false mb eb ->
  (value c <= value x + value y)%R ->
  (x + y <? c)%float = false.
Proof.
  intros Fx Nx Fy Ny Hc H. apply (above_ltb _ c mb eb Hc). rewrite add_spec.
  apply SFadd_above; try assumption.
  - apply (bounded_Prim2SF c). exact Hc.
  - unfold value in H. rewrite Hc in H. exact H.
Qed.

(** If the sum of two numbers that are not negative is below [c], both
    are finite and their exact sum is below [c]. *)
Lemma add_below (x y c : float) (mb : positive) (eb : Z) :
  nonneg x -> nonneg y -> Prim2SF c = S754_finite false mb eb ->
  (x + y <? c)%float = true ->
  finite x /\ finite y /\ (value x + value y < value c)%R.
Proof.
  intros Nx Ny Hc Hlt.
  destruct (SFadd_nonneg _ _ Nx Ny) as [Ns Hf].
  assert (Fs : finite_SF (SFadd prec emax (Prim2SF x) (Prim2SF y))).
  { rewrite ltb_spec, add_spec, Hc in Hlt. unfold SF64add in Hlt.
    destruct (SFadd prec emax (Prim2SF x) (Prim2SF y)) as [s|[]| |s m e];
      try exact I; try contradiction; discriminate. }
  destruct (Hf Fs) as [Fx Fy]. split; [exact Fx|]. split; [exact Fy|].
  destruct (Rlt_le_dec (value x + value y) (value c)) as [|Hle]; [assumption|].
  rewrite (add_above x y c mb eb Fx Nx Fy Ny Hc Hle) in Hlt. discriminate.
Qed.

(** ** The escape-time loop on numbers *)

Lemma value_2 : finite 2 /\ value 2 = 2%R.
Proof. eapply value_const with (n := 51%positive) (k := 2); vm_compute; reflexivity. Qed.

Lemma value_4 : finite 4 /\ value 4 = 4%R.
Proof. eapply value_const with (n := 50%positive) (k := 4); vm_compute; reflexivity. Qed.

Lemma value_8 : finite 8 /\ value 8 = 8%R.
Proof. eapply value_const with (n := 49%positive) (k := 8); vm_compute; reflexivity. Qed.

Lemma value_16 : finite 16 /\ value 16 = 16%R.
Proof. eapply value_const with (n := 48%positive) (k := 16); vm_compute; reflexivity. Qed.

Lemma value_32 : finite 32 /\ value 32 = 32%R.
Proof. eapply value_const with (n := 47%positive) (k := 32); vm_compute; reflexivity. Qed.

(** A finite number whose square, as computed, is below 4 lies strictly
    between -4 and 4. *)
Lemma square_below (x : float) :
  finite (x * x) -> (value (x * x) < 4)%R ->
  finite x /\ (-4 < value x < 4)%R.
Proof.
  intros F H. pose proof (square_finite x F) as Fx. split; [exact Fx|].
  destruct value_16 as [F16 V16].
  destruct (Rlt_le_dec (value x * value x) 16) as [Hlt|Hge]; [nra|].
  exfalso.
  assert (E : (x * x <? 16)%float = false).
  { apply (mul_above x x 16 4503599627370496 (-48)); try assumption.
    - reflexivity.
    - rewrite V16. exact Hge. }
  assert (E' : (x * x <? 16)%float = true).
  { apply ltb_value; [exact F|exact F16|]. rewrite V16. lra. }
  congruence.
Qed.

(** One turn of the loop keeps [zx] and [zy] numbers when [cx] and [cy]
    are: while the test [zx2 + zy2 < 4] holds, [zx] and [zy] are small. *)
Lemma body_numbers (cx cy : float) (st : zstate) :
  is_nan cx = false -> is_nan cy = false ->
  numbers st -> (zx2 st + zy2 st <? 4)%float = true ->
  numbers (body cx cy st).
Proof.
  intros Ncx Ncy (E1 & E2 & N1 & N2) Hlt.
  pose proof (square_nonneg _ N1) as P1. pose proof (square_nonneg _ N2) as P2.
  rewrite <- E1 in P1. rewrite <- E2 in P2.
  destruct (add_below _ _ 4 4503599627370496 (-50) P1 P2 eq_refl Hlt)
    as (F1 & F2 & Hs).
  destruct value_4 as [F4 V4]. rewrite V4 in Hs.
  pose proof (nonneg_value _ P1) as G1. pose proof (nonneg_value _ P2) as G2.
  destruct (square_below (zx st)) as [Fx Bx];
    [rewrite <- E1; exact F1|rewrite <- E1; lra|].
  destruct (square_below (zy st)) as [Fy By];
    [rewrite <- E2; exact F2|rewrite <- E2; lra|].
  destruct value_2 as [F2' V2]. destruct value_8 as [F8 V8].
  destruct value_32 as [F32 V32].
  destruct (value_opp 4 F4) as [Fn4 Vn4]. rewrite V4 in Vn4.
  destruct (value_opp 8 F8) as [Fn8 Vn8]. rewrite V8 in Vn8.
  destruct (value_opp 32 F32) as [Fn32 Vn32]. rewrite V32 in Vn32.
  destruct (mul_between 2 (zx st) (PrimFloat.opp 8) 8) as [Fa Ba]; try assumption.
  { rewrite Vn8, V8, V2. lra. }
  rewrite Vn8, V8 in Ba.
  destruct (mul_between (2 * zx st) (zy st) (PrimFloat.opp 32) 32) as [Fb Bb];
    try assumption.
  { rewrite Vn32, V32. nra. }
  destruct (sub_between (zx2 st) (zy2 st) (PrimFloat.opp 4) 4) as [Fc Bc];
    try assumption.
  { rewrite Vn4, V4. lra. }
  unfold numbers, body. cbn [zx zy zx2 zy2].
  repeat split; apply add_finite_not_nan; assumption.
Qed.

Lemma while_loop_numbers (cx cy : float) (maxIter : Z) :
  is_nan cx = false -> is_nan cy = false ->
  forall fuel st, numbers st -> numbers (while_loop fuel cx cy maxIter st).
Proof.
  intros Ncx Ncy. induction fuel as [|fuel IH]; intros st H; cbn [while_loop].
  - exact H.
  - destruct (continues maxIter st) eqn:Hc; [|exact H].
    apply IH. apply body_numbers; try assumption.
    unfold continues in Hc. apply andb_true_iff in Hc. apply Hc.
Qed.

(** For [cx] and [cy] that are numbers the loop never produces NaN: the sum
    [zx2 + zy2] it tests is a number in every state. *)
Lemma escape_numbers (cx cy : float) (maxIter : Z) :
  is_nan cx = false -> is_nan cy = false ->
  is_nan (zx2 (escape cx cy maxIter) + zy2 (escape cx cy maxIter)) = false.
Proof.
  intros Ncx Ncy.
  destruct (while_loop_numbers cx cy maxIter Ncx Ncy (Z.to_nat maxIter) z0)
    as (E1 & E2 & N1 & N2).
  { repeat split; reflexivity. }
  fold (escape cx cy maxIter) in E1, E2, N1, N2. rewrite E1, E2.
  apply add_nonneg_not_nan; apply square_nonneg; assumption.
Qed.

(** C2, as the code has it. The loop compares with the literal 4, not with
    a parameter. For every [cx], [cy] and [maxIter >= 1] the counter
    returned is in [[0, maxIter]]; when it is [maxIter] the pixel is
    [(0, 0, 0, 255)]; otherwise it is below [maxIter], the test
    [zx2 + zy2 < 4] is false in the final state, which is [zx2 + zy2 >= 4]
    whenever [cx] and [cy] are numbers (and whenever that sum is not NaN),
    and the bytes are those the color mapper gives for the counter and the
    magnitude [sqrt(zx2 + zy2)]. *)
Theorem escape_postcondition
  (Math_log : float -> float) (cx cy : float) (maxIter : Z) :
  1 <= maxIter ->
  let st := escape cx cy maxIter in
  let m := (zx2 st + zy2 st)%float in
  0 <= iter st <= maxIter /\
  (iter st = maxIter -> shade Math_log maxIter st = [0; 0; 0; 255]) /\
  (iter st <> maxIter ->
     iter st < maxIter /\
     (m <? 4)%float = false /\
     (is_nan cx = false -> is_nan cy = false -> (4 <=? m)%float = true) /\
     (is_nan m = false -> (4 <=? m)%float = true) /\
     shade Math_log maxIter st
     = color Math_log maxIter (iter st) (PrimFloat.sqrt m)).
Proof.
  intros H st m.
  destruct (while_loop_exit cx cy maxIter (Z.to_nat maxIter) z0) as [Hi Hx];
    [cbn [z0 iter]; lia|].
  fold (escape cx cy maxIter) in Hi, Hx. fold st in Hi, Hx.
  cbn [z0 iter] in Hi.
  split; [exact Hi|]. split.
  - intros E. unfold shade. now rewrite E, Z.eqb_refl.
  - intros NE. assert (Hlt : iter st < maxIter) by lia.
    unfold continues in Hx. fold m in Hx.
    replace (iter st <? maxIter) with true in Hx
      by (symmetry; apply Z.ltb_lt; lia).
    rewrite andb_true_r in Hx.
    split; [exact Hlt|]. split; [exact Hx|]. split; [|split].
    + intros Ncx Ncy. apply ltb_false_leb; [|reflexivity|exact Hx].
      apply escape_numbers; assumption.
    + intros Hn. apply ltb_false_leb; [exact Hn|reflexivity|exact Hx].
    + unfold shade. now replace (iter st =? maxIter) with false
        by (symmetry; apply Z.eqb_neq; exact NE).
Qed.

(** C2 as stated fails. The threshold is not a parameter: at [c = 2] the
    loop stops after one turn with [zx2 + zy2 = 4], which is not [>= 16].
    And with the threshold 4 it fails for a [cx] that is NaN: the loop stops
    after one turn with [zx2 + zy2] NaN, which is not [>= 4]. *)
Lemma escape_radius_counterexample :
  ~ (forall (cx cy : float) (maxIter : Z) (escapeRadiusSquared : float),
       1 <= maxIter -> (0 <? escapeRadiusSquared)%float = true ->
       iter (escape cx cy maxIter) < maxIter ->
       (escapeRadiusSquared
        <=? zx2 (escape cx cy maxIter) + zy2 (escape cx cy maxIter))%float
       = true) /\
  ~ (forall (cx cy : float) (maxIter : Z),
       1 <= maxIter ->
       iter (escape cx cy maxIter) < maxIter ->
       (4 <=? zx2 (escape cx cy maxIter) + zy2 (escape cx cy maxIter))%float
       = true).
Proof.
  split; intros H.
  - assert (E : (16 <=? zx2 (escape 2 0 100) + zy2 (escape 2 0 100))%float
                = true).
    { apply H; [lia|reflexivity|vm_compute; reflexivity]. }
    vm_compute in E. discriminate E.
  - assert (E : (4 <=? zx2 (escape nan 0 100) + zy2 (escape nan 0 100))%float
                = true).
    { apply H; [lia|vm_compute; reflexivity]. }
    vm_compute in E. discriminate E.
Qed.

Lemma escape_postcondition_witness :
  1 <= 100 /\
  0 <= iter (escape 2 0 100) <= 100 /\
  (4 <=? zx2 (escape 2 0 100) + zy2 (escape 2 0 100))%float = true.
Proof.
  assert (H : 1 <= 100) by lia.
  assert (NE : iter (escape 2 0 100) <> 100) by (vm_compute; discriminate).
  assert (Ncx : is_nan 2 = false) by reflexivity.
  assert (Ncy : is_nan 0 = false) by reflexivity.
  destruct (escape_postcondition Example.log_linear 2 0 100 H)
    as (Hi & _ & He).
  destruct (He NE) as (_ & _ & Hm & _).
  split; [exact H|]. split; [exact Hi|exact (Hm Ncx Ncy)].
Defined.

(** ** The first turns of the loop *)

(** [0 + x] is [x], except that [0 + -0] is [+0]; the squares agree. *)
Lemma add_zero_square (x : float) :
  ((0 + x) * (0 + x))%float = (x * x)%float.
Proof.
  apply Prim2SF_inj. rewrite !mul_spec, add_spec.
  change (Prim2SF 0) with (S754_zero false).
  destruct (Prim2SF x) as [[]|[]| |s m e]; reflexivity.
Qed.

Lemma body_z0 (cx cy : float) :
  zx2 (body cx cy z0) = (cx * cx)%float /\
  zy2 (body cx cy z0) = (cy * cy)%float /\
  iter (body cx cy z0) = 1.
Proof.
  unfold body, z0. cbn [zx zy zx2 zy2 iter].
  change (2 * 0 * 0)%float with 0%float. change (0 - 0)%float with 0%float.
  rewrite !add_zero_square. repeat split.
Qed.

(** X3. After the first turn [z = c]. A point with [cx * cx + cy * cy]
    not below 4 leaves the loop there, with the counter 1 and the squares
    of [cx] and [cy] in [zx2] and [zy2]; a point with that sum below 4 takes
    a second turn when [maxIter] allows one. With [maxIter = 1] the loop
    always stops at 1, which is [maxIter]: every pixel is black. *)
Theorem escape_first_turn
  (Math_log : float -> float) (cx cy : float) (maxIter : Z) :
  1 <= maxIter ->
  ((cx * cx + cy * cy <? 4)%float = false ->
   iter (escape cx cy maxIter) = 1 /\
   zx2 (escape cx cy maxIter) = (cx * cx)%float /\
   zy2 (escape cx cy maxIter) = (cy * cy)%float) /\
  ((cx * cx + cy * cy <? 4)%float = true -> 2 <= maxIter ->
   2 <= iter (escape cx cy maxIter)) /\
  (maxIter = 1 ->
   iter (escape cx cy maxIter) = 1 /\
   shade Math_log maxIter (escape cx cy maxIter) = [0; 0; 0; 255]).
Proof.
  intros H. rewrite escape_unfold by exact H.
  destruct (body_z0 cx cy) as (E1 & E2 & E3).
  set (st1 := body cx cy z0) in *.
  split; [|split].
  - intros Hm. destruct (Z.to_nat (maxIter - 1)) as [|fuel];
      cbn [while_loop]; [auto|].
    unfold continues. rewrite E1, E2, Hm. cbn [andb]. auto.
  - intros Hm H2.
    replace (Z.to_nat (maxIter - 1)) with (S (Z.to_nat (maxIter - 2))) by lia.
    cbn [while_loop]. unfold continues. rewrite E1, E2, Hm. cbn [andb].
    assert (Hlt : (iter st1 <? maxIter) = true) by (apply Z.ltb_lt; lia).
    rewrite Hlt.
    destruct (while_loop_exit cx cy maxIter (Z.to_nat (maxIter - 2))
                (body cx cy st1)) as [Hi _].
    { cbn [body iter]. lia. }
    cbn [body iter] in Hi. lia.
  - intros ->. change (Z.to_nat (1 - 1)) with 0%nat. cbn [while_loop].
    split; [exact E3|]. unfold shade. rewrite E3. reflexivity.
Qed.

Lemma escape_first_turn_witness :
  iter (escape (-2) 0 4500) = 1 /\
  zx2 (escape (-2) 0 4500) = 4%float.
Proof.
  assert (H : 1 <= 4500) by lia.
  assert (Hm : ((-2) * (-2) + 0 * 0 <? 4)%float = false) by reflexivity.
  destruct (escape_first_turn Example.log_linear (-2) 0 4500 H)
    as (H1 & _).
  destruct (H1 Hm) as (Hi & Hx & _).
  split; [exact Hi|exact Hx].
Defined.

(** ** Raising [MAX_ITER] *)

Lemma while_loop_more (cx cy : float) (M M' : Z) :
  M <= M' ->
  forall fuel fuel' st,
    iter st + Z.of_nat fuel = M -> iter st + Z.of_nat fuel' = M' ->
    (iter (while_loop fuel cx cy M st) < M ->
     while_loop fuel' cx cy M' st = while_loop fuel cx cy M st) /\
    (iter (while_loop fuel cx cy M st) = M ->
     M <= iter (while_loop fuel' cx cy M' st)).
Proof.
  intros HM. induction fuel as [|fuel IH]; intros fuel' st Hf Hf'.
  - cbn [while_loop]. split; [lia|]. intros _.
    destruct (while_loop_exit cx cy M' fuel' st Hf') as [Hi _]. lia.
  - destruct fuel' as [|fuel']; [lia|]. cbn [while_loop]. unfold continues.
    replace (iter st <? M) with true by (symmetry; apply Z.ltb_lt; lia).
    replace (iter st <? M') with true by (symmetry; apply Z.ltb_lt; lia).
    rewrite !andb_true_r.
    destruct (zx2 st + zy2 st <? 4)%float.
    + apply IH; cbn [body iter]; lia.
    + split; [reflexivity|lia].
Qed.

(** X4. The loop does not look at [maxIter] until the counter reaches it:
    with a larger [maxIter] a point that escaped ends in the same state
    (same counter, same [zx2] and [zy2]), and a point that did not escape
    gets a counter that is at least the former [maxIter]. *)
Theorem max_iter_stable (cx cy : float) (maxIter maxIter' : Z) :
  0 <= maxIter <= maxIter' ->
  (iter (escape cx cy maxIter) < maxIter ->
   escape cx cy maxIter' = escape cx cy maxIter) /\
  (iter (escape cx cy maxIter) = maxIter ->
   maxIter <= iter (escape cx cy maxIter')).
Proof.
  intros H. unfold escape.
  apply while_loop_more; cbn [z0 iter]; lia.
Qed.

Lemma max_iter_stable_witness :
  escape 1 1 4500 = escape 1 1 10.
Proof.
  assert (H : 0 <= 10 <= 4500) by lia.
  assert (Hi : iter (escape 1 1 10) < 10) by (vm_compute; reflexivity).
  exact (proj1 (max_iter_stable 1 1 10 4500 H) Hi).
Defined.

(** ** The escape time *)

(** X5. The counter the loop returns is the escape time: the state
    returned is the [iter]-th iterate of [z -> z^2 + c] from 0 as the body
    computes it, the test [zx2 + zy2 < 4] holds at every earlier iterate,
    and it fails at that one unless the loop stopped for [iter = maxIter]. *)
Theorem escape_time (cx cy : float) (maxIter : Z) :
  0 <= maxIter ->
  let n := Z.to_nat (iter (escape cx cy maxIter)) in
  escape cx cy maxIter = orbit cx cy n /\
  (forall k : nat, (k < n)%nat ->
     (zx2 (orbit cx cy k) + zy2 (orbit cx cy k) <? 4)%float = true) /\
  (iter (escape cx cy maxIter) < maxIter ->
   (zx2 (orbit cx cy n) + zy2 (orbit cx cy n) <? 4)%float = false).
Proof.
  intros H n. subst n. unfold escape.
  destruct (while_loop_orbit cx cy maxIter (Z.to_nat maxIter) 0 ltac:(lia))
    as (j & _ & Hm & Hr & Hb & He).
  change (orbit cx cy 0) with z0 in Hr. rewrite Hr, iter_orbit, Nat2Z.id.
  split; [reflexivity|]. split.
  - intros k Hk. apply Hb. lia.
  - exact He.
Qed.

Lemma escape_time_witness :
  escape 1 1 4500 = orbit 1 1 (Z.to_nat (iter (escape 1 1 4500))).
Proof.
  assert (H : 0 <= 4500) by lia.
  exact (proj1 (escape_time 1 1 4500 H)).
Defined.

(** ** Symmetry about the real axis *)

Ltac no_rounding :=
  lazymatch goal with
  | |- context [binary_round_aux] => fail
  | |- context [binary_normalize] => fail
  | _ => idtac
  end.

(** Rounding does not look at the sign. *)
Lemma SFopp_binary_round_aux (s : bool) (mx ex : Z) (lx : location) :
  SFopp (binary_round_aux prec emax s mx ex lx)
  = binary_round_aux prec emax (negb s) mx ex lx.
Proof.
  unfold binary_round_aux.
  destruct (shr_fexp prec emax mx ex lx) as [mrs e].
  destruct (shr_fexp prec emax _ e loc_Exact) as [mrs' e'].
  destruct (shr_m mrs') as [|p|p]; [reflexivity| |reflexivity].
  destruct (e' <=? emax - prec)%Z; reflexivity.
Qed.

Lemma SFopp_binary_round (s : bool) (mx : positive) (ex : Z) :
  SFopp (binary_round prec emax s mx ex)
  = binary_round prec emax (negb s) mx ex.
Proof.
  unfold binary_round.
  destruct (shl_align mx ex _) as [mz ez]. apply SFopp_binary_round_aux.
Qed.

Lemma SFopp_involutive (x : spec_float) : SFopp (SFopp x) = x.
Proof. destruct x as [s|s| |s m e]; cbn; now rewrite ?negb_involutive. Qed.

Lemma SFmul_opp_r (x y : spec_float) :
  SFmul prec emax x (SFopp y) = SFopp (SFmul prec emax x y).
Proof.
  destruct x as [sx|sx| |sx mx ex], y as [sy|sy| |sy my ey];
    cbn [SFmul SFopp]; try (no_rounding; reflexivity);
    try (no_rounding; destruct sx, sy; reflexivity).
  rewrite SFopp_binary_round_aux. f_equal. destruct sx, sy; reflexivity.
Qed.

Lemma SFmul_opp_l (x y : spec_float) :
  SFmul prec emax (SFopp x) y = SFopp (SFmul prec emax x y).
Proof.
  destruct x as [sx|sx| |sx mx ex], y as [sy|sy| |sy my ey];
    cbn [SFmul SFopp]; try (no_rounding; reflexivity);
    try (no_rounding; destruct sx, sy; reflexivity).
  rewrite SFopp_binary_round_aux. f_equal. destruct sx, sy; reflexivity.
Qed.

Lemma SFmul_mirrored_r (x y y' : spec_float) :
  mirrored_SF y y' ->
  mirrored_SF (SFmul prec emax x y) (SFmul prec emax x y').
Proof.
  intros [->|[Hy Hy']].
  - left. apply SFmul_opp_r.
  - destruct y as [sy| | |]; try contradiction.
    destruct y' as [sy'| | |]; try contradiction.
    destruct x as [sx|sx| |sx mx ex]; cbn [SFmul].
    + right. split; exact I.
    + left. reflexivity.
    + left. reflexivity.
    + right. split; exact I.
Qed.

Lemma SFmul_mirrored_square (y y' : spec_float) :
  mirrored_SF y y' -> SFmul prec emax y' y' = SFmul prec emax y y.
Proof.
  intros [->|[Hy Hy']].
  - rewrite SFmul_opp_r, SFmul_opp_l. apply SFopp_involutive.
  - destruct y as [sy| | |]; try contradiction.
    destruct y' as [sy'| | |]; try contradiction.
    destruct sy, sy'; reflexivity.
Qed.

Lemma binary_normalize_opp (m e : Z) :
  mirrored_SF (binary_normalize prec emax m e false)
              (binary_normalize prec emax (- m) e false).
Proof.
  destruct m as [|p|p]; cbn [Z.opp binary_normalize].
  - right. split; exact I.
  - left. now rewrite SFopp_binary_round.
  - left. now rewrite SFopp_binary_round.
Qed.

Lemma cond_Zopp_negb (s : bool) (m : Z) : cond_Zopp (negb s) m = - cond_Zopp s m.
Proof. destruct s; cbn; lia. Qed.

Lemma SFadd_opp (x y : spec_float) :
  mirrored_SF (SFadd prec emax x y) (SFadd prec emax (SFopp x) (SFopp y)).
Proof.
  destruct x as [sx|sx| |sx mx ex], y as [sy|sy| |sy my ey];
    cbn [SFadd SFopp]; try (no_rounding; left; reflexivity).
  - destruct sx, sy; cbn; (left; reflexivity) || (right; split; exact I).
  - destruct sx, sy; cbn; left; reflexivity.
  - rewrite !cond_Zopp_negb, <- Z.opp_add_distr.
    apply binary_normalize_opp.
Qed.

Lemma SFadd_mirrored (a a' c c' : spec_float) :
  mirrored_SF a a' -> mirrored_SF c c' ->
  mirrored_SF (SFadd prec emax a c) (SFadd prec emax a' c').
Proof.
  intros [->|[Ha Ha']] [->|[Hc Hc']].
  - apply SFadd_opp.
  - destruct c as [sc| | |]; try contradiction.
    destruct c' as [sc'| | |]; try contradiction.
    destruct a as [sa|sa| |sa ma ea]; cbn [SFadd SFopp];
      try (no_rounding; left; reflexivity).
    right. destruct sa, sc, sc'; split; exact I.
  - destruct a as [sa| | |]; try contradiction.
    destruct a' as [sa'| | |]; try contradiction.
    destruct c as [sc|sc| |sc mc ec]; cbn [SFadd SFopp];
      try (no_rounding; left; reflexivity).
    right. destruct sa, sa', sc; split; exact I.
  - destruct a as [sa| | |]; try contradiction.
    destruct a' as [sa'| | |]; try contradiction.
    destruct c as [sc| | |]; try contradiction.
    destruct c' as [sc'| | |]; try contradiction.
    right. destruct sa, sa', sc, sc'; split; exact I.
Qed.

Lemma body_conjugate (cx cy cy' : float) (st st' : zstate) :
  mirrored cy cy' -> conjugate st st' ->
  conjugate (body cx cy st) (body cx cy' st').
Proof.
  intros Hc (E1 & E2 & E3 & E4 & Hm). unfold conjugate, body.
  cbn [zx zy zx2 zy2 iter]. rewrite E1, E2, E3, E4.
  assert (M : mirrored (2 * zx st * zy st + cy) (2 * zx st * zy st' + cy')).
  { unfold mirrored. rewrite !add_spec, !(mul_spec (2 * zx st)).
    apply SFadd_mirrored; [|exact Hc]. apply SFmul_mirrored_r. exact Hm. }
  repeat split; try exact M.
  apply Prim2SF_inj. rewrite !mul_spec. apply SFmul_mirrored_square. exact M.
Qed.

Lemma while_loop_conjugate (cx cy cy' : float) (maxIter : Z) :
  mirrored cy cy' ->
  forall fuel st st', conjugate st st' ->
    conjugate (while_loop fuel cx cy maxIter st)
              (while_loop fuel cx cy' maxIter st').
Proof.
  intros Hc. induction fuel as [|fuel IH]; intros st st' H; cbn [while_loop].
  - exact H.
  - assert (E : continues maxIter st' = continues maxIter st).
    { destruct H as (_ & E2 & E3 & E4 & _). unfold continues.
      now rewrite E2, E3, E4. }
    rewrite E. destruct (continues maxIter st); [|exact H].
    apply IH. apply body_conjugate; assumption.
Qed.

Lemma escape_conjugate (cx cy cy' : float) (maxIter : Z) :
  mirrored cy cy' ->
  conjugate (escape cx cy maxIter) (escape cx cy' maxIter).
Proof.
  intros Hc. apply while_loop_conjugate; [exact Hc|].
  repeat split. right. split; exact I.
Qed.

Lemma mirrored_opp (y : float) : mirrored y (- y).
Proof. left. apply opp_spec. Qed.

(** X6. The loop treats [c] and its conjugate alike: for [(cx, -cy)] it
    takes as many turns as for [(cx, cy)] and ends with the same [zx],
    [zx2] and [zy2], so the pixel gets the same four bytes. The picture is
    symmetric about the real axis, rounding included. *)
Theorem conjugate_symmetry
  (Math_log : float -> float) (cx cy : float) (maxIter : Z) :
  iter (escape cx (- cy) maxIter) = iter (escape cx cy maxIter) /\
  zx (escape cx (- cy) maxIter) = zx (escape cx cy maxIter) /\
  zx2 (escape cx (- cy) maxIter) = zx2 (escape cx cy maxIter) /\
  zy2 (escape cx (- cy) maxIter) = zy2 (escape cx cy maxIter) /\
  shade Math_log maxIter (escape cx (- cy) maxIter)
  = shade Math_log maxIter (escape cx cy maxIter).
Proof.
  destruct (escape_conjugate cx cy (- cy) maxIter (mirrored_opp cy))
    as (E1 & E2 & E3 & E4 & _).
  split; [exact E4|]. split; [exact E1|]. split; [exact E2|].
  split; [exact E3|].
  unfold shade. rewrite E2, E3, E4. reflexivity.
Qed.

(** ** The channels [hsbToRgb] returns *)

(** For a finite hue one [case] of the [switch] is taken: the channels are
    [v], [p], [q], [t] in one of six orders, times 255, rounded. *)
Lemma hsbToRgb_channels (h s v : float) :
  finite h ->
  let s1 := (Js.Math_max 0 (Js.Math_min 100 s) / 100)%float in
  let v1 := (Js.Math_max 0 (Js.Math_min 100 v) / 100)%float in
  let q := (Js.rem (Js.rem h 360 + 360) 360 / 60)%float in
  let f := (q - Js.Math_floor q)%float in
  let p := (v1 * (1 - s1))%float in
  let q' := (v1 * (1 - s1 * f))%float in
  let t := (v1 * (1 - s1 * (1 - f)))%float in
  unit_number f /\
  exists cr cg cb : float,
    In (cr, cg, cb) [(v1, t, p); (q', v1, p); (p, v1, t);
                     (p, q', v1); (t, p, v1); (v1, p, q')] /\
    hsbToRgb h s v
    = {| r := Js.Math_round (cr * 255);
         g := Js.Math_round (cg * 255);
         b := Js.Math_round (cb * 255) |}.
Proof.
  intros Fh s1 v1 q f p q' t.
  destruct (hue_sector h Fh) as [Fq Bq]. fold q in Fq, Bq.
  split; [apply hue_fraction; assumption|].
  destruct (floor_sector q Fq Bq) as (n & Hn & Hi & _).
  pose proof (sector_switch (Js.Math_floor q) n (v1, t, p) (q', v1, p)
                (p, v1, t) (p, q', v1) (t, p, v1) (v1, p, q')
                (nan, nan, nan) Hn Hi) as Hc.
  unfold hsbToRgb. cbv zeta. fold s1 v1 q. fold f. fold p q' t.
  destruct (if (Js.rem (Js.Math_floor q) 6 =? 0)%float then (v1, t, p)
            else if (Js.rem (Js.Math_floor q) 6 =? 1)%float then (q', v1, p)
            else if (Js.rem (Js.Math_floor q) 6 =? 2)%float then (p, v1, t)
            else if (Js.rem (Js.Math_floor q) 6 =? 3)%float then (p, q', v1)
            else if (Js.rem (Js.Math_floor q) 6 =? 4)%float then (t, p, v1)
            else if (Js.rem (Js.Math_floor q) 6 =? 5)%float then (v1, p, q')
            else (nan, nan, nan)) as [[cr cg] cb].
  exists cr, cg, cb. split; [exact Hc|reflexivity].
Qed.

(** A number that is an integer between 0 and 255 is stored as that
    integer in a [Uint8ClampedArray]. *)
Lemma ToUint8Clamp_integer (x : float) (n : Z) :
  integer_value x = Some n -> 0 <= n <= 255 -> Js.ToUint8Clamp x = n.
Proof.
  unfold integer_value, Js.ToUint8Clamp.
  destruct (Prim2SF x) as [s|s| |s m e]; try discriminate.
  - intros [= <-] _. reflexivity.
  - destruct (0 <=? e) eqn:He.
    + apply Z.leb_le in He. intros [= <-] Hn.
      assert (0 < Zpos m * 2 ^ e).
      { apply Z.mul_pos_pos; [lia|]. apply Z.pow_pos_nonneg; lia. }
      destruct s; cbn [cond_Zopp] in Hn |- *; lia.
    + apply Z.leb_gt in He.
      assert (Hp : 0 < 2 ^ (- e)) by (apply Z.pow_pos_nonneg; lia).
      destruct (Zpos m mod 2 ^ (- e) =? 0) eqn:Hr; [|discriminate].
      apply Z.eqb_eq in Hr. intros [= <-] Hn.
      pose proof (Z.div_mod (Zpos m) (2 ^ (- e)) ltac:(lia)) as D.
      assert (0 < Zpos m / 2 ^ (- e)) by nia.
      destruct s; cbn [cond_Zopp] in Hn |- *; [lia|].
      rewrite Hr. replace (2 * 0 <? 2 ^ (- e)) with true
        by (symmetry; apply Z.ltb_lt; lia).
      lia.
Qed.

(** X7. For a finite hue and a saturation and brightness that are numbers
    the byte stored for each channel is the integer [hsbToRgb] returned:
    the clamping and rounding of the [Uint8ClampedArray] change nothing. *)
Theorem channels_stored_exactly (h s v : float) :
  finite h -> is_nan s = false -> is_nan v = false ->
  integer_value (r (hsbToRgb h s v))
  = Some (Js.ToUint8Clamp (r (hsbToRgb h s v))) /\
  integer_value (g (hsbToRgb h s v))
  = Some (Js.ToUint8Clamp (g (hsbToRgb h s v))) /\
  integer_value (b (hsbToRgb h s v))
  = Some (Js.ToUint8Clamp (b (hsbToRgb h s v))).
Proof.
  intros Fh Hs Hv.
  pose proof (unit_clamp s Hs) as Us. pose proof (unit_clamp v Hv) as Uv.
  destruct (hsbToRgb_channels h s v Fh) as (Uf & cr & cg & cb & Hin & ->).
  cbn [r g b].
  set (s1 := (Js.Math_max 0 (Js.Math_min 100 s) / 100)%float) in *.
  set (v1 := (Js.Math_max 0 (Js.Math_min 100 v) / 100)%float) in *.
  set (f := (_ - Js.Math_floor _)%float) in *.
  assert (Up : unit_number (v1 * (1 - s1)))
    by (apply unit_product; [|apply unit_complement]; assumption).
  assert (Uq : unit_number (v1 * (1 - s1 * f))).
  { apply unit_product; [assumption|]. apply unit_complement.
    apply unit_product; assumption. }
  assert (Ut : unit_number (v1 * (1 - s1 * (1 - f)))).
  { apply unit_product; [assumption|]. apply unit_complement.
    apply unit_product; [assumption|]. apply unit_complement. assumption. }
  assert (K : forall c, unit_number c ->
                integer_value (Js.Math_round (c * 255))
                = Some (Js.ToUint8Clamp (Js.Math_round (c * 255)))).
  { intros c Uc. destruct (unit_channel c Uc) as (n & En & Hn).
    rewrite (ToUint8Clamp_integer _ n En Hn). exact En. }
  cbn [In] in Hin.
  destruct Hin as [E|[E|[E|[E|[E|[E|[]]]]]]]; injection E as <- <- <-;
    (split; [|split]); apply K; assumption.
Qed.

Lemma channels_stored_exactly_witness :
  integer_value (r (hsbToRgb 200 125 80))
  = Some (Js.ToUint8Clamp (r (hsbToRgb 200 125 80))).
Proof.
  assert (Fh : finite 200) by exact I.
  assert (Hs : is_nan 125 = false) by reflexivity.
  assert (Hv : is_nan 80 = false) by reflexivity.
  exact (proj1 (channels_stored_exactly 200 125 80 Fh Hs Hv)).
Defined.

(** ** Hues that are not numbers *)

Lemma not_finite_cases (h : float) :
  ~ finite h -> h = nan \/ h = infinity \/ h = neg_infinity.
Proof.
  unfold finite. intros H.
  destruct (Prim2SF h) as [s|s| |s m e] eqn:E; cbn [finite_SF] in H;
    try tauto.
  - destruct s; [right; right|right; left]; apply Prim2SF_inj;
      rewrite E; reflexivity.
  - left. apply Prim2SF_inj. rewrite E. reflexivity.
Qed.

(** X8. The [switch] has no [default]: for a hue that is NaN or infinite
    no [case] matches, [r], [g] and [b] are NaN whatever the saturation and
    the brightness are, and the bytes stored for them are 0. *)
Theorem hsbToRgb_not_finite_hue (h s v : float) :
  ~ finite h ->
  r (hsbToRgb h s v) = nan /\ g (hsbToRgb h s v) = nan /\
  b (hsbToRgb h s v) = nan /\
  Js.ToUint8Clamp (r (hsbToRgb h s v)) = 0 /\
  Js.ToUint8Clamp (g (hsbToRgb h s v)) = 0 /\
  Js.ToUint8Clamp (b (hsbToRgb h s v)) = 0.
Proof.
  intros H.
  assert (E : Js.rem (Js.rem h 360 + 360) 360 = nan).
  { destruct (not_finite_cases h H) as [->|[->| ->]]; reflexivity. }
  unfold hsbToRgb. cbv zeta. rewrite E.
  change (Js.rem (Js.Math_floor (nan / 60)) 6) with nan.
  change (nan =? 0)%float with false. change (nan =? 1)%float with false.
  change (nan =? 2)%float with false. change (nan =? 3)%float with false.
  change (nan =? 4)%float with false. change (nan =? 5)%float with false.
  cbn [r g b]. change (Js.Math_round (nan * 255)) with nan.
  repeat split.
Qed.

Lemma hsbToRgb_not_finite_hue_witness :
  r (hsbToRgb infinity 125 50) = nan /\
  Js.ToUint8Clamp (r (hsbToRgb infinity 125 50)) = 0.
Proof.
  assert (H : ~ finite infinity) by (intros F; exact F).
  destruct (hsbToRgb_not_finite_hue infinity 125 50 H) as (Hr & _ & _ & Hb & _).
  split; [exact Hr|exact Hb].
Defined.

(** ** Black, grey and saturated colors *)

Lemma zero_number_Prim2SF (c : float) :
  zero_number c <-> exists s, Prim2SF c = S754_zero s.
Proof.
  unfold zero_number, finite, value. split.
  - intros [F V]. destruct (Prim2SF c) as [s|s| |s m e]; try contradiction.
    + eauto.
    + rewrite SF2R_finite in V. pose proof (F2R_pos_gt_0 m e).
      destruct s; lra.
  - intros [s ->]. split; [exact I|reflexivity].
Qed.

Lemma zero_mul_l (a b : float) :
  zero_number a -> finite b -> zero_number (a * b).
Proof.
  intros Za Fb. apply zero_number_Prim2SF in Za. destruct Za as [s Ea].
  apply zero_number_Prim2SF. rewrite mul_spec, Ea.
  unfold finite in Fb.
  destruct (Prim2SF b) as [sb|sb| |sb mb eb]; try contradiction;
    cbn; eauto.
Qed.

Lemma zero_mul_r (a b : float) :
  finite a -> zero_number b -> zero_number (a * b).
Proof.
  intros Fa Zb. apply zero_number_Prim2SF in Zb. destruct Zb as [s Eb].
  apply zero_number_Prim2SF. rewrite mul_spec, Eb.
  unfold finite in Fa.
  destruct (Prim2SF a) as [sa|sa| |sa ma ea]; try contradiction;
    cbn; eauto.
Qed.

(** A channel that is zero is stored as the byte 0. *)
Lemma zero_channel (c : float) :
  zero_number c ->
  integer_value (Js.Math_round (c * 255)) = Some 0 /\
  Js.ToUint8Clamp (Js.Math_round (c * 255)) = 0.
Proof.
  intros Zc.
  assert (Z : zero_number (c * 255)) by (apply zero_mul_l; [exact Zc|exact I]).
  apply zero_number_Prim2SF in Z. destruct Z as [s E].
  unfold Js.Math_round, integer_value, Js.ToUint8Clamp. rewrite E, E.
  split; reflexivity.
Qed.

(** The numbers at most 0, [-infinity] included. *)
Lemma leb_zero_cases (x : float) :
  (x <=? 0)%float = true ->
  match Prim2SF x with
  | S754_zero _ | S754_infinity true | S754_finite true _ _ => True
  | _ => False
  end.
Proof.
  rewrite leb_spec. change (Prim2SF 0) with (S754_zero false).
  destruct (Prim2SF x) as [s|[]| |[] m e]; cbn; auto; discriminate.
Qed.

(** [Math.max(0, Math.min(100, x))] of a number at most 0 is [+0]. *)
Lemma clamp_nonpositive (x : float) :
  (x <=? 0)%float = true -> Js.Math_max 0 (Js.Math_min 100 x) = 0%float.
Proof.
  intros H. pose proof (leb_zero_cases x H) as C.
  assert (N : is_nan x = false).
  { apply not_nan_Prim2SF. intros E. rewrite E in C. exact C. }
  assert (E1 : (100 <? x)%float = false).
  { rewrite ltb_spec.
    change (Prim2SF 100) with (S754_finite false 7036874417766400 (-46)).
    destruct (Prim2SF x) as [s|[]| |[] m e]; try contradiction; reflexivity. }
  assert (E2 : (x <? 100)%float = true).
  { rewrite ltb_spec.
    change (Prim2SF 100) with (S754_finite false 7036874417766400 (-46)).
    destruct (Prim2SF x) as [s|[]| |[] m e]; try contradiction; reflexivity. }
  assert (Em : Js.Math_min 100 x = x).
  { unfold Js.Math_min. rewrite N, E1, E2. reflexivity. }
  rewrite Em. unfold Js.Math_max. rewrite N.
  change (is_nan 0) with false. cbn [orb].
  assert (E3 : (0 <? x)%float = false).
  { rewrite ltb_spec. change (Prim2SF 0) with (S754_zero false).
    destruct (Prim2SF x) as [s|[]| |[] m e]; try contradiction; reflexivity. }
  rewrite E3. destruct (x <? 0)%float; reflexivity.
Qed.

(** X9. A brightness that is at most 0 gives black: for every finite hue
    and every saturation that is a number, [r], [g] and [b] are the
    integer 0 and the three bytes stored are 0. *)
Theorem zero_brightness_black (h s v : float) :
  finite h -> is_nan s = false -> (v <=? 0)%float = true ->
  integer_value (r (hsbToRgb h s v)) = Some 0 /\
  integer_value (g (hsbToRgb h s v)) = Some 0 /\
  integer_value (b (hsbToRgb h s v)) = Some 0 /\
  Js.ToUint8Clamp (r (hsbToRgb h s v)) = 0 /\
  Js.ToUint8Clamp (g (hsbToRgb h s v)) = 0 /\
  Js.ToUint8Clamp (b (hsbToRgb h s v)) = 0.
Proof.
  intros Fh Hs Hv.
  pose proof (unit_clamp s Hs) as Us.
  destruct (hsbToRgb_channels h s v Fh) as (Uf & cr & cg & cb & Hin & ->).
  cbn [r g b]. rewrite (clamp_nonpositive v Hv) in Hin.
  change (0 / 100)%float with 0%float in Hin.
  set (s1 := (Js.Math_max 0 (Js.Math_min 100 s) / 100)%float) in *.
  set (f := (_ - Js.Math_floor _)%float) in *.
  assert (Z0 : zero_number 0) by (split; [exact I|reflexivity]).
  assert (Zp : zero_number (0 * (1 - s1))).
  { apply zero_mul_l; [exact Z0|]. apply unit_complement. exact Us. }
  assert (Zq : zero_number (0 * (1 - s1 * f))).
  { apply zero_mul_l; [exact Z0|]. apply unit_complement.
    apply unit_product; assumption. }
  assert (Zt : zero_number (0 * (1 - s1 * (1 - f)))).
  { apply zero_mul_l; [exact Z0|]. apply unit_complement.
    apply unit_product; [assumption|]. apply unit_complement. assumption. }
  assert (K : forall c, zero_number c ->
                integer_value (Js.Math_round (c * 255)) = Some 0 /\
                Js.ToUint8Clamp (Js.Math_round (c * 255)) = 0)
    by exact zero_channel.
  cbn [In] in Hin.
  destruct Hin as [E|[E|[E|[E|[E|[E|[]]]]]]]; injection E as <- <- <-;
    repeat match goal with |- _ /\ _ => split end;
    apply K; assumption.
Qed.

Lemma zero_brightness_black_witness :
  Js.ToUint8Clamp (r (hsbToRgb 200 125 (-3))) = 0.
Proof.
  assert (Fh : finite 200) by exact I.
  assert (Hs : is_nan 125 = false) by reflexivity.
  assert (Hv : ((-3) <=? 0)%float = true) by reflexivity.
  destruct (zero_brightness_black 200 125 (-3) Fh Hs Hv)
    as (_ & _ & _ & Hr & _).
  exact Hr.
Defined.

(** Two finite numbers of the same sign and the same value are the same
    number. *)
Lemma finite_value_inj (x y : float) (s : bool) (m m' : positive) (e e' : Z) :
  Prim2SF x = S754_finite s m e -> Prim2SF y = S754_finite s m' e' ->
  value x = value y -> x = y.
Proof.
  intros Ex Ey V. apply Prim2SF_inj. rewrite Ex, Ey.
  pose proof (Prim2SF_valid x) as Vx. pose proof (Prim2SF_valid y) as Vy.
  rewrite Ex in Vx. rewrite Ey in Vy.
  unfold value in V. rewrite Ex, Ey, !SF2R_finite in V.
  assert (V' : F2R (Zpos m) e = F2R (Zpos m') e') by (destruct s; lra).
  pose proof (canonical_compare s m e s m' e' Vx Vy) as C.
  destruct (e ?= e') eqn:He; try lra.
  apply Z.compare_eq in He. subst e'.
  destruct (Pos.compare_cont Eq m m') eqn:Hm; try lra.
  apply Pos.compare_eq in Hm. now subst m'.
Qed.

(** Multiplying a finite number by 1 is exact. *)
Lemma mul_1_r (x : float) : finite x -> (x * 1)%float = x.
Proof.
  intros Fx. destruct value_1 as [F1 V1].
  destruct (mul_between x 1 x x Fx F1 Fx Fx) as [Fz Vz].
  { rewrite V1. lra. }
  assert (V : value (x * 1) = value x) by lra.
  unfold finite in Fx.
  destruct (Prim2SF x) as [s|s| |s m e] eqn:Ex; try contradiction.
  - apply Prim2SF_inj. rewrite mul_spec, Ex. destruct s; reflexivity.
  - pose proof (Prim2SF_valid x) as Vx. rewrite Ex in Vx.
    destruct (SFmul_finite s m e false 4503599627370496 (-52) Vx eq_refl)
      as [Hs _].
    replace (xorb s false) with s in Hs by (destruct s; reflexivity).
    assert (Em : Prim2SF (x * 1)
                 = SFmul prec emax (S754_finite s m e)
                     (S754_finite false 4503599627370496 (-52)))
      by (rewrite mul_spec, Ex; reflexivity).
    rewrite <- Em in Hs.
    destruct Hs as [E|[E|(m' & e' & E)]].
    + exfalso. unfold value in V. rewrite E, Ex, SF2R_finite in V.
      cbn [SF2R] in V. pose proof (F2R_pos_gt_0 m e). destruct s; lra.
    + unfold finite in Fz. rewrite E in Fz. contradiction.
    + exact (finite_value_inj (x * 1) x s m' m e' e E Ex V).
Qed.

Lemma one_minus_zero (z : float) : zero_number z -> (1 - z)%float = 1%float.
Proof.
  intros Z. apply zero_number_Prim2SF in Z. destruct Z as [s E].
  apply Prim2SF_inj. rewrite sub_spec, E. reflexivity.
Qed.

(** X10. A saturation that is at most 0 gives grey: for every finite hue
    and every brightness that is a number, [r], [g] and [b] are the same
    number, the clamped brightness times 255, rounded. *)
Theorem zero_saturation_grey (h s v : float) :
  finite h -> (s <=? 0)%float = true -> is_nan v = false ->
  r (hsbToRgb h s v)
  = Js.Math_round (Js.Math_max 0 (Js.Math_min 100 v) / 100 * 255) /\
  g (hsbToRgb h s v) = r (hsbToRgb h s v) /\
  b (hsbToRgb h s v) = r (hsbToRgb h s v).
Proof.
  intros Fh Hs Hv.
  destruct (unit_clamp v Hv) as [Fv Bv].
  destruct (hsbToRgb_channels h s v Fh) as (Uf & cr & cg & cb & Hin & ->).
  cbn [r g b]. rewrite (clamp_nonpositive s Hs) in Hin.
  change (0 / 100)%float with 0%float in Hin.
  change (1 - 0)%float with 1%float in Hin.
  set (v1 := (Js.Math_max 0 (Js.Math_min 100 v) / 100)%float) in *.
  set (f := (_ - Js.Math_floor _)%float) in *.
  assert (Z0 : zero_number 0) by (split; [exact I|reflexivity]).
  assert (E1 : (1 - 0 * f)%float = 1%float).
  { apply one_minus_zero. apply zero_mul_l; [exact Z0|apply Uf]. }
  assert (E2 : (1 - 0 * (1 - f))%float = 1%float).
  { apply one_minus_zero. apply zero_mul_l; [exact Z0|].
    apply unit_complement. exact Uf. }
  rewrite E1, E2, (mul_1_r v1 Fv) in Hin.
  cbn [In] in Hin.
  destruct Hin as [E|[E|[E|[E|[E|[E|[]]]]]]]; injection E as <- <- <-;
    repeat split.
Qed.

Lemma zero_saturation_grey_witness :
  g (hsbToRgb 200 0 80) = r (hsbToRgb 200 0 80).
Proof.
  assert (Fh : finite 200) by exact I.
  assert (Hs : (0 <=? 0)%float = true) by reflexivity.
  assert (Hv : is_nan 80 = false) by reflexivity.
  exact (proj1 (proj2 (zero_saturation_grey 200 0 80 Fh Hs Hv))).
Defined.

(** [Math.max(0, Math.min(100, s)) / 100] is 1 for a saturation of at
    least 100. *)
Lemma clamp_saturated (s : float) :
  (100 <=? s)%float = true ->
  finite (Js.Math_max 0 (Js.Math_min 100 s) / 100) /\
  value (Js.Math_max 0 (Js.Math_min 100 s) / 100) = 1%R.
Proof.
  intros H. destruct value_100 as [F100 V100]. destruct value_1 as [F1 V1].
  assert (N : is_nan s = false).
  { apply not_nan_Prim2SF. intros E. rewrite leb_spec, E in H.
    change (Prim2SF 100) with (S754_finite false 7036874417766400 (-46)) in H.
    discriminate. }
  assert (C : exists c, Js.Math_min 100 s = c /\ finite c /\ value c = 100%R).
  { unfold Js.Math_min. rewrite N. change (is_nan 100) with false.
    cbn [orb]. destruct (100 <? s)%float eqn:E1; [eauto|].
    assert (E2 : (s <=? 100)%float = true)
      by (apply ltb_false_leb; [reflexivity|exact N|exact E1]).
    assert (Fs : finite s) by (apply (leb_finite 100 s 100); assumption).
    apply leb_value in H; [|exact F100|exact Fs].
    apply leb_value in E2; [|exact Fs|exact F100].
    exists s. split.
    - destruct (s <? 100)%float eqn:E3; [|reflexivity].
      apply ltb_value in E3; [lra|exact Fs|exact F100].
    - split; [exact Fs|lra]. }
  destruct C as (c & -> & Fc & Vc).
  assert (Em : Js.Math_max 0 c = c).
  { unfold Js.Math_max. rewrite (finite_not_nan c Fc).
    change (is_nan 0) with false. cbn [orb].
    replace (0 <? c)%float with true; [reflexivity|].
    symmetry. apply ltb_value; [exact I|exact Fc|].
    change (value 0) with 0%R. lra. }
  rewrite Em.
  destruct (div_between c 100 1 1) as [F B]; try assumption.
  - rewrite V100. lra.
  - rewrite Vc, V100, V1. lra.
  - split; [exact F|]. rewrite V1 in B. lra.
Qed.

(** X11. Full saturation leaves one channel empty: for a saturation of at
    least 100 (the worker always passes 125), a finite hue and a brightness
    that is a number, one of [r], [g], [b] is the integer 0 and is stored
    as the byte 0. *)
Theorem full_saturation_zero_channel (h s v : float) :
  finite h -> (100 <=? s)%float = true -> is_nan v = false ->
  Js.ToUint8Clamp (r (hsbToRgb h s v)) = 0 \/
  Js.ToUint8Clamp (g (hsbToRgb h s v)) = 0 \/
  Js.ToUint8Clamp (b (hsbToRgb h s v)) = 0.
Proof.
  intros Fh Hs Hv.
  destruct (unit_clamp v Hv) as [Fv Bv].
  destruct (clamp_saturated s Hs) as [Fs Vs].
  destruct (hsbToRgb_channels h s v Fh) as (Uf & cr & cg & cb & Hin & ->).
  cbn [r g b].
  set (s1 := (Js.Math_max 0 (Js.Math_min 100 s) / 100)%float) in *.
  set (v1 := (Js.Math_max 0 (Js.Math_min 100 v) / 100)%float) in *.
  set (f := (_ - Js.Math_floor _)%float) in *.
  destruct value_1 as [F1 V1].
  assert (Zc : zero_number (1 - s1)).
  { destruct (sub_between 1 s1 0 0) as [F B]; try assumption; try exact I.
    - change (value 0) with 0%R. rewrite V1, Vs. lra.
    - change (value 0) with 0%R in B. split; [exact F|lra]. }
  assert (Zp : zero_number (v1 * (1 - s1)))
    by (apply zero_mul_r; assumption).
  destruct (zero_channel _ Zp) as [_ K].
  cbn [In] in Hin.
  destruct Hin as [E|[E|[E|[E|[E|[E|[]]]]]]]; injection E as <- <- <-;
    tauto.
Qed.

Lemma full_saturation_zero_channel_witness :
  Js.ToUint8Clamp (r (hsbToRgb 200 125 80)) = 0 \/
  Js.ToUint8Clamp (g (hsbToRgb 200 125 80)) = 0 \/
  Js.ToUint8Clamp (b (hsbToRgb 200 125 80)) = 0.
Proof.
  assert (Fh : finite 200) by exact I.
  assert (Hs : (100 <=? 125)%float = true) by reflexivity.
  assert (Hv : is_nan 80 = false) by reflexivity.
  exact (full_saturation_zero_channel 200 125 80 Fh Hs Hv).
Defined.

(** ** The buffer a worker posts back *)

Lemma Forall_flat_map_intro {A B} (P : B -> Prop) (f : A -> list B)
  (l : list A) :
  (forall a, Forall P (f a)) -> Forall P (flat_map f l).
Proof.
  intros H. induction l as [|a l IH]; cbn [flat_map]; [constructor|].
  apply Forall_app. split; [apply H|exact IH].
Qed.

(** In a sequence of four-byte blocks that end in 255, every fourth byte
    is 255. *)
Lemma alpha_of_blocks {A} (f : A -> list Z) (l : list A) :
  (forall a, exists r g b, f a = [r; g; b; 255]) ->
  forall k : nat, (k < length (flat_map f l))%nat -> (k mod 4 = 3)%nat ->
    flat_map f l !! k = Some 255.
Proof.
  intros Hf. induction l as [|a l IH]; intros k Hk Hm; cbn [flat_map] in *.
  - cbn in Hk. lia.
  - destruct (Hf a) as (r & g & b & E). rewrite E in *.
    destruct (Nat.lt_ge_cases k 4) as [Hlt|Hge].
    + assert (k = 3%nat) as ->
        by (destruct k as [|[|[|[|k]]]]; cbn in Hm; (discriminate || lia)).
      reflexivity.
    + rewrite lookup_app_r by (cbn; lia). cbn [length].
      rewrite length_app in Hk. cbn [length] in Hk.
      apply IH; [lia|].
      replace k with (k - 4 + 1 * 4)%nat in Hm by lia.
      rewrite Nat.Div0.mod_add in Hm. exact Hm.
Qed.

Lemma row_bytes_blocks Math_log d y :
  Forall is_byte (row_bytes Math_log d y) /\
  forall k : nat, (k < length (row_bytes Math_log d y))%nat ->
    (k mod 4 = 3)%nat -> row_bytes Math_log d y !! k = Some 255.
Proof.
  unfold row_bytes. split.
  - apply Forall_flat_map_intro. intros x. unfold pixel_bytes.
    destruct (shade_bytes Math_log (Msg.maxIter d)
                (escape (cx_of d x) (cy_of d y) (Msg.maxIter d)))
      as (r & g & b & -> & Hr & Hg & Hb).
    assert (Ha : is_byte 255) by (unfold is_byte; lia).
    constructor; [exact Hr|]. constructor; [exact Hg|].
    constructor; [exact Hb|]. constructor; [exact Ha|]. constructor.
  - apply alpha_of_blocks. intros x. unfold pixel_bytes.
    destruct (shade_bytes Math_log (Msg.maxIter d)
                (escape (cx_of d x) (cy_of d y) (Msg.maxIter d)))
      as (r & g & b & -> & _). eauto.
Qed.

(** Rows of a multiple of four bytes, one after the other. *)
Lemma alpha_of_rows {A} (F : A -> list Z) (l : list A) (n : nat) :
  (forall a, length (F a) = (4 * n)%nat) ->
  (forall a (k : nat), (k < length (F a))%nat -> (k mod 4 = 3)%nat ->
     F a !! k = Some 255) ->
  forall k : nat, (k < length (flat_map F l))%nat -> (k mod 4 = 3)%nat ->
    flat_map F l !! k = Some 255.
Proof.
  intros HL HF. induction l as [|a l IH]; intros k Hk Hm; cbn [flat_map] in *.
  - cbn in Hk. lia.
  - rewrite length_app in Hk.
    destruct (Nat.lt_ge_cases k (length (F a))) as [Hlt|Hge].
    + rewrite lookup_app_l by exact Hlt. apply HF; assumption.
    + rewrite lookup_app_r by exact Hge. apply IH; [lia|].
      rewrite HL in *.
      replace k with (k - 4 * n + n * 4)%nat in Hm by lia.
      rewrite Nat.Div0.mod_add in Hm. exact Hm.
Qed.

(** X12. What a worker posts back for a message with a width that is not
    negative and [startYInTile <= endYInTile]: the two row bounds as it
    received them, and a buffer of [4 * tileWidth * rows] bytes, each in
    [0, 255], in which every fourth byte (the alpha of a pixel) is 255. *)
Theorem worker_reply_shape (Math_log : float -> float) (d : Msg.data) :
  0 <= Msg.tileWidth d -> Msg.startYInTile d <= Msg.endYInTile d ->
  let reply := onmessage Math_log d in
  Reply.startYInTile reply = Msg.startYInTile d /\
  Reply.endYInTile reply = Msg.endYInTile d /\
  Z.of_nat (length (Reply.pixels reply))
  = 4 * Msg.tileWidth d * (Msg.endYInTile d - Msg.startYInTile d) /\
  Forall is_byte (Reply.pixels reply) /\
  (forall k : nat, (k < length (Reply.pixels reply))%nat ->
     (k mod 4 = 3)%nat -> Reply.pixels reply !! k = Some 255).
Proof.
  intros Hw Hse reply. subst reply.
  split; [reflexivity|]. split; [reflexivity|].
  split; [apply length_onmessage_pixels; assumption|].
  rewrite onmessage_pixels by assumption. split.
  - apply Forall_flat_map_intro. intros y. apply row_bytes_blocks.
  - apply (alpha_of_rows _ _ (Z.to_nat (Msg.tileWidth d))).
    + intros y. rewrite length_row_bytes. lia.
    + intros y. apply row_bytes_blocks.
Qed.

Lemma worker_reply_shape_witness :
  Z.of_nat (length (Reply.pixels
     (onmessage Example.log_linear
        (strip_message Example.small (setup Example.small) 1)))) = 16.
Proof.
  assert (Hw : 0 <= Msg.tileWidth
                      (strip_message Example.small (setup Example.small) 1))
    by (vm_compute; discriminate).
  assert (Hs : Msg.startYInTile
                 (strip_message Example.small (setup Example.small) 1)
               <= Msg.endYInTile
                    (strip_message Example.small (setup Example.small) 1))
    by (vm_compute; discriminate).
  destruct (worker_reply_shape Example.log_linear _ Hw Hs)
    as (_ & _ & Hl & _).
  exact Hl.
Defined.

(** ** Replies the handler accepts *)

(** X13. The reply to a message for a strip that is not empty passes the
    [ImageData] constructor exactly when the tile is at least one pixel
    wide; for a tile of width 0 the buffer is empty and the constructor
    throws. *)
Theorem reply_accepted_iff
  (Math_log : float -> float) (c : Config) (g : Globals) (startY endY : Z) :
  0 <= tileWidth g -> startY < endY ->
  let reply := onmessage Math_log (message c g startY endY) in
  (ImageData_ok (Reply.pixels reply) (tileWidth g)
     (Reply.endYInTile reply - Reply.startYInTile reply) = true
   <-> 1 <= tileWidth g) /\
  (tileWidth g = 0 -> Reply.pixels reply = []).
Proof.
  intros Hw Hse reply.
  assert (Hl : Z.of_nat (length (Reply.pixels reply))
               = 4 * tileWidth g * (endY - startY)).
  { subst reply.
    rewrite length_onmessage_pixels; cbn [message Msg.tileWidth
      Msg.startYInTile Msg.endYInTile]; lia. }
  split.
  - unfold ImageData_ok. subst reply. cbn [onmessage Reply.startYInTile
      Reply.endYInTile message Msg.startYInTile Msg.endYInTile] in *.
    rewrite !andb_true_iff, !Z.ltb_lt, Z.eqb_eq. lia.
  - intros E. rewrite E in Hl. destruct (Reply.pixels reply); [reflexivity|].
    cbn [length] in Hl. lia.
Qed.

Lemma reply_accepted_iff_witness :
  ImageData_ok
    (Reply.pixels (onmessage Example.log_linear
       (message Example.small (setup Example.small) 0 2)))
    (tileWidth (setup Example.small)) 2 = true.
Proof.
  assert (Hw : 0 <= tileWidth (setup Example.small))
    by (vm_compute; discriminate).
  assert (Hs : 0 < 2) by lia.
  assert (H1 : 1 <= tileWidth (setup Example.small))
    by (vm_compute; discriminate).
  exact (proj2 (proj1 (reply_accepted_iff Example.log_linear Example.small
                         (setup Example.small) 0 2 Hw Hs)) H1).
Defined.

(** ** Tiles that are never saved *)

(** X14. The canvas is only saved by a reply handler that gets past the
    [ImageData] constructor. For a tile of width 0 every handler stops at
    the constructor: the counter stays where the dispatch loop left it and
    nothing is ever saved. For a tile of height 0 every strip is empty, no
    message is posted and no handler ever runs: nothing is saved either,
    although the counter has reached [WORKER_COUNT]. *)
Theorem degenerate_tile_never_saved
  (Math_log : float -> float) (c : Config) (g : Globals) :
  1 <= WORKER_COUNT c ->
  (tileWidth g = 0 ->
   forall st, reachable Math_log c g st ->
     saved st = [] /\
     completedWorkers st = completedWorkers (renderTileWithWorkers c g)) /\
  (tileHeight g = 0 ->
   posted (renderTileWithWorkers c g) = [] /\
   completedWorkers (renderTileWithWorkers c g) = WORKER_COUNT c /\
   forall st, reachable Math_log c g st ->
     st = renderTileWithWorkers c g /\ saved st = []).
Proof.
  intros HW. split.
  - intros Hw st Hst. induction Hst as [|st st' Hst IH Hstep].
    + split; [apply renderTileWithWorkers_saved|reflexivity].
    + destruct Hstep as [st before d after Hp]. destruct IH as [IH1 IH2].
      unfold worker_onmessage, ImageData_ok. rewrite Hw.
      cbn [Z.ltb Z.compare andb negb saved completedWorkers].
      split; assumption.
  - intros Hh.
    assert (Hskip : forall i,
              (fst (strip c g i) >=? snd (strip c g i)) = true).
    { intros i. unfold strip, tileStripHeight. rewrite Hh.
      cbn [Z.opp]. rewrite Z.div_0_l by lia. cbn [Z.opp fst snd].
      apply Z.geb_le. lia. }
    assert (E : renderTileWithWorkers c g
                = {| completedWorkers := WORKER_COUNT c - 0;
                     canvas := createCanvas (tileWidth g) (tileHeight g);
                     posted := map (strip_message c g) (Js.range 0 0);
                     saved := [] |}).
    { apply renderTileWithWorkers_posted; [lia|].
      intros i Hi. rewrite Hskip.
      replace (i <? 0) with false by (symmetry; apply Z.ltb_ge; lia).
      reflexivity. }
    assert (Hp : posted (renderTileWithWorkers c g) = [])
      by (rewrite E; reflexivity).
    split; [exact Hp|]. split; [rewrite E; cbn [completedWorkers]; lia|].
    intros st Hst. induction Hst as [|st st' Hst IH Hstep].
    + split; [reflexivity|apply renderTileWithWorkers_saved].
    + exfalso. destruct IH as [-> _].
      destruct Hstep as [st before d after Hq].
      rewrite Hp in Hq. destruct before; discriminate.
Qed.

Lemma degenerate_tile_never_saved_witness :
  completedWorkers
    (renderTileWithWorkers Example.small
       {| tileX := 0; tileY := 0; tileWidth := 2; tileHeight := 0 |})
  = WORKER_COUNT Example.small.
Proof.
  assert (HW : 1 <= WORKER_COUNT Example.small) by (vm_compute; discriminate).
  exact (proj1 (proj2 (proj2
    (degenerate_tile_never_saved Example.log_linear Example.small
       {| tileX := 0; tileY := 0; tileWidth := 2; tileHeight := 0 |} HW)
    eq_refl))).
Defined.

(** ** The canvas while the workers answer *)

(** X15. While replies are awaited the canvas is never in between: each
    row is either still as [createCanvas] left it (transparent black),
    when the strip it belongs to has not been answered, or already holds
    the bytes of the finished tile; and the canvas keeps its size. *)
Theorem canvas_progress
  (Math_log : float -> float) (c : Config) (g : Globals) :
  1 <= tileWidth g -> 1 <= tileHeight g -> 1 <= WORKER_COUNT c ->
  forall st, reachable Math_log c g st ->
    canvas st
    = flat_map (fun y =>
        if pending_row (posted st) y
        then replicate (Z.to_nat (4 * tileWidth g)) 0
        else row_bytes Math_log (message c g 0 (tileHeight g)) y)
      (Js.range 0 (tileHeight g)) /\
    Z.of_nat (length (canvas st)) = 4 * tileWidth g * tileHeight g.
Proof.
  intros Hw Hh HW st Hst.
  destruct (reachable_invariant Math_log c g Hw Hh HW st Hst)
    as (idxs & _ & _ & _ & Hc & _).
  split; [exact Hc|].
  rewrite Hc. unfold partial_canvas.
  rewrite (length_flat_map_const _ _ (Z.to_nat (4 * tileWidth g))).
  - rewrite length_range. nia.
  - intros y. destruct (pending_row (posted st) y).
    + apply length_replicate.
    + rewrite length_row_bytes. reflexivity.
Qed.

Lemma canvas_progress_witness :
  Z.of_nat (length (canvas
     (render_tile Example.log_linear Example.small [1]%nat))) = 40.
Proof.
  assert (H1 : 1 <= tileWidth (setup Example.small))
    by (vm_compute; discriminate).
  assert (H2 : 1 <= tileHeight (setup Example.small))
    by (vm_compute; discriminate).
  assert (H3 : 1 <= WORKER_COUNT Example.small) by (vm_compute; discriminate).
  refine (proj2 (canvas_progress Example.log_linear Example.small
                   (setup Example.small) H1 H2 H3 _ _)).
  apply run_reachable. constructor.
Defined.

(** ** Cutting a row-major image *)

Section Blocks.

Variable F : Z -> list Z.
Variable L : nat.
Hypothesis length_F : forall i, length (F i) = L.

Lemma drop_blocks (a N : Z) :
  0 <= a <= N ->
  drop (Z.to_nat a * L) (flat_map F (Js.range 0 N))
  = flat_map F (Js.range a N).
Proof.
  intros H. rewrite (range_app 0 a N) by lia. rewrite flat_map_app.
  assert (E : length (flat_map F (Js.range 0 a)) = (Z.to_nat a * L)%nat).
  { rewrite (length_flat_map_const _ _ L) by exact length_F.
    rewrite length_range. f_equal. lia. }
  rewrite <- E. apply drop_app_length.
Qed.

Lemma take_blocks (a n N : Z) :
  0 <= n -> a + n <= N ->
  take (Z.to_nat n * L) (flat_map F (Js.range a N))
  = flat_map F (Js.range a (a + n)).
Proof.
  intros Hn H. rewrite (range_app a (a + n) N) by lia. rewrite flat_map_app.
  assert (E : length (flat_map F (Js.range a (a + n))) = (Z.to_nat n * L)%nat).
  { rewrite (length_flat_map_const _ _ L) by exact length_F.
    rewrite length_range. f_equal. lia. }
  rewrite <- E. apply take_app_length.
Qed.

(** A part of block [a], cut out of the whole sequence. *)
Lemma part_of_block (a N : Z) (k m : nat) :
  0 <= a < N -> (k + m <= L)%nat ->
  take m (drop (Z.to_nat a * L + k) (flat_map F (Js.range 0 N)))
  = take m (drop k (F a)).
Proof.
  intros Ha Hk.
  rewrite <- drop_drop. rewrite drop_blocks by lia.
  rewrite (range_cons a N) by lia. cbn [flat_map].
  rewrite drop_app_le by (rewrite length_F; lia).
  rewrite take_app_le; [reflexivity|].
  rewrite length_drop, length_F. lia.
Qed.

End Blocks.

Lemma flat_map_range_shift {B} (f : Z -> list B) (a n : Z) :
  flat_map f (Js.range a (a + n))
  = flat_map (fun k => f (a + k)) (Js.range 0 n).
Proof.
  unfold Js.range. replace (a + n - a) with n by lia.
  replace (n - 0) with n by lia.
  rewrite !flat_map_concat_map, !map_map. reflexivity.
Qed.

Lemma setup_whole (c : Config) :
  setup (whole c)
  = {| tileX := 0; tileY := 0;
       tileWidth := FULL_WIDTH c; tileHeight := FULL_HEIGHT c |}.
Proof.
  unfold setup, whole. cbn [COL COLS ROW ROWS FULL_WIDTH FULL_HEIGHT].
  change (0 =? 1 - 1) with true. cbn iota.
  rewrite !Z.div_1_r. f_equal; lia.
Qed.

(** The pixel at [(x, y)] of a tile is the pixel of the whole image at the
    tile's offset plus [(x, y)]. *)
Lemma pixel_of_whole Math_log (c : Config) (s e s' e' x y : Z) :
  pixel_bytes Math_log (message c (setup c) s e) x y
  = pixel_bytes Math_log (message (whole c) (setup (whole c)) s' e')
      (tileX (setup c) + x) (tileY (setup c) + y).
Proof.
  rewrite setup_whole.
  unfold pixel_bytes, cx_of, cy_of, xScale, yScale, message, ASPECT_RATIO.
  cbn [Msg.tileOffsetX Msg.tileOffsetY Msg.fullWidth Msg.fullHeight
       Msg.zoom Msg.aspectRatio Msg.cenX Msg.cenY Msg.maxIter
       whole FULL_WIDTH FULL_HEIGHT MAX_ITER cenX cenY zoom tileX tileY].
  cbv zeta. rewrite !Z.add_0_l. reflexivity.
Qed.

(** The rectangle of a tile of the grid lies inside the image. *)
Lemma tile_inside (c : Config) :
  0 < COLS c -> 0 < ROWS c -> 0 <= FULL_WIDTH c -> 0 <= FULL_HEIGHT c ->
  0 <= COL c < COLS c -> 0 <= ROW c < ROWS c ->
  0 <= tileX (setup c) /\ 0 <= tileWidth (setup c) /\
  tileX (setup c) + tileWidth (setup c) <= FULL_WIDTH c /\
  0 <= tileY (setup c) /\ 0 <= tileHeight (setup c) /\
  tileY (setup c) + tileHeight (setup c) <= FULL_HEIGHT c.
Proof.
  intros HC HR HW HH Hc Hr. unfold setup. cbn [tileX tileY tileWidth tileHeight].
  pose proof (Z.mul_div_le (FULL_WIDTH c) (COLS c) HC) as Dw.
  pose proof (Z.mul_div_le (FULL_HEIGHT c) (ROWS c) HR) as Dh.
  assert (Qw : 0 <= FULL_WIDTH c / COLS c) by (apply Z.div_pos; lia).
  assert (Qh : 0 <= FULL_HEIGHT c / ROWS c) by (apply Z.div_pos; lia).
  set (w := FULL_WIDTH c / COLS c) in *.
  set (h := FULL_HEIGHT c / ROWS c) in *.
  destruct (Z.eqb_spec (COL c) (COLS c - 1)),
           (Z.eqb_spec (ROW c) (ROWS c - 1)); repeat split; nia.
Qed.

(** ** Integers in binary64 *)

(** The positive numbers [k * 2^e] with [k < 2^53] are numbers of the
    format, as long as [e] is in range. *)
Lemma representable (k e : Z) :
  0 < k < 2 ^ 53 -> -1022 <= e <= 971 ->
  exists (f : float) (m : positive) (e' : Z),
    Prim2SF f = S754_finite false m e' /\ value f = F2R k e.
Proof.
  intros Hk He.
  pose proof (Zdigits2_bounds k ltac:(lia)) as [Hd1 Hd2].
  pose proof (Zdigits2_pos k ltac:(lia)) as Hd0.
  assert (Hd : Zdigits2 k <= 53).
  { destruct (Z_le_gt_dec (Zdigits2 k) 53) as [|Hgt]; [assumption|].
    assert (2 ^ 53 <= 2 ^ (Zdigits2 k - 1)) by (apply Z.pow_le_mono_r; lia).
    lia. }
  set (j := 53 - Zdigits2 k) in *.
  assert (Hm : 0 < k * 2 ^ j).
  { apply Z.mul_pos_pos; [lia|]. apply Z.pow_pos_nonneg; lia. }
  destruct (k * 2 ^ j) as [|m|m] eqn:Em; try lia.
  assert (Dm : Zpos (digits2_pos m) = 53).
  { change (Zpos (digits2_pos m)) with (Zdigits2 (Zpos m)).
    rewrite <- Em, Zdigits2_shiftl by lia. lia. }
  assert (V : valid_binary (S754_finite false m (e - j)) = true).
  { cbn [valid_binary]. apply bounded_spec. rewrite Dm, fexp_spec. lia. }
  exists (SF2Prim (S754_finite false m (e - j))), m, (e - j).
  split; [apply Prim2SF_SF2Prim; exact V|].
  unfold value. rewrite Prim2SF_SF2Prim by exact V.
  cbn [SF2R cond_Zopp]. rewrite <- Em. apply F2R_shift. lia.
Qed.

(** A finite number is determined by its value, zeros apart. *)
Lemma value_inj (x y : float) :
  finite x -> finite y -> value x = value y -> value x <> 0%R -> x = y.
Proof.
  intros Fx Fy V N. unfold finite in Fx, Fy.
  destruct (Prim2SF x) as [sx|sx| |sx mx ex] eqn:Ex; try contradiction.
  { exfalso. apply N. unfold value. rewrite Ex. reflexivity. }
  destruct (Prim2SF y) as [sy|sy| |sy my ey] eqn:Ey; try contradiction.
  { exfalso. apply N. rewrite V. unfold value. rewrite Ey. reflexivity. }
  assert (sx = sy) as <-.
  { unfold value in V. rewrite Ex, Ey, !SF2R_finite in V.
    pose proof (F2R_pos_gt_0 mx ex). pose proof (F2R_pos_gt_0 my ey).
    destruct sx, sy; try reflexivity; lra. }
  exact (finite_value_inj x y sx mx my ex ey Ex Ey V).
Qed.

(** [Js.of_Z] is exact below [2^53]. *)
Lemma of_Z_value (n : Z) :
  - 2 ^ 53 < n < 2 ^ 53 -> finite (Js.of_Z n) /\ value (Js.of_Z n) = IZR n.
Proof.
  intros Hn. unfold Js.of_Z.
  assert (E0 : F2R n 0 = IZR n) by (unfold F2R, bpow; cbn; ring).
  destruct (Z.lt_trichotomy n 0) as [Hneg|[->|Hpos]].
  - destruct (representable (- n) 0 ltac:(lia) ltac:(lia))
      as (f & m & e & Ef & Vf).
    assert (Ff : finite f) by (unfold finite; rewrite Ef; exact I).
    destruct (value_opp f Ff) as [Fo Vo].
    destruct (normalize_between n 0 false (- f) (- f) Fo Fo) as [F B].
    + rewrite Vo, Vf, F2R_opp. lra.
    + split; [exact F|]. rewrite Vo, Vf, F2R_opp, E0 in B. lra.
  - split; [exact I|reflexivity].
  - destruct (representable n 0 ltac:(lia) ltac:(lia))
      as (f & m & e & Ef & Vf).
    assert (Ff : finite f) by (unfold finite; rewrite Ef; exact I).
    destruct (normalize_between n 0 false f f Ff Ff) as [F B].
    + rewrite Vf. lra.
    + split; [exact F|]. rewrite Vf, E0 in B. lra.
Qed.

(** The sum of two finite numbers is [+0] when it is exactly 0 and they
    are not zeros. *)
Lemma add_cancel (x y : float) :
  finite x -> finite y -> (value x + value y = 0)%R ->
  value x <> 0%R -> Prim2SF (x + y) = S754_zero false.
Proof.
  intros Fx Fy V N. rewrite add_spec. unfold finite, value in *.
  destruct (Prim2SF x) as [sx|sx| |sx mx ex]; try contradiction.
  destruct (Prim2SF y) as [sy|sy| |sy my ey]; try contradiction.
  { exfalso. apply N. cbn [SF2R] in V |- *. lra. }
  unfold SF64add. cbn [SFadd].
  set (M := cond_Zopp sx (Zpos (fst (shl_align mx ex (Z.min ex ey))))
            + cond_Zopp sy (Zpos (fst (shl_align my ey (Z.min ex ey))))).
  assert (E : F2R M (Z.min ex ey) = 0%R).
  { unfold M. rewrite F2R_add, !F2R_cond_Zopp, shl_align_min.
    replace (Z.min ex ey) with (Z.min ey ex) by lia.
    rewrite shl_align_min. rewrite !SF2R_finite in V. exact V. }
  assert (M = 0) as ->.
  { unfold F2R in E. pose proof (bpow_gt_0 (Z.min ex ey)).
    apply eq_IZR. nra. }
  reflexivity.
Qed.

Lemma sub_cancel (x y : float) :
  finite x -> finite y -> (value x - value y = 0)%R ->
  value x <> 0%R -> Prim2SF (x - y) = S754_zero false.
Proof.
  intros Fx Fy V N. rewrite sub_spec. unfold finite, value in *.
  destruct (Prim2SF x) as [sx|sx| |sx mx ex]; try contradiction.
  destruct (Prim2SF y) as [sy|sy| |sy my ey]; try contradiction.
  { exfalso. apply N. cbn [SF2R] in V |- *. lra. }
  unfold SF64sub. cbn [SFsub].
  set (M := cond_Zopp sx (Zpos (fst (shl_align mx ex (Z.min ex ey))))
            - cond_Zopp sy (Zpos (fst (shl_align my ey (Z.min ex ey))))).
  assert (E : F2R M (Z.min ex ey) = 0%R).
  { unfold M. rewrite F2R_sub, !F2R_cond_Zopp, shl_align_min.
    replace (Z.min ex ey) with (Z.min ey ex) by lia.
    rewrite shl_align_min. rewrite !SF2R_finite in V. exact V. }
  assert (M = 0) as ->.
  { unfold F2R in E. pose proof (bpow_gt_0 (Z.min ex ey)).
    apply eq_IZR. nra. }
  reflexivity.
Qed.

Lemma of_Z_nonzero (n : Z) :
  - 2 ^ 53 < n < 2 ^ 53 -> n <> 0 -> value (Js.of_Z n) <> 0%R.
Proof.
  intros Hn Hne. destruct (of_Z_value n Hn) as [_ ->].
  intros H. apply eq_IZR in H. contradiction.
Qed.

Lemma of_Z_add (a b : Z) :
  - 2 ^ 53 < a < 2 ^ 53 -> - 2 ^ 53 < b < 2 ^ 53 ->
  - 2 ^ 53 < a + b < 2 ^ 53 ->
  (Js.of_Z a + Js.of_Z b)%float = Js.of_Z (a + b).
Proof.
  intros Ha Hb Hab.
  destruct (of_Z_value a Ha) as [Fa Va]. destruct (of_Z_value b Hb) as [Fb Vb].
  destruct (of_Z_value (a + b) Hab) as [Fs Vs].
  destruct (add_between (Js.of_Z a) (Js.of_Z b) (Js.of_Z (a + b))
              (Js.of_Z (a + b))) as [F B]; try assumption.
  { rewrite Va, Vb, Vs, plus_IZR. lra. }
  destruct (Z.eq_dec (a + b) 0) as [E0|Hne].
  - rewrite E0. destruct (Z.eq_dec a 0) as [->|Na].
    + replace b with 0 by lia. reflexivity.
    + apply Prim2SF_inj. rewrite add_cancel; try assumption.
      * reflexivity.
      * rewrite Va, Vb, <- plus_IZR, E0. reflexivity.
      * apply of_Z_nonzero; assumption.
  - apply value_inj; try assumption; [lra|].
    replace (value (Js.of_Z a + Js.of_Z b)) with (value (Js.of_Z (a + b)))
      by lra.
    apply of_Z_nonzero; assumption.
Qed.

Lemma of_Z_sub (a b : Z) :
  - 2 ^ 53 < a < 2 ^ 53 -> - 2 ^ 53 < b < 2 ^ 53 ->
  - 2 ^ 53 < a - b < 2 ^ 53 ->
  (Js.of_Z a - Js.of_Z b)%float = Js.of_Z (a - b).
Proof.
  intros Ha Hb Hab.
  destruct (of_Z_value a Ha) as [Fa Va]. destruct (of_Z_value b Hb) as [Fb Vb].
  destruct (of_Z_value (a - b) Hab) as [Fs Vs].
  destruct (sub_between (Js.of_Z a) (Js.of_Z b) (Js.of_Z (a - b))
              (Js.of_Z (a - b))) as [F B]; try assumption.
  { rewrite Va, Vb, Vs, minus_IZR. lra. }
  destruct (Z.eq_dec (a - b) 0) as [E0|Hne].
  - rewrite E0. destruct (Z.eq_dec a 0) as [->|Na].
    + replace b with 0 by lia. reflexivity.
    + apply Prim2SF_inj. rewrite sub_cancel; try assumption.
      * reflexivity.
      * rewrite Va, Vb, <- minus_IZR, E0. reflexivity.
      * apply of_Z_nonzero; assumption.
  - apply value_inj; try assumption; [lra|].
    replace (value (Js.of_Z a - Js.of_Z b)) with (value (Js.of_Z (a - b)))
      by lra.
    apply of_Z_nonzero; assumption.
Qed.

(** X17. The integer computations of the script are exact in binary64:
    below [2^53] the number for an integer has that integer as its value,
    and the sum and the difference of two such numbers are the numbers of
    the integer sum and difference ([tileOffsetX + x], [iter + 1],
    [maxIter - iter]). *)
Theorem integer_arithmetic_exact (a b : Z) :
  - 2 ^ 53 < a < 2 ^ 53 -> - 2 ^ 53 < b < 2 ^ 53 ->
  (finite (Js.of_Z a) /\ value (Js.of_Z a) = IZR a) /\
  (- 2 ^ 53 < a + b < 2 ^ 53 ->
   (Js.of_Z a + Js.of_Z b)%float = Js.of_Z (a + b)) /\
  (- 2 ^ 53 < a - b < 2 ^ 53 ->
   (Js.of_Z a - Js.of_Z b)%float = Js.of_Z (a - b)).
Proof.
  intros Ha Hb. split; [apply of_Z_value; exact Ha|]. split.
  - intros H. apply of_Z_add; assumption.
  - intros H. apply of_Z_sub; assumption.
Qed.

Lemma integer_arithmetic_exact_witness :
  (Js.of_Z 42000 + Js.of_Z 13999)%float = Js.of_Z 55999.
Proof.
  assert (Ha : - 2 ^ 53 < 42000 < 2 ^ 53) by (vm_compute; split; congruence).
  assert (Hb : - 2 ^ 53 < 13999 < 2 ^ 53) by (vm_compute; split; congruence).
  assert (Hs : - 2 ^ 53 < 42000 + 13999 < 2 ^ 53)
    by (vm_compute; split; congruence).
  exact (proj1 (proj2 (integer_arithmetic_exact 42000 13999 Ha Hb)) Hs).
Defined.

(** ** Integer quotients, products and comparisons in binary64 *)

Lemma of_Z_positive (n : Z) :
  0 < n < 2 ^ 53 ->
  exists m e, Prim2SF (Js.of_Z n) = S754_finite false m e.
Proof.
  intros Hn. destruct (of_Z_value n ltac:(lia)) as [F V].
  assert (P : (0 < value (Js.of_Z n))%R) by (rewrite V; apply IZR_lt; lia).
  unfold finite, value in *.
  destruct (Prim2SF (Js.of_Z n)) as [s|s| |s m e]; try contradiction.
  - cbn [SF2R] in P. lra.
  - rewrite SF2R_finite in P. pose proof (F2R_pos_gt_0 m e).
    destruct s; [lra|]. eauto.
Qed.

(** A finite number of positive value. *)
Lemma positive_finite (x : float) :
  finite x -> (0 < value x)%R ->
  exists m e, Prim2SF x = S754_finite false m e.
Proof.
  intros F P. unfold finite, value in *.
  destruct (Prim2SF x) as [s|s| |s m e]; try contradiction.
  - cbn [SF2R] in P. lra.
  - rewrite SF2R_finite in P. pose proof (F2R_pos_gt_0 m e).
    destruct s; [lra|]. eauto.
Qed.

Lemma of_Z_mul (a b : Z) :
  0 <= a < 2 ^ 53 -> 0 <= b < 2 ^ 53 -> a * b < 2 ^ 53 ->
  (Js.of_Z a * Js.of_Z b)%float = Js.of_Z (a * b).
Proof.
  intros Ha Hb Hab.
  destruct (Z.eq_dec a 0) as [->|Na].
  { rewrite Z.mul_0_l. apply Prim2SF_inj. rewrite mul_spec.
    change (Prim2SF (Js.of_Z 0)) with (S754_zero false).
    destruct (Z.eq_dec b 0) as [->|Nb]; [reflexivity|].
    destruct (of_Z_positive b ltac:(lia)) as (m & e & ->). reflexivity. }
  destruct (Z.eq_dec b 0) as [->|Nb].
  { rewrite Z.mul_0_r. apply Prim2SF_inj. rewrite mul_spec.
    change (Prim2SF (Js.of_Z 0)) with (S754_zero false).
    destruct (of_Z_positive a ltac:(lia)) as (m & e & ->). reflexivity. }
  assert (Hp : 0 < a * b) by nia.
  destruct (of_Z_value a ltac:(lia)) as [Fa Va].
  destruct (of_Z_value b ltac:(lia)) as [Fb Vb].
  destruct (of_Z_value (a * b) ltac:(lia)) as [Fp Vp].
  destruct (mul_between (Js.of_Z a) (Js.of_Z b) (Js.of_Z (a * b))
              (Js.of_Z (a * b))) as [F B]; try assumption.
  { rewrite Va, Vb, Vp, mult_IZR. lra. }
  apply value_inj; try assumption; [lra|].
  replace (value (Js.of_Z a * Js.of_Z b)) with (value (Js.of_Z (a * b)))
    by lra.
  apply of_Z_nonzero; lia.
Qed.

Lemma of_Z_eqb (a b : Z) :
  - 2 ^ 53 < a < 2 ^ 53 -> - 2 ^ 53 < b < 2 ^ 53 ->
  (Js.of_Z a =? Js.of_Z b)%float = (a =? b).
Proof.
  intros Ha Hb.
  destruct (of_Z_value a Ha) as [Fa Va]. destruct (of_Z_value b Hb) as [Fb Vb].
  pose proof (eqb_value _ _ Fa Fb) as E. rewrite Va, Vb in E.
  destruct (Z.eqb_spec a b) as [->|Hne].
  - apply E. reflexivity.
  - destruct (Js.of_Z a =? Js.of_Z b)%float; [|reflexivity].
    exfalso. apply Hne. apply eq_IZR. apply E. reflexivity.
Qed.

Lemma of_Z_ltb (a b : Z) :
  - 2 ^ 53 < a < 2 ^ 53 -> - 2 ^ 53 < b < 2 ^ 53 ->
  (Js.of_Z a <? Js.of_Z b)%float = (a <? b).
Proof.
  intros Ha Hb.
  destruct (of_Z_value a Ha) as [Fa Va]. destruct (of_Z_value b Hb) as [Fb Vb].
  pose proof (ltb_value _ _ Fa Fb) as E. rewrite Va, Vb in E.
  destruct (Z.ltb_spec a b) as [Hlt|Hge].
  - apply E. apply IZR_lt. exact Hlt.
  - destruct (Js.of_Z a <? Js.of_Z b)%float; [|reflexivity].
    exfalso. assert (a < b) by (apply lt_IZR; apply E; reflexivity). lia.
Qed.

Lemma of_Z_leb (a b : Z) :
  - 2 ^ 53 < a < 2 ^ 53 -> - 2 ^ 53 < b < 2 ^ 53 ->
  (Js.of_Z a <=? Js.of_Z b)%float = (a <=? b).
Proof.
  intros Ha Hb.
  destruct (of_Z_value a Ha) as [Fa Va]. destruct (of_Z_value b Hb) as [Fb Vb].
  pose proof (leb_value _ _ Fa Fb) as E. rewrite Va, Vb in E.
  destruct (Z.leb_spec a b) as [Hle|Hgt].
  - apply E. apply IZR_le. exact Hle.
  - destruct (Js.of_Z a <=? Js.of_Z b)%float; [|reflexivity].
    exfalso. assert (a <= b) by (apply le_IZR; apply E; reflexivity). lia.
Qed.

Lemma of_Z_min (a b : Z) :
  0 <= a < 2 ^ 53 -> 0 <= b < 2 ^ 53 ->
  Js.Math_min (Js.of_Z a) (Js.of_Z b) = Js.of_Z (Z.min a b).
Proof.
  intros Ha Hb. unfold Js.Math_min.
  destruct (of_Z_value a ltac:(lia)) as [Fa _].
  destruct (of_Z_value b ltac:(lia)) as [Fb _].
  rewrite (finite_not_nan _ Fa), (finite_not_nan _ Fb). cbn [orb].
  rewrite !of_Z_ltb by lia.
  destruct (Z.ltb_spec a b); [f_equal; lia|].
  destruct (Z.ltb_spec b a); [f_equal; lia|].
  assert (a = b) as -> by lia. rewrite Z.min_id.
  destruct (get_sign (Js.of_Z b)); reflexivity.
Qed.

(** The integer part of a positive number, read off its value. *)
Lemma floor_value (x : float) (q : Z) :
  finite x -> (0 < value x)%R -> 0 <= q < 2 ^ 53 ->
  (IZR q <= value x < IZR q + 1)%R ->
  Js.Math_floor x = Js.of_Z q.
Proof.
  intros F P Hq B.
  destruct (positive_finite x F P) as (m & e & E).
  unfold Js.Math_floor. rewrite E.
  unfold value in B, P. rewrite E, SF2R_finite in B, P.
  destruct (Z.leb_spec 0 e) as [He|He].
  - (* an integer already *)
    assert (V : F2R (Zpos m) e = IZR (Zpos m * 2 ^ e)).
    { unfold F2R. rewrite bpow_IZR by exact He. now rewrite mult_IZR. }
    rewrite V in B.
    assert (Zpos m * 2 ^ e = q).
    { destruct B as [B1 B2]. apply le_IZR in B1.
      rewrite <- plus_IZR in B2. apply lt_IZR in B2. lia. }
    destruct (of_Z_value q ltac:(lia)) as [Fq Vq].
    apply value_inj; try assumption.
    + rewrite Vq. unfold value. rewrite E, SF2R_finite, V. now f_equal.
    + unfold value. rewrite E, SF2R_finite. lra.
  - pose proof (F2R_floor (Zpos m) (- e) ltac:(lia)) as Fl.
    rewrite Z.opp_involutive in Fl.
    f_equal.
    assert (IZR (Zpos m / 2 ^ (- e)) < IZR q + 1)%R by lra.
    assert (IZR q < IZR (Zpos m / 2 ^ (- e)) + 1)%R by lra.
    rewrite <- plus_IZR in *.
    assert (Zpos m / 2 ^ (- e) < q + 1) by (apply lt_IZR; assumption).
    assert (q < Zpos m / 2 ^ (- e) + 1) by (apply lt_IZR; assumption).
    lia.
Qed.

(** The least integer above a positive number, read off its value. *)
Lemma ceil_value (x : float) (q : Z) :
  finite x -> (0 < value x)%R -> 0 < q < 2 ^ 53 ->
  (IZR q - 1 < value x <= IZR q)%R ->
  Js.Math_ceil x = Js.of_Z q.
Proof.
  intros F P Hq B.
  destruct (positive_finite x F P) as (m & e & E).
  unfold Js.Math_ceil. rewrite E.
  unfold value in B, P. rewrite E, SF2R_finite in B, P.
  destruct (Z.leb_spec 0 e) as [He|He].
  - assert (V : F2R (Zpos m) e = IZR (Zpos m * 2 ^ e)).
    { unfold F2R. rewrite bpow_IZR by exact He. now rewrite mult_IZR. }
    rewrite V in B.
    assert (Zpos m * 2 ^ e = q).
    { destruct B as [B1 B2]. apply le_IZR in B2.
      rewrite <- minus_IZR in B1. apply lt_IZR in B1. lia. }
    destruct (of_Z_value q ltac:(lia)) as [Fq Vq].
    apply value_inj; try assumption.
    + rewrite Vq. unfold value. rewrite E, SF2R_finite, V. now f_equal.
    + unfold value. rewrite E, SF2R_finite. lra.
  - pose proof (F2R_floor (Zpos m) (- e) ltac:(lia)) as Fl.
    rewrite Z.opp_involutive in Fl.
    f_equal.
    set (k := 2 ^ (- e)) in *.
    assert (Hk : 0 < k) by (apply Z.pow_pos_nonneg; lia).
    pose proof (Z.div_mod (Zpos m) k ltac:(lia)) as Dm.
    pose proof (Z.mod_pos_bound (Zpos m) k Hk) as Mb.
    destruct (Z.eqb_spec (Zpos m mod k) 0) as [R0|Rn].
    + (* the number is the integer [m / k] *)
      assert (V : F2R (Zpos m) e = IZR (Zpos m / k)).
      { replace (Zpos m) with (Zpos m / k * 2 ^ (- e)) at 1 by (fold k; lia).
        pose proof (F2R_int (Zpos m / k) (- e) ltac:(lia)) as Fi.
        rewrite Z.opp_involutive in Fi. exact Fi. }
      rewrite V in B. destruct B as [B1 B2]. apply le_IZR in B2.
      rewrite <- minus_IZR in B1. apply lt_IZR in B1. lia.
    + (* strictly between [m / k] and [m / k + 1] *)
      assert (V : (IZR (Zpos m / k) < F2R (Zpos m) e)%R).
      { pose proof (F2R_int (Zpos m / k) (- e) ltac:(lia)) as Fi.
        rewrite Z.opp_involutive in Fi. rewrite <- Fi.
        apply F2R_lt. fold k. lia. }
      assert (IZR (Zpos m / k) < IZR q)%R by lra.
      assert (IZR q - 1 < IZR (Zpos m / k) + 1)%R by lra.
      rewrite <- plus_IZR, <- minus_IZR in *.
      assert (Zpos m / k < q) by (apply lt_IZR; assumption).
      assert (q - 1 < Zpos m / k + 1) by (apply lt_IZR; assumption).
      lia.
Qed.

(** The quotient of two integers as a real number, between two fractions
    with a power of two below. *)
Lemma IZR_div_le_F2R (a b M j : Z) :
  0 < b -> 0 <= j -> a * 2 ^ j <= M * b ->
  (IZR a / IZR b <= F2R M (- j))%R.
Proof.
  intros Hb Hj H.
  assert (Hb' : (0 < IZR b)%R) by (apply IZR_lt; lia).
  assert (Hp : (0 < IZR (2 ^ j))%R)
    by (apply IZR_lt; apply Z.pow_pos_nonneg; lia).
  assert (E : F2R M (- j) = (IZR M / IZR (2 ^ j))%R).
  { unfold F2R, bpow. rewrite <- (bpow_IZR j Hj). unfold bpow.
    rewrite powerRZ_neg'. reflexivity. }
  rewrite E. apply IZR_le in H. rewrite !mult_IZR in H.
  replace (IZR a / IZR b)%R
    with (IZR a * IZR (2 ^ j) * / (IZR b * IZR (2 ^ j)))%R by (field; lra).
  replace (IZR M / IZR (2 ^ j))%R
    with (IZR M * IZR b * / (IZR b * IZR (2 ^ j)))%R by (field; lra).
  apply Rmult_le_compat_r; [|exact H].
  left. apply Rinv_0_lt_compat. nra.
Qed.

Lemma F2R_le_IZR_div (a b M j : Z) :
  0 < b -> 0 <= j -> M * b <= a * 2 ^ j ->
  (F2R M (- j) <= IZR a / IZR b)%R.
Proof.
  intros Hb Hj H.
  assert (Hb' : (0 < IZR b)%R) by (apply IZR_lt; lia).
  assert (Hp : (0 < IZR (2 ^ j))%R)
    by (apply IZR_lt; apply Z.pow_pos_nonneg; lia).
  assert (E : F2R M (- j) = (IZR M / IZR (2 ^ j))%R).
  { unfold F2R, bpow. rewrite <- (bpow_IZR j Hj). unfold bpow.
    rewrite powerRZ_neg'. reflexivity. }
  rewrite E. apply IZR_le in H. rewrite !mult_IZR in H.
  replace (IZR a / IZR b)%R
    with (IZR a * IZR (2 ^ j) * / (IZR b * IZR (2 ^ j)))%R by (field; lra).
  replace (IZR M / IZR (2 ^ j))%R
    with (IZR M * IZR b * / (IZR b * IZR (2 ^ j)))%R by (field; lra).
  apply Rmult_le_compat_r; [|exact H].
  left. apply Rinv_0_lt_compat. nra.
Qed.

(** For an integer [q] below [2^52], a step [2^-j] such that [q + 1] still
    has 53 bits on the grid of that step, and [q] has all of them. *)
Lemma grid_step (q : Z) :
  0 <= q < 2 ^ 52 ->
  exists j, 1 <= j <= 53 /\ (q + 1) * 2 ^ j <= 2 ^ 53 /\
            (0 < q -> 2 ^ 52 <= q * 2 ^ j) /\ (q = 0 -> j = 53).
Proof.
  intros Hq. destruct (Z.eq_dec q 0) as [->|Hne].
  - exists 53. split; [lia|]. split; [reflexivity|]. split; [lia|reflexivity].
  - pose proof (Zdigits2_bounds q ltac:(lia)) as [Hd1 Hd2].
    pose proof (Zdigits2_pos q ltac:(lia)) as Hd0.
    assert (Hd : Zdigits2 q <= 52).
    { destruct (Z_le_gt_dec (Zdigits2 q) 52) as [|Hgt]; [assumption|].
      assert (2 ^ 52 <= 2 ^ (Zdigits2 q - 1))
        by (apply Z.pow_le_mono_r; lia).
      lia. }
    exists (53 - Zdigits2 q). split; [lia|].
    assert (E1 : 2 ^ Zdigits2 q * 2 ^ (53 - Zdigits2 q) = 2 ^ 53).
    { rewrite <- Z.pow_add_r by lia. f_equal. lia. }
    assert (E2 : 2 ^ (Zdigits2 q - 1) * 2 ^ (53 - Zdigits2 q) = 2 ^ 52).
    { rewrite <- Z.pow_add_r by lia. f_equal. lia. }
    assert (Hp : 0 < 2 ^ (53 - Zdigits2 q)) by (apply Z.pow_pos_nonneg; lia).
    split; [nia|]. split; [intros _; nia|]. intros; lia.
Qed.

(** [Math.floor(a / b)] is the integer quotient. *)
Lemma floor_div (a b : Z) :
  0 <= a < 2 ^ 52 -> 0 < b < 2 ^ 52 ->
  Js.Math_floor (Js.of_Z a / Js.of_Z b) = Js.of_Z (a / b).
Proof.
  intros Ha Hb.
  destruct (Z.eq_dec a 0) as [->|Na].
  { rewrite Z.div_0_l by lia.
    assert (E : (Js.of_Z 0 / Js.of_Z b)%float = Js.of_Z 0).
    { apply Prim2SF_inj. rewrite div_spec.
      change (Prim2SF (Js.of_Z 0)) with (S754_zero false).
      destruct (of_Z_positive b ltac:(lia)) as (m & e & ->). reflexivity. }
    rewrite E. reflexivity. }
  destruct (of_Z_value a ltac:(lia)) as [Fa Va].
  destruct (of_Z_value b ltac:(lia)) as [Fb Vb].
  pose proof (Z.mul_div_le a b ltac:(lia)) as Q1.
  pose proof (Z.mul_succ_div_gt a b ltac:(lia)) as Q2.
  assert (Q0 : 0 <= a / b) by (apply Z.div_pos; lia).
  assert (Qa : a / b <= a) by nia.
  set (q := a / b) in *.
  destruct (grid_step q ltac:(lia)) as (j & Hj & G1 & G2 & G3).
  assert (Hp : 0 < 2 ^ j) by (apply Z.pow_pos_nonneg; lia).
  assert (Bj : b <= 2 ^ j).
  { destruct (Z.eq_dec q 0) as [E0|Nq]; [|specialize (G2 ltac:(lia)); nia].
    rewrite (G3 E0). lia. }
  (* a number of the format between the quotient and [q + 1] *)
  destruct (representable ((q + 1) * 2 ^ j - 1) (- j) ltac:(nia) ltac:(lia))
    as (hi & mh & eh & Eh & Vh).
  assert (Fh : finite hi) by (unfold finite; rewrite Eh; exact I).
  assert (Hhi : (IZR a / IZR b <= value hi)%R).
  { rewrite Vh. apply IZR_div_le_F2R; try lia. nia. }
  assert (Hlt : (value hi < IZR q + 1)%R).
  { rewrite Vh, <- plus_IZR, <- (F2R_int (q + 1) j) by lia.
    apply F2R_lt. lia. }
  (* and one between 0 and the quotient *)
  assert (L : exists lo, finite lo /\ (0 < value lo)%R /\
                (IZR q <= value lo)%R /\ (value lo <= IZR a / IZR b)%R).
  { destruct (Z.eq_dec q 0) as [E0|Nq].
    - destruct (representable 1 (- 52) ltac:(lia) ltac:(lia))
        as (lo & ml & el & El & Vl).
      exists lo. split; [unfold finite; rewrite El; exact I|].
      assert (P : (0 < value lo)%R).
      { rewrite Vl. unfold F2R. pose proof (bpow_gt_0 (- 52)). lra. }
      split; [exact P|]. split; [rewrite E0; lra|].
      rewrite Vl. apply (F2R_le_IZR_div a b 1 52); lia.
    - destruct (of_Z_value q ltac:(lia)) as [Fq Vq].
      exists (Js.of_Z q). split; [exact Fq|]. rewrite Vq.
      assert (P : (0 < IZR q)%R) by (apply IZR_lt; lia).
      split; [exact P|]. split; [lra|].
      pose proof (F2R_le_IZR_div a b q 0 ltac:(lia) ltac:(lia)) as K.
      unfold F2R, bpow in K. cbn [Z.opp powerRZ] in K.
      rewrite Rmult_1_r in K. apply K. lia. }
  destruct L as (lo & Fl & Pl & Hlo1 & Hlo2).
  destruct (div_between (Js.of_Z a) (Js.of_Z b) lo hi) as [F B];
    try assumption.
  { rewrite Vb. apply not_0_IZR. lia. }
  { rewrite Va, Vb. split; assumption. }
  apply floor_value; try assumption; try lra. lia.
Qed.

(** [Math.ceil(a / b)] is the integer quotient rounded up. *)
Lemma ceil_div (a b : Z) :
  0 <= a < 2 ^ 52 -> 0 < b < 2 ^ 52 ->
  Js.Math_ceil (Js.of_Z a / Js.of_Z b) = Js.of_Z (- ((- a) / b)).
Proof.
  intros Ha Hb.
  destruct (Z.eq_dec a 0) as [->|Na].
  { cbn [Z.opp]. rewrite Z.div_0_l by lia. cbn [Z.opp].
    assert (E : (Js.of_Z 0 / Js.of_Z b)%float = Js.of_Z 0).
    { apply Prim2SF_inj. rewrite div_spec.
      change (Prim2SF (Js.of_Z 0)) with (S754_zero false).
      destruct (of_Z_positive b ltac:(lia)) as (m & e & ->). reflexivity. }
    rewrite E. reflexivity. }
  destruct (of_Z_value a ltac:(lia)) as [Fa Va].
  destruct (of_Z_value b ltac:(lia)) as [Fb Vb].
  pose proof (ceil_bounds a b ltac:(lia)) as Q.
  set (q := - ((- a) / b)) in *.
  assert (Q1 : 1 <= q) by nia.
  assert (Qa : q <= a) by nia.
  destruct (grid_step (q - 1) ltac:(lia)) as (j & Hj & G1 & G2 & G3).
  replace (q - 1 + 1) with q in G1 by lia.
  assert (Hp : 1 < 2 ^ j).
  { apply (Z.pow_lt_mono_r 2 0 j); lia. }
  assert (Bj : b <= 2 ^ j).
  { destruct (Z.eq_dec q 1) as [E1|Nq]; [|specialize (G2 ltac:(lia)); nia].
    rewrite (G3 ltac:(lia)). lia. }
  (* a number of the format between [q - 1] and the quotient *)
  destruct (representable ((q - 1) * 2 ^ j + 1) (- j) ltac:(nia) ltac:(lia))
    as (lo & ml & el & El & Vl).
  assert (Fl : finite lo) by (unfold finite; rewrite El; exact I).
  assert (Hlo : (value lo <= IZR a / IZR b)%R).
  { rewrite Vl. apply F2R_le_IZR_div; try lia. nia. }
  assert (Hgt : (IZR q - 1 < value lo)%R).
  { rewrite Vl, <- minus_IZR, <- (F2R_int (q - 1) j) by lia.
    apply F2R_lt. lia. }
  destruct (of_Z_value q ltac:(lia)) as [Fq Vq].
  assert (Hhi : (IZR a / IZR b <= value (Js.of_Z q))%R).
  { rewrite Vq.
    pose proof (IZR_div_le_F2R a b q 0 ltac:(lia) ltac:(lia)) as K.
    unfold F2R, bpow in K. cbn [Z.opp powerRZ] in K.
    rewrite Rmult_1_r in K. apply K. lia. }
  destruct (div_between (Js.of_Z a) (Js.of_Z b) lo (Js.of_Z q)) as [F B];
    try assumption.
  { rewrite Vb. apply not_0_IZR. lia. }
  { rewrite Va, Vb. split; assumption. }
  assert (P0 : (0 <= IZR q - 1)%R).
  { rewrite <- minus_IZR. apply IZR_le. lia. }
  apply ceil_value; try assumption; try lra; try lia.
Qed.

(** ** [setup] and the strips, on numbers and on integers *)

(** [setup] on numbers computes the integers of [Main.setup]. *)
Lemma setup_exact (c : Config) :
  0 <= FULL_WIDTH c < 2 ^ 52 -> 0 <= FULL_HEIGHT c < 2 ^ 52 ->
  0 < ROWS c < 2 ^ 52 -> 0 < COLS c < 2 ^ 52 ->
  0 <= ROW c < ROWS c -> 0 <= COL c < COLS c ->
  Number.setup c = Number.of_Globals (setup c).
Proof.
  intros HW HH HR HC Hr Hc.
  assert (Axis : forall F N k, 0 <= F < 2 ^ 52 -> 0 < N < 2 ^ 52 ->
            0 <= k < N ->
            let q := Js.Math_floor (Js.of_Z F / Js.of_Z N) in
            (Js.of_Z k * q)%float = Js.of_Z (k * (F / N)) /\
            (if (Js.of_Z k =? Js.of_Z N - 1)%float
             then (q + (Js.of_Z F - q * Js.of_Z N))%float else q)
            = Js.of_Z (if k =? N - 1 then F / N + (F - F / N * N)
                       else F / N)).
  { clear. intros F N k HF HN Hk. cbv zeta.
    rewrite floor_div by assumption.
    pose proof (Z.mul_div_le F N ltac:(lia)) as Q1.
    assert (Q0 : 0 <= F / N) by (apply Z.div_pos; lia).
    assert (Qa : F / N <= F) by nia.
    set (w := F / N) in *.
    split; [apply of_Z_mul; try lia; nia|].
    change 1%float with (Js.of_Z 1).
    rewrite of_Z_sub, of_Z_eqb by lia.
    destruct (k =? N - 1); [|reflexivity].
    rewrite of_Z_mul by (try lia; nia).
    rewrite of_Z_sub by lia. apply of_Z_add; lia. }
  destruct (Axis (FULL_WIDTH c) (COLS c) (COL c) HW HC Hc) as [X1 X2].
  destruct (Axis (FULL_HEIGHT c) (ROWS c) (ROW c) HH HR Hr) as [Y1 Y2].
  cbv zeta in X1, X2, Y1, Y2.
  unfold Number.setup, Number.of_Globals, setup. cbv zeta.
  cbn [tileX tileY tileWidth tileHeight].
  rewrite X1, X2, Y1, Y2. reflexivity.
Qed.

(** The strips on numbers are the strips on integers. *)
Lemma strip_exact (c : Config) (g : Globals) :
  0 <= tileHeight g < 2 ^ 52 -> 1 <= WORKER_COUNT c < 2 ^ 52 ->
  Number.tileStripHeight c (Number.of_Globals g)
  = Js.of_Z (tileStripHeight c g) /\
  (forall i, 0 <= i < WORKER_COUNT c ->
     Number.strip c (Number.of_Globals g) (Js.of_Z i)
     = (Js.of_Z (fst (strip c g i)), Js.of_Z (snd (strip c g i))) /\
     Number.skipped (Number.strip c (Number.of_Globals g) (Js.of_Z i))
     = (fst (strip c g i) >=? snd (strip c g i))).
Proof.
  intros HH HW.
  assert (ES : Number.tileStripHeight c (Number.of_Globals g)
               = Js.of_Z (tileStripHeight c g)).
  { unfold Number.tileStripHeight, Number.of_Globals, tileStripHeight.
    cbn [Number.tileHeight]. apply ceil_div; lia. }
  split; [exact ES|]. intros i Hi.
  pose proof (ceil_bounds (tileHeight g) (WORKER_COUNT c) ltac:(lia)) as Hb.
  fold (tileStripHeight c g) in Hb.
  assert (S0 : 0 <= tileStripHeight c g) by nia.
  assert (E : Number.strip c (Number.of_Globals g) (Js.of_Z i)
              = (Js.of_Z (fst (strip c g i)), Js.of_Z (snd (strip c g i)))).
  { unfold Number.strip. cbv zeta. rewrite ES.
    unfold strip. cbn [fst snd Number.of_Globals Number.tileHeight].
    set (S := tileStripHeight c g) in *.
    rewrite of_Z_mul by (try lia; nia).
    rewrite of_Z_add by (try lia; nia).
    rewrite of_Z_min by (try lia; nia).
    reflexivity. }
  split; [exact E|].
  rewrite E. unfold Number.skipped. cbn [fst snd].
  unfold strip. cbn [fst snd].
  set (S := tileStripHeight c g) in *.
  rewrite of_Z_leb by (try lia; nia).
  rewrite Z.geb_leb. reflexivity.
Qed.

(** The loop counter takes the values [i, i + 1, ..., WORKER_COUNT - 1] and
    the loop ends. *)
Lemma counter_exact (c : Config) (fuel : nat) : forall i,
  0 <= i <= WORKER_COUNT c -> WORKER_COUNT c < 2 ^ 52 ->
  WORKER_COUNT c - i <= Z.of_nat fuel ->
  Number.counter fuel c (Js.of_Z i)
  = map Js.of_Z (Js.range i (WORKER_COUNT c)).
Proof.
  induction fuel as [|fuel IH]; intros i Hi HW Hf.
  - rewrite range_nil by lia. reflexivity.
  - cbn [Number.counter]. rewrite of_Z_ltb by lia.
    destruct (Z.ltb_spec i (WORKER_COUNT c)) as [Hlt|Hge].
    + rewrite range_cons by lia. cbn [map]. f_equal.
      change 1%float with (Js.of_Z 1). rewrite of_Z_add by lia.
      apply IH; lia.
    + rewrite range_nil by lia. reflexivity.
Qed.

(** ** Tile geometry *)

(** C3, for sizes below [2^52]. For such an image and grid, [setup] computes
    in binary64, for every grid position, exactly the integers of the claim:
    the offsets [col * w] and [row * h] and the sizes [w] and [h], with
    [w = floor(FULL_WIDTH / COLS)] and [h = floor(FULL_HEIGHT / ROWS)], the
    last column and the last row taking the remainders. These rectangles
    partition the full image: every pixel of
    [[0, FULL_WIDTH) x [0, FULL_HEIGHT)] lies in some tile (no gap), two
    tiles that share a pixel are the same tile (pairwise disjoint), no tile
    reaches outside the image, and the pixel counts of the tiles add up to
    [FULL_WIDTH * FULL_HEIGHT]. *)
Theorem tiles_partition_full_image (c : Config) :
  0 < FULL_WIDTH c < 2 ^ 52 -> 0 < FULL_HEIGHT c < 2 ^ 52 ->
  0 < ROWS c < 2 ^ 52 -> 0 < COLS c < 2 ^ 52 ->
  let w := FULL_WIDTH c / COLS c in
  let h := FULL_HEIGHT c / ROWS c in
  (forall row col, 0 <= row < ROWS c -> 0 <= col < COLS c ->
     Number.setup (grid_position c row col)
     = Number.of_Globals (tile c row col) /\
     tile c row col
     = {| tileX := col * w;
          tileY := row * h;
          tileWidth :=
            if col =? COLS c - 1 then w + (FULL_WIDTH c - w * COLS c) else w;
          tileHeight :=
            if row =? ROWS c - 1 then h + (FULL_HEIGHT c - h * ROWS c)
            else h |}) /\
  (forall px py, 0 <= px < FULL_WIDTH c -> 0 <= py < FULL_HEIGHT c ->
     exists row col, 0 <= row < ROWS c /\ 0 <= col < COLS c /\
       in_tile (tile c row col) px py) /\
  (forall row col row' col' px py,
     0 <= row < ROWS c -> 0 <= col < COLS c ->
     0 <= row' < ROWS c -> 0 <= col' < COLS c ->
     in_tile (tile c row col) px py -> in_tile (tile c row' col') px py ->
     row = row' /\ col = col') /\
  (forall row col px py, 0 <= row < ROWS c -> 0 <= col < COLS c ->
     in_tile (tile c row col) px py ->
     0 <= px < FULL_WIDTH c /\ 0 <= py < FULL_HEIGHT c) /\
  total_pixels c = FULL_WIDTH c * FULL_HEIGHT c.
Proof.
  intros BW BH BR BC. cbv zeta.
  assert (HW : 0 < FULL_WIDTH c) by lia.
  assert (HH : 0 < FULL_HEIGHT c) by lia.
  assert (HR : 0 < ROWS c) by lia.
  assert (HC : 0 < COLS c) by lia.
  split.
  { intros row col Hr Hc. split; [|reflexivity].
    apply (setup_exact (grid_position c row col));
      cbn [grid_position FULL_WIDTH FULL_HEIGHT ROWS COLS ROW COL]; lia. }
  unfold in_tile, tile, setup;
    cbn [tileX tileY tileWidth tileHeight
         FULL_WIDTH FULL_HEIGHT ROWS COLS ROW COL].
  split; [|split; [|split]].
  - intros px py Hx Hy.
    destruct (axis_cover _ _ HW HC px Hx) as (col & Hcol & Hpx).
    destruct (axis_cover _ _ HH HR py Hy) as (row & Hrow & Hpy).
    exists row, col. auto.
  - intros row col row' col' px py Hr Hc Hr' Hc' [Hx Hy] [Hx' Hy']. split.
    + exact (axis_unique _ _ HH HR row row' py Hr Hr' Hy Hy').
    + exact (axis_unique _ _ HW HC col col' px Hc Hc' Hx Hx').
  - intros row col px py Hr Hc [Hx Hy]. split.
    + exact (axis_inside _ _ HW HC col px Hc Hx).
    + exact (axis_inside _ _ HH HR row py Hr Hy).
  - unfold total_pixels, tile, setup;
      cbn [tileX tileY tileWidth tileHeight
           FULL_WIDTH FULL_HEIGHT ROWS COLS ROW COL].
    rewrite sum_flat_map.
    erewrite map_ext; [|intros row; apply sum_scale_r].
    rewrite sum_scale_l.
    rewrite (axis_total (FULL_WIDTH c) (COLS c) HC).
    rewrite (axis_total (FULL_HEIGHT c) (ROWS c) HR).
    reflexivity.
Qed.

Lemma tiles_partition_full_image_witness :
  Number.setup (grid_position Example.published 3 3)
  = Number.of_Globals
      {| tileX := 42000; tileY := 24000;
         tileWidth := 14000; tileHeight := 8000 |} /\
  total_pixels Example.published = 56000 * 32000.
Proof.
  assert (H1 : 0 < FULL_WIDTH Example.published < 2 ^ 52)
    by (vm_compute; split; reflexivity).
  assert (H2 : 0 < FULL_HEIGHT Example.published < 2 ^ 52)
    by (vm_compute; split; reflexivity).
  assert (H3 : 0 < ROWS Example.published < 2 ^ 52)
    by (vm_compute; split; reflexivity).
  assert (H4 : 0 < COLS Example.published < 2 ^ 52)
    by (vm_compute; split; reflexivity).
  assert (Hr : 0 <= 3 < ROWS Example.published)
    by (vm_compute; split; congruence).
  assert (Hc : 0 <= 3 < COLS Example.published)
    by (vm_compute; split; congruence).
  destruct (tiles_partition_full_image Example.published H1 H2 H3 H4)
    as (Hg & _ & _ & _ & Ht).
  split; [|exact Ht].
  exact (proj1 (Hg 3 3 Hr Hc)).
Defined.

(** C3 as stated, for every positive size, fails: the products and sums of
    [setup] are rounded to binary64. For an image [2^53 + 2] pixels wide cut
    into 3 columns, [w = 3002399751580331] and [w * 3] is rounded to [2^53],
    so the last column gets 2 leftover pixels instead of 1: it starts at
    [2 * w] and ends one pixel right of the image. *)
Lemma tiles_leave_large_image :
  ~ (forall c : Config,
       0 < FULL_WIDTH c -> 0 < FULL_HEIGHT c -> 0 < ROWS c -> 0 < COLS c ->
       forall row col, 0 <= row < ROWS c -> 0 <= col < COLS c ->
       exists x w : Z,
         integer_value (Number.tileX (Number.setup (grid_position c row col)))
         = Some x /\
         integer_value
           (Number.tileWidth (Number.setup (grid_position c row col)))
         = Some w /\
         x + w <= FULL_WIDTH c).
Proof.
  intros H.
  set (c := {| MAX_ITER := 4500; ESCAPE_RADIUS := 4; WORKER_COUNT := 10;
               FULL_WIDTH := 2 ^ 53 + 2; FULL_HEIGHT := 32000;
               ROWS := 4; COLS := 3; ROW := 0; COL := 0;
               cenX := (-1)%float; cenY := 0; zoom := 1 |}).
  assert (H1 : 0 < FULL_WIDTH c) by reflexivity.
  assert (H2 : 0 < FULL_HEIGHT c) by reflexivity.
  assert (H3 : 0 < ROWS c) by reflexivity.
  assert (H4 : 0 < COLS c) by reflexivity.
  assert (Hr : 0 <= 0 < ROWS c) by (split; [discriminate|reflexivity]).
  assert (Hc : 0 <= 2 < COLS c) by (split; [discriminate|reflexivity]).
  destruct (H c H1 H2 H3 H4 0 2 Hr Hc) as (x & w & Hx & Hw & Hle).
  vm_compute in Hx. vm_compute in Hw.
  injection Hx as <-. injection Hw as <-.
  vm_compute in Hle. apply Hle. reflexivity.
Qed.

(** ** Strips of a tile *)

(** C5, as the code has it, for sizes below [2^52]. For a tile of [H >= 1]
    rows and [W >= 1] workers, with [S = ceil(H / W)]: the loop counter
    takes the values [0 .. W - 1], and what the loop computes in binary64
    for each of them (the strip height, the bounds of the strip, the test
    for an empty strip) are the integers [S], [i * S], [min(i * S + S, H)]
    and their comparison. Every row of [[0, H)] lies in the strip of exactly
    one worker and no strip reaches outside [[0, H)]; the first [n] strips
    are the non-empty ones, they follow each other without a gap from row 0
    to row [H], all of them have [S] rows except strip [n - 1], which has
    between 1 and [S] rows; every later strip is empty (it starts at or
    after its end). The dispatch loop posts one message per non-empty
    strip, in order, and counts every empty strip in [completedWorkers]. *)
Theorem strips_partition_tile_rows (c : Config) (g : Globals) :
  1 <= tileHeight g < 2 ^ 52 -> 1 <= WORKER_COUNT c < 2 ^ 52 ->
  let H := tileHeight g in
  let W := WORKER_COUNT c in
  let S := tileStripHeight c g in
  ((forall extra : nat,
      Number.counter (Z.to_nat W + extra) c 0 = map Js.of_Z (Js.range 0 W)) /\
   Number.tileStripHeight c (Number.of_Globals g) = Js.of_Z S /\
   forall i, 0 <= i < W ->
     Number.strip c (Number.of_Globals g) (Js.of_Z i)
     = (Js.of_Z (fst (strip c g i)), Js.of_Z (snd (strip c g i))) /\
     Number.skipped (Number.strip c (Number.of_Globals g) (Js.of_Z i))
     = (fst (strip c g i) >=? snd (strip c g i))) /\
  (forall i, strip c g i = (i * S, Z.min (i * S + S) H)) /\
  (forall y, 0 <= y < H -> exists i, 0 <= i < W /\ in_strip (strip c g i) y) /\
  (forall i j y,
     in_strip (strip c g i) y -> in_strip (strip c g j) y -> i = j) /\
  (forall i y, 0 <= i < W -> in_strip (strip c g i) y -> 0 <= y < H) /\
  (exists n, 1 <= n <= W /\
     fst (strip c g 0) = 0 /\ snd (strip c g (n - 1)) = H /\
     (forall i, 0 <= i < n - 1 ->
        snd (strip c g i) - fst (strip c g i) = S /\
        snd (strip c g i) = fst (strip c g (i + 1))) /\
     0 < snd (strip c g (n - 1)) - fst (strip c g (n - 1)) <= S /\
     (forall i, n <= i < W -> snd (strip c g i) <= fst (strip c g i))) /\
  (let st := renderTileWithWorkers c g in
   posted st =
     map (fun i => message c g (fst (strip c g i)) (snd (strip c g i)))
       (List.filter (fun i => negb (fst (strip c g i) >=? snd (strip c g i)))
          (Js.range 0 W)) /\
   completedWorkers st =
     Z.of_nat (length (List.filter
        (fun i => fst (strip c g i) >=? snd (strip c g i)) (Js.range 0 W)))).
Proof.
  intros BH BW. cbv zeta.
  assert (HH : 1 <= tileHeight g) by lia.
  assert (HW : 1 <= WORKER_COUNT c) by lia.
  split.
  { destruct (strip_exact c g ltac:(lia) BW) as [ES Ei].
    split; [|split; [exact ES|exact Ei]].
    intros extra. change 0%float with (Js.of_Z 0).
    apply counter_exact; lia. }
  split; [intros i; reflexivity|].
  assert (Hlast : forall A B C D E : Prop,
             E -> (A /\ B /\ C /\ D) -> A /\ B /\ C /\ D /\ E) by tauto.
  apply Hlast; clear Hlast.
  { unfold renderTileWithWorkers. rewrite dispatch_fold.
    cbn [posted completedWorkers start]. split; [reflexivity|lia]. }
  pose proof (ceil_bounds (tileHeight g) (WORKER_COUNT c) ltac:(lia)) as Hc.
  fold (tileStripHeight c g) in Hc.
  unfold in_strip, strip. cbn [fst snd].
  clear BH BW.
  generalize dependent (tileStripHeight c g). intros S Hc.
  generalize dependent (tileHeight g). intros H HH Hc.
  generalize dependent (WORKER_COUNT c). intros W HW Hc.
  assert (HS : 1 <= S) by nia.
  split; [|split; [|split]].
  - intros y Hy. exists (y / S).
    pose proof (Z.mul_div_le y S ltac:(lia)).
    pose proof (Z.mul_succ_div_gt y S ltac:(lia)).
    assert (0 <= y / S) by (apply Z.div_pos; lia).
    assert (y / S < W) by (apply Z.div_lt_upper_bound; nia).
    lia.
  - intros i j y Hi Hj. nia.
  - intros i y Hi Hy. nia.
  - exists ((H - 1) / S + 1).
    pose proof (Z.mul_div_le (H - 1) S ltac:(lia)).
    pose proof (Z.mul_succ_div_gt (H - 1) S ltac:(lia)).
    assert (0 <= (H - 1) / S) by (apply Z.div_pos; lia).
    assert ((H - 1) / S < W) by (apply Z.div_lt_upper_bound; nia).
    replace ((H - 1) / S + 1 - 1) with ((H - 1) / S) by lia.
    repeat split; try lia; try nia.
Qed.

Lemma strips_partition_tile_rows_witness :
  (1 <= tileHeight (setup Example.small) < 2 ^ 52 /\
   1 <= WORKER_COUNT Example.small < 2 ^ 52) /\
  Number.strip Example.small (Number.of_Globals (setup Example.small))
    (Js.of_Z 2)
  = (Js.of_Z 4, Js.of_Z 5) /\
  forall y, 0 <= y < 5 ->
    exists i, 0 <= i < 4 /\
      in_strip (strip Example.small (setup Example.small) i) y.
Proof.
  assert (H1 : 1 <= tileHeight (setup Example.small) < 2 ^ 52)
    by (vm_compute; split; [discriminate|reflexivity]).
  assert (H2 : 1 <= WORKER_COUNT Example.small < 2 ^ 52)
    by (vm_compute; split; [discriminate|reflexivity]).
  assert (Hi : 0 <= 2 < WORKER_COUNT Example.small)
    by (vm_compute; split; [discriminate|reflexivity]).
  split; [split; assumption|].
  destruct (strips_partition_tile_rows Example.small (setup Example.small)
              H1 H2) as ((_ & _ & Hn) & _ & Hcov & _).
  split; [exact (proj1 (Hn 2 Hi))|exact Hcov].
Defined.

(** C5 as stated fails: with 5 rows and 4 workers the strips are [0,2),
    [2,4), [4,5) and the empty [6,5), so worker 2, which is not the last
    one, has fewer than [ceil(5/4) = 2] rows. *)
Lemma strips_short_before_last :
  ~ (forall (c : Config) (g : Globals) (i : Z),
       1 <= tileHeight g -> 1 <= WORKER_COUNT c ->
       0 <= i < WORKER_COUNT c - 1 ->
       snd (strip c g i) - fst (strip c g i) = tileStripHeight c g).
Proof.
  intros H.
  assert (E : snd (strip Example.small (setup Example.small) 2)
              - fst (strip Example.small (setup Example.small) 2)
              = tileStripHeight Example.small (setup Example.small)).
  { apply H; vm_compute; try split; congruence. }
  vm_compute in E. discriminate E.
Qed.

(** ** Tile sizes *)

(** X1. For sizes below [2^52], the numbers [setup] computes for a tile of
    the grid are integers, and: the tiles are [floor(FULL_WIDTH / COLS)]
    wide, except those of the last column, which also get the
    [FULL_WIDTH mod COLS] pixels left over, fewer than [COLS]; the same
    holds for the heights. Every tile has at least one pixel when
    [COLS <= FULL_WIDTH] and [ROWS <= FULL_HEIGHT]; with
    [FULL_WIDTH < COLS] every tile but those of the last column is 0 pixels
    wide. *)
Theorem tile_sizes (c : Config) (row col : Z) :
  0 < COLS c < 2 ^ 52 -> 0 < ROWS c < 2 ^ 52 ->
  0 <= FULL_WIDTH c < 2 ^ 52 -> 0 <= FULL_HEIGHT c < 2 ^ 52 ->
  0 <= row < ROWS c -> 0 <= col < COLS c ->
  let g := tile c row col in
  Number.setup (grid_position c row col) = Number.of_Globals g /\
  (col < COLS c - 1 -> tileWidth g = FULL_WIDTH c / COLS c) /\
  (col = COLS c - 1 ->
   tileWidth g = FULL_WIDTH c / COLS c + FULL_WIDTH c mod COLS c) /\
  (row < ROWS c - 1 -> tileHeight g = FULL_HEIGHT c / ROWS c) /\
  (row = ROWS c - 1 ->
   tileHeight g = FULL_HEIGHT c / ROWS c + FULL_HEIGHT c mod ROWS c) /\
  FULL_WIDTH c / COLS c <= tileWidth g < FULL_WIDTH c / COLS c + COLS c /\
  FULL_HEIGHT c / ROWS c <= tileHeight g < FULL_HEIGHT c / ROWS c + ROWS c /\
  (COLS c <= FULL_WIDTH c -> 1 <= tileWidth g) /\
  (ROWS c <= FULL_HEIGHT c -> 1 <= tileHeight g) /\
  (FULL_WIDTH c < COLS c -> col < COLS c - 1 -> tileWidth g = 0) /\
  (FULL_HEIGHT c < ROWS c -> row < ROWS c - 1 -> tileHeight g = 0).
Proof.
  intros BC BR BW BH Hrow Hcol g. subst g.
  split.
  { apply (setup_exact (grid_position c row col));
      cbn [grid_position FULL_WIDTH FULL_HEIGHT ROWS COLS ROW COL]; lia. }
  assert (HC : 0 < COLS c) by lia. assert (HR : 0 < ROWS c) by lia.
  assert (HW : 0 <= FULL_WIDTH c) by lia.
  assert (HH : 0 <= FULL_HEIGHT c) by lia.
  clear BC BR BW BH.
  unfold tile, setup. cbn [tileWidth tileHeight COL COLS ROW ROWS
                            FULL_WIDTH FULL_HEIGHT].
  pose proof (Z.mod_pos_bound (FULL_WIDTH c) (COLS c) HC) as Mw.
  pose proof (Z.mod_pos_bound (FULL_HEIGHT c) (ROWS c) HR) as Mh.
  pose proof (Z.div_mod (FULL_WIDTH c) (COLS c) ltac:(lia)) as Dw.
  pose proof (Z.div_mod (FULL_HEIGHT c) (ROWS c) ltac:(lia)) as Dh.
  assert (Qw : 0 <= FULL_WIDTH c / COLS c) by (apply Z.div_pos; lia).
  assert (Qh : 0 <= FULL_HEIGHT c / ROWS c) by (apply Z.div_pos; lia).
  assert (Pw : COLS c <= FULL_WIDTH c -> 1 <= FULL_WIDTH c / COLS c).
  { intros H. apply Z.div_le_lower_bound; lia. }
  assert (Ph : ROWS c <= FULL_HEIGHT c -> 1 <= FULL_HEIGHT c / ROWS c).
  { intros H. apply Z.div_le_lower_bound; lia. }
  assert (Zw : FULL_WIDTH c < COLS c -> FULL_WIDTH c / COLS c = 0).
  { intros H. apply Z.div_small. lia. }
  assert (Zh : FULL_HEIGHT c < ROWS c -> FULL_HEIGHT c / ROWS c = 0).
  { intros H. apply Z.div_small. lia. }
  set (w := FULL_WIDTH c / COLS c) in *.
  set (h := FULL_HEIGHT c / ROWS c) in *.
  destruct (Z.eqb_spec col (COLS c - 1)), (Z.eqb_spec row (ROWS c - 1));
    repeat split; intros; try lia.
Qed.

Lemma tile_sizes_witness :
  Number.tileWidth (Number.setup (grid_position Example.published 3 3))
  = Js.of_Z 14000 /\
  tileWidth (tile Example.published 3 3) = 14000 /\
  tileHeight (tile Example.published 3 3) = 8000.
Proof.
  assert (HC : 0 < COLS Example.published < 2 ^ 52)
    by (vm_compute; split; reflexivity).
  assert (HR : 0 < ROWS Example.published < 2 ^ 52)
    by (vm_compute; split; reflexivity).
  assert (HW : 0 <= FULL_WIDTH Example.published < 2 ^ 52)
    by (vm_compute; split; [discriminate|reflexivity]).
  assert (HH : 0 <= FULL_HEIGHT Example.published < 2 ^ 52)
    by (vm_compute; split; [discriminate|reflexivity]).
  assert (Hr : 0 <= 3 < ROWS Example.published) by (vm_compute; split; congruence).
  assert (Hc : 0 <= 3 < COLS Example.published) by (vm_compute; split; congruence).
  destruct (tile_sizes Example.published 3 3 HC HR HW HH Hr Hc)
    as (Hn & _ & Hw & _ & Hh & _).
  split; [exact (f_equal Number.tileWidth Hn)|].
  split; [exact (Hw eq_refl)|exact (Hh eq_refl)].
Defined.

(** ** The number of workers used *)

(** X2. For sizes below [2^52], the strip height the loop computes in
    binary64 is the integer [S = ceil(H / W)], and: the dispatch loop posts
    [ceil(H / S)] messages and counts the other [W - ceil(H / S)] workers
    as completed at once. When [W] divides [H] every worker gets exactly
    [H / W] rows and none is skipped; when [H <= W] the first [H] workers
    get one row each. *)
Theorem dispatch_count (c : Config) (g : Globals) :
  1 <= tileHeight g < 2 ^ 52 -> 1 <= WORKER_COUNT c < 2 ^ 52 ->
  let H := tileHeight g in
  let W := WORKER_COUNT c in
  let S := tileStripHeight c g in
  let st := renderTileWithWorkers c g in
  Number.tileStripHeight c (Number.of_Globals g) = Js.of_Z S /\
  (forall i, 0 <= i < W ->
     Number.strip c (Number.of_Globals g) (Js.of_Z i)
     = (Js.of_Z (fst (strip c g i)), Js.of_Z (snd (strip c g i)))) /\
  Z.of_nat (length (posted st)) = - ((- H) / S) /\
  completedWorkers st = W - - ((- H) / S) /\
  (H mod W = 0 ->
   S = H / W /\ completedWorkers st = 0 /\
   forall i, 0 <= i < W -> snd (strip c g i) - fst (strip c g i) = H / W) /\
  (H <= W ->
   S = 1 /\ Z.of_nat (length (posted st)) = H /\
   forall i, 0 <= i < H -> strip c g i = (i, i + 1)).
Proof.
  intros BH BW H W S st.
  assert (HH : 1 <= tileHeight g) by lia.
  assert (HW : 1 <= WORKER_COUNT c) by lia.
  destruct (strip_exact c g ltac:(lia) BW) as [ES Ei].
  split; [exact ES|]. split; [intros i Hi; exact (proj1 (Ei i Hi))|].
  clear ES Ei BH BW.
  assert (HS : (S - 1) * W < H <= S * W) by (apply ceil_bounds; lia).
  assert (S1 : 1 <= S).
  { destruct (Z_lt_le_dec S 1); [|assumption].
    assert (S * W <= 0) by nia. lia. }
  destruct (strips_shape c g HH HW) as (n & Hn & Hskip & Hin & _ & _).
  assert (E : renderTileWithWorkers c g
              = {| completedWorkers := W - n;
                   canvas := createCanvas (tileWidth g) (tileHeight g);
                   posted := map (strip_message c g) (Js.range 0 n);
                   saved := [] |}).
  { apply renderTileWithWorkers_posted; [lia|exact Hskip]. }
  assert (Hlen : Z.of_nat (length (posted st)) = n).
  { subst st. rewrite E. cbn [posted]. rewrite length_map, length_range. lia. }
  assert (Hcnt : completedWorkers st = W - n) by (subst st; now rewrite E).
  (* n is the number of strips that start below H *)
  assert (Hlast : (n - 1) * S < H).
  { destruct (Hin (n - 1) ltac:(lia)) as [Hs _]. cbn [strip fst snd] in Hs.
    fold S H in Hs. lia. }
  assert (Hnext : H <= n * S).
  { destruct (Z.eq_dec n W) as [->|Hne]; [lia|].
    specialize (Hskip n ltac:(lia)).
    replace (n <? n) with false in Hskip by (symmetry; apply Z.ltb_ge; lia).
    cbn [negb strip fst snd] in Hskip. fold S H in Hskip.
    apply Z.geb_le in Hskip. lia. }
  assert (En : n = - ((- H) / S)).
  { assert (HC : (- ((- H) / S) - 1) * S < H <= - ((- H) / S) * S)
      by (apply ceil_bounds; lia).
    nia. }
  split; [lia|]. split; [lia|]. split.
  - intros Hmod.
    assert (ES : S = H / W).
    { apply Z.mod_divide in Hmod; [|lia]. destruct Hmod as [k Hk].
      assert (H / W = k) by (rewrite Hk; apply Z.div_mul; lia).
      nia. }
    split; [exact ES|].
    assert (EH : H = W * S).
    { rewrite ES. apply Z.div_exact; [lia|exact Hmod]. }
    split; [nia|].
    intros i Hi. cbn [strip fst snd]. fold S H. rewrite <- ES. nia.
  - intros Hle.
    assert (ES : S = 1) by nia.
    split; [exact ES|]. split; [nia|].
    intros i Hi. unfold strip. fold S H. rewrite ES. f_equal; lia.
Qed.

Lemma dispatch_count_witness :
  Number.tileStripHeight Example.small
    (Number.of_Globals (setup Example.small)) = Js.of_Z 2 /\
  Z.of_nat (length (posted (renderTileWithWorkers Example.small
                              (setup Example.small)))) = 3 /\
  completedWorkers (renderTileWithWorkers Example.small (setup Example.small))
  = 1.
Proof.
  assert (H1 : 1 <= tileHeight (setup Example.small) < 2 ^ 52)
    by (vm_compute; split; [discriminate|reflexivity]).
  assert (H2 : 1 <= WORKER_COUNT Example.small < 2 ^ 52)
    by (vm_compute; split; [discriminate|reflexivity]).
  destruct (dispatch_count Example.small (setup Example.small) H1 H2)
    as (Hs & _ & Hp & Hc & _).
  split; [exact Hs|]. split; [exact Hp|exact Hc].
Defined.

(** ** A tile is a crop of the whole image *)

(** X16. For sizes below [2^52], where the numbers [setup] computes are
    the integers of the tile: what [setup] and the worker compute for tile
    ([ROW], [COL]) is the rectangle of that tile cut out of the render of
    the whole image as a single tile: the same bytes, row for row. Putting
    the tiles side by side therefore gives the whole image. *)
Theorem tile_is_crop (Math_log : float -> float) (c : Config) :
  0 < COLS c < 2 ^ 52 -> 0 < ROWS c < 2 ^ 52 ->
  0 <= FULL_WIDTH c < 2 ^ 52 -> 0 <= FULL_HEIGHT c < 2 ^ 52 ->
  0 <= COL c < COLS c -> 0 <= ROW c < ROWS c ->
  let g := setup c in
  Number.setup c = Number.of_Globals g /\
  Number.setup (whole c) = Number.of_Globals (setup (whole c)) /\
  sequential_render Math_log c g
  = crop (sequential_render Math_log (whole c) (setup (whole c)))
      (FULL_WIDTH c) (tileX g) (tileY g) (tileWidth g) (tileHeight g).
Proof.
  intros BC BR BW BH Hc Hr g.
  split; [apply setup_exact; assumption|].
  split.
  { apply setup_exact;
      cbn [whole FULL_WIDTH FULL_HEIGHT ROWS COLS ROW COL]; lia. }
  assert (HC : 0 < COLS c) by lia. assert (HR : 0 < ROWS c) by lia.
  assert (HW : 0 <= FULL_WIDTH c) by lia.
  assert (HH : 0 <= FULL_HEIGHT c) by lia.
  clear BC BR BW BH.
  destruct (tile_inside c HC HR HW HH Hc Hr)
    as (Hx & Hw & Hxw & Hy & Hh & Hyh). fold g in Hx, Hw, Hxw, Hy, Hh, Hyh.
  unfold sequential_render, crop. apply flat_map_ext_in. intros y Hy'.
  apply in_range in Hy'.
  set (dw := message (whole c) (setup (whole c)) 0
               (tileHeight (setup (whole c)))).
  assert (Ew : Msg.tileWidth dw = FULL_WIDTH c)
    by (subst dw; rewrite setup_whole; reflexivity).
  assert (Eh : tileHeight (setup (whole c)) = FULL_HEIGHT c)
    by (rewrite setup_whole; reflexivity).
  rewrite Eh.
  (* the row of the whole image that holds row [y] of the tile *)
  replace (Z.to_nat (4 * (FULL_WIDTH c * (tileY g + y) + tileX g)))
    with (Z.to_nat (tileY g + y) * Z.to_nat (4 * FULL_WIDTH c)
          + Z.to_nat (tileX g) * 4)%nat by nia.
  rewrite (part_of_block (row_bytes Math_log dw) (Z.to_nat (4 * FULL_WIDTH c))).
  2: { intros i. rewrite length_row_bytes, Ew. reflexivity. }
  2: lia.
  2: nia.
  (* the pixels of that row that belong to the tile *)
  unfold row_bytes at 2. rewrite Ew.
  rewrite (drop_blocks _ 4) by ((intros; cbv beta; apply length_pixel_bytes) || lia).
  replace (Z.to_nat (4 * tileWidth g)) with (Z.to_nat (tileWidth g) * 4)%nat
    by lia.
  rewrite (take_blocks _ 4) by ((intros; cbv beta; apply length_pixel_bytes) || lia).
  rewrite flat_map_range_shift.
  unfold row_bytes. cbn [message Msg.tileWidth].
  apply flat_map_ext_in. intros x _.
  subst g dw. apply pixel_of_whole.
Qed.

Lemma tile_is_crop_witness :
  Number.setup Example.published
  = Number.of_Globals
      {| tileX := 42000; tileY := 24000;
         tileWidth := 14000; tileHeight := 8000 |} /\
  sequential_render Example.log_linear Example.published
    (setup Example.published)
  = crop (sequential_render Example.log_linear (whole Example.published)
            (setup (whole Example.published)))
      56000 42000 24000 14000 8000.
Proof.
  assert (HC : 0 < COLS Example.published < 2 ^ 52)
    by (vm_compute; split; reflexivity).
  assert (HR : 0 < ROWS Example.published < 2 ^ 52)
    by (vm_compute; split; reflexivity).
  assert (HW : 0 <= FULL_WIDTH Example.published < 2 ^ 52)
    by (vm_compute; split; [discriminate|reflexivity]).
  assert (HH : 0 <= FULL_HEIGHT Example.published < 2 ^ 52)
    by (vm_compute; split; [discriminate|reflexivity]).
  assert (Hc : 0 <= COL Example.published < COLS Example.published)
    by (vm_compute; split; congruence).
  assert (Hr : 0 <= ROW Example.published < ROWS Example.published)
    by (vm_compute; split; congruence).
  destruct (tile_is_crop Example.log_linear Example.published
              HC HR HW HH Hc Hr) as (Hn & _ & Hcrop).
  split; [exact Hn|exact Hcrop].
Defined.

(** ** [WORKER_COUNT] *)

(** X18. [navigator.hardwareConcurrency + 2 || 4] is 4 when the browser
    does not report the property ([undefined + 2] is NaN), [n + 2] when it
    reports [n] threads, and in every case a number that is not 0: the
    dispatch loop never divides the tile by zero workers. *)
Theorem worker_count_fallback (hardwareConcurrency : option float) :
  WORKER_COUNT_of None = 4%float /\
  is_nan (WORKER_COUNT_of hardwareConcurrency) = false /\
  is_zero (WORKER_COUNT_of hardwareConcurrency) = false /\
  (forall n : Z, 0 <= n < 2 ^ 53 - 2 ->
     WORKER_COUNT_of (Some (Js.of_Z n)) = Js.of_Z (n + 2)).
Proof.
  split; [reflexivity|].
  assert (G : is_nan (WORKER_COUNT_of hardwareConcurrency) = false /\
              is_zero (WORKER_COUNT_of hardwareConcurrency) = false).
  { unfold WORKER_COUNT_of. cbv zeta.
    destruct (is_nan _ || is_zero _) eqn:E; [split; reflexivity|].
    apply orb_false_iff in E. exact E. }
  split; [apply G|]. split; [apply G|].
  intros n Hn. unfold WORKER_COUNT_of. cbv zeta.
  change 2%float with (Js.of_Z 2). rewrite of_Z_add by lia.
  destruct (of_Z_value (n + 2) ltac:(lia)) as [F V].
  rewrite (finite_not_nan _ F). cbn [orb].
  assert (Z : is_zero (Js.of_Z (n + 2)) = false).
  { change ((Js.of_Z (n + 2) =? 0)%float = false).
    destruct (Js.of_Z (n + 2) =? 0)%float eqn:E; [|reflexivity].
    apply eqb_value in E; [|exact F|exact I].
    change (value 0) with 0%R in E. rewrite V in E.
    apply eq_IZR in E. lia. }
  rewrite Z. reflexivity.
Qed.

(** ** The picture is symmetric when [cenY] is 0 *)

Lemma F2R_half (k : Z) : F2R k (-1) = (IZR k / 2)%R.
Proof.
  unfold F2R, bpow. change (powerRZ 2 (-1)) with (/ (2 * 1))%R. field.
Qed.

Lemma representable_signed (k e : Z) :
  - 2 ^ 53 < k < 2 ^ 53 -> -1022 <= e <= 971 ->
  exists f : float, finite f /\ value f = F2R k e.
Proof.
  intros Hk He. destruct (Z.lt_trichotomy k 0) as [Hneg|[->|Hpos]].
  - destruct (representable (- k) e ltac:(lia) He) as (f & m & e' & Ef & Vf).
    assert (Ff : finite f) by (unfold finite; rewrite Ef; exact I).
    destruct (value_opp f Ff) as [Fo Vo].
    exists (- f)%float. split; [exact Fo|]. rewrite Vo, Vf, F2R_opp. lra.
  - exists 0%float. split; [exact I|]. unfold F2R. cbn. lra.
  - destruct (representable k e ltac:(lia) He) as (f & m & e' & Ef & Vf).
    exists f. split; [|exact Vf]. unfold finite. rewrite Ef. exact I.
Qed.

(** Two finite numbers of opposite values are mirrored. *)
Lemma mirrored_of_values (x y : float) :
  finite x -> finite y -> value y = (- value x)%R -> mirrored x y.
Proof.
  intros Fx Fy V. destruct (value_opp x Fx) as [Fo Vo].
  destruct (Req_dec (value x) 0) as [Z|NZ].
  - right.
    assert (Zx : zero_number x) by (split; assumption).
    assert (Zy : zero_number y) by (split; [assumption|lra]).
    apply zero_number_Prim2SF in Zx, Zy.
    destruct Zx as [sx ->], Zy as [sy ->]. split; exact I.
  - left. rewrite <- opp_spec. f_equal.
    apply value_inj; try assumption; lra.
Qed.

Lemma SFmul_mirrored_l (x x' y : spec_float) :
  mirrored_SF x x' ->
  mirrored_SF (SFmul prec emax x y) (SFmul prec emax x' y).
Proof.
  intros [->|[Hx Hx']].
  - left. apply SFmul_opp_l.
  - destruct x as [sx| | |]; try contradiction.
    destruct x' as [sx'| | |]; try contradiction.
    destruct y as [sy|sy| |sy my ey]; cbn [SFmul].
    + right. split; exact I.
    + left. reflexivity.
    + left. reflexivity.
    + right. split; exact I.
Qed.

(** The rows [Y] and [FULL_HEIGHT - Y] of the full image map to opposite
    imaginary parts when [cenY] is a zero. *)
Lemma cy_mirrored (d : Msg.data) (y y' : Z) :
  zero_number (Msg.cenY d) ->
  0 < Msg.fullHeight d < 2 ^ 52 ->
  0 <= Msg.tileOffsetY d + y < 2 ^ 52 ->
  0 <= Msg.tileOffsetY d + y' < 2 ^ 52 ->
  (Msg.tileOffsetY d + y) + (Msg.tileOffsetY d + y') = Msg.fullHeight d ->
  mirrored (cy_of d y) (cy_of d y').
Proof.
  intros Zc HH HY HY' Hsum. unfold cy_of. cbv zeta.
  set (FH := Msg.fullHeight d) in *.
  set (Y := Msg.tileOffsetY d + y) in *.
  set (Y' := Msg.tileOffsetY d + y') in *.
  assert (P52 : 2 ^ 52 + 2 ^ 52 = 2 ^ 53) by reflexivity.
  destruct (of_Z_value FH ltac:(lia)) as [FF VF].
  destruct (of_Z_value Y ltac:(lia)) as [FY VY].
  destruct (of_Z_value Y' ltac:(lia)) as [FY' VY'].
  destruct value_2 as [F2 V2].
  (* fullHeight / 2 *)
  destruct (representable FH (-1) ltac:(lia) ltac:(lia))
    as (h & mh & eh & Eh & Vh).
  assert (Fh : finite h) by (unfold finite; rewrite Eh; exact I).
  assert (Vh' : value h = (IZR FH / 2)%R).
  { rewrite Vh. apply F2R_half. }
  destruct (div_between (Js.of_Z FH) 2 h h) as [FB VB]; try assumption.
  { rewrite V2. lra. }
  { rewrite VF, V2, Vh'. lra. }
  assert (VB' : value (Js.of_Z FH / 2) = (IZR FH / 2)%R) by lra.
  (* globalY - fullHeight / 2, for both rows *)
  assert (D : forall Z0, 0 <= Z0 < 2 ^ 52 ->
            finite (Js.of_Z Z0 - Js.of_Z FH / 2) /\
            value (Js.of_Z Z0 - Js.of_Z FH / 2) = (IZR Z0 - IZR FH / 2)%R).
  { intros Z0 HZ. destruct (of_Z_value Z0 ltac:(lia)) as [FZ VZ].
    destruct (representable_signed (2 * Z0 - FH) (-1) ltac:(lia) ltac:(lia))
      as (f & Ff & Vf).
    assert (Vf' : value f = (IZR Z0 - IZR FH / 2)%R).
    { rewrite Vf, F2R_half, minus_IZR, mult_IZR. lra. }
    destruct (sub_between (Js.of_Z Z0) (Js.of_Z FH / 2) f f) as [F B];
      try assumption.
    - rewrite VZ, VB', Vf'. lra.
    - split; [exact F|lra]. }
  destruct (D Y HY) as [F1 V1]. destruct (D Y' HY') as [F1' V1'].
  assert (M : mirrored (Js.of_Z Y - Js.of_Z FH / 2)
                       (Js.of_Z Y' - Js.of_Z FH / 2)).
  { apply mirrored_of_values; try assumption.
    rewrite V1, V1'. replace Y' with (FH - Y) by lia.
    rewrite minus_IZR. lra. }
  unfold mirrored. rewrite !add_spec, !mul_spec.
  apply SFadd_mirrored.
  - apply SFmul_mirrored_l. exact M.
  - right. apply zero_number_Prim2SF in Zc. destruct Zc as [s ->].
    split; exact I.
Qed.

(** X19. With [cenY = 0] the picture is symmetric about the row
    [FULL_HEIGHT / 2]: the pixels of the rows [Y] and [FULL_HEIGHT - Y] of
    the full image, in the same column, get the same four bytes, whatever
    tiles and strips they belong to. (Row 0 has no partner.) *)
Theorem rows_mirror
  (Math_log : float -> float) (d : Msg.data) (x y y' : Z) :
  zero_number (Msg.cenY d) ->
  0 < Msg.fullHeight d < 2 ^ 52 ->
  0 <= Msg.tileOffsetY d + y < 2 ^ 52 ->
  0 <= Msg.tileOffsetY d + y' < 2 ^ 52 ->
  (Msg.tileOffsetY d + y) + (Msg.tileOffsetY d + y') = Msg.fullHeight d ->
  pixel_bytes Math_log d x y' = pixel_bytes Math_log d x y.
Proof.
  intros Zc HH HY HY' Hsum. unfold pixel_bytes.
  destruct (escape_conjugate (cx_of d x) (cy_of d y) (cy_of d y')
              (Msg.maxIter d) (cy_mirrored d y y' Zc HH HY HY' Hsum))
    as (E1 & E2 & E3 & E4 & _).
  unfold shade. rewrite E2, E3, E4. reflexivity.
Qed.

Lemma rows_mirror_witness :
  pixel_bytes Example.log_linear
    (message Example.small (setup Example.small) 0 5) 1 4
  = pixel_bytes Example.log_linear
      (message Example.small (setup Example.small) 0 5) 1 1.
Proof.
  refine (rows_mirror Example.log_linear
            (message Example.small (setup Example.small) 0 5) 1 1 4
            _ _ _ _ _).
  - split; [exact I|reflexivity].
  - vm_compute. split; congruence.
  - vm_compute. split; congruence.
  - vm_compute. split; congruence.
  - reflexivity.
Defined.

(** ** The number of workers does not show in the picture *)

Lemma saved_when_done (Math_log : float -> float) (c : Config) (g : Globals) :
  1 <= tileWidth g -> 1 <= tileHeight g -> 1 <= WORKER_COUNT c ->
  forall st, reachable Math_log c g st -> posted st = [] ->
    saved st = [sequential_render Math_log c g].
Proof.
  intros Hw Hh HW st Hst Hp.
  destruct (reachable_invariant Math_log c g Hw Hh HW st Hst)
    as (idxs & Ep & _ & _ & Hc & _ & Hs).
  rewrite Hp in Ep. destruct idxs; [|discriminate].
  rewrite Hs, Hc, Hp, partial_canvas_nil. reflexivity.
Qed.

(** X20. The tile that is saved does not depend on [WORKER_COUNT]: on
    machines that report different numbers of threads, and whatever the
    order in which the workers answer, the canvas handed to [saveCanvas]
    holds the same bytes. *)
Theorem worker_count_independent
  (Math_log : float -> float) (c : Config) (n n' : Z) (st st' : state) :
  1 <= tileWidth (setup c) -> 1 <= tileHeight (setup c) ->
  1 <= n -> 1 <= n' ->
  reachable Math_log (with_WORKER_COUNT n c) (setup c) st ->
  posted st = [] ->
  reachable Math_log (with_WORKER_COUNT n' c) (setup c) st' ->
  posted st' = [] ->
  setup (with_WORKER_COUNT n c) = setup c /\
  saved st = saved st' /\ canvas st = canvas st'.
Proof.
  intros Hw Hh Hn Hn' Hst Hp Hst' Hp'.
  split; [reflexivity|].
  pose proof (saved_when_done Math_log (with_WORKER_COUNT n c) _ Hw Hh Hn st Hst Hp) as E.
  pose proof (saved_when_done Math_log (with_WORKER_COUNT n' c) _ Hw Hh Hn' st' Hst' Hp') as E'.
  destruct (reachable_invariant Math_log (with_WORKER_COUNT n c) _ Hw Hh Hn st Hst)
    as (idxs & Ep & _ & _ & Hc & _).
  destruct (reachable_invariant Math_log (with_WORKER_COUNT n' c) _ Hw Hh Hn' st' Hst')
    as (idxs' & Ep' & _ & _ & Hc' & _).
  rewrite Hp in Hc. rewrite Hp' in Hc'.
  rewrite partial_canvas_nil in Hc, Hc'.
  rewrite E, E', Hc, Hc'. split; reflexivity.
Qed.

Lemma worker_count_independent_witness :
  saved (run Example.log_linear (with_WORKER_COUNT 4 Example.small)
           (setup Example.small) [0; 0; 0]%nat
           (renderTileWithWorkers (with_WORKER_COUNT 4 Example.small)
              (setup Example.small)))
  = saved (run Example.log_linear (with_WORKER_COUNT 2 Example.small)
             (setup Example.small) [1; 0]%nat
             (renderTileWithWorkers (with_WORKER_COUNT 2 Example.small)
                (setup Example.small))).
Proof.
  assert (Hw : 1 <= tileWidth (setup Example.small))
    by (vm_compute; discriminate).
  assert (Hh : 1 <= tileHeight (setup Example.small))
    by (vm_compute; discriminate).
  assert (Hn : 1 <= 4) by lia.
  assert (Hn' : 1 <= 2) by lia.
  refine (proj1 (proj2 (worker_count_independent Example.log_linear
            Example.small 4 2 _ _ Hw Hh Hn Hn' _ _ _ _))).
  - apply run_reachable. constructor.
  - vm_compute. reflexivity.
  - apply run_reachable. constructor.
  - vm_compute. reflexivity.
Defined.

(** ** The saved picture is opaque *)

(** X21. Every pixel of a saved canvas has been written by a worker: the
    canvas handed to [saveCanvas] has [4 * tileWidth * tileHeight] bytes,
    each in [0, 255], and the alpha byte of every pixel is 255, while
    [createCanvas] had left it 0. *)
Theorem saved_canvas_opaque
  (Math_log : float -> float) (c : Config) (g : Globals) :
  1 <= tileWidth g -> 1 <= tileHeight g -> 1 <= WORKER_COUNT c ->
  forall st img, reachable Math_log c g st -> In img (saved st) ->
    Z.of_nat (length img) = 4 * tileWidth g * tileHeight g /\
    Forall is_byte img /\
    (forall k : nat, (k < length img)%nat -> (k mod 4 = 3)%nat ->
       img !! k = Some 255).
Proof.
  intros Hw Hh HW st img Hst Hin.
  destruct (reachable_invariant Math_log c g Hw Hh HW st Hst)
    as (idxs & Ep & _ & _ & Hc & _ & Hs).
  rewrite Hs in Hin. destruct idxs as [|i idxs]; [|contradiction].
  destruct Hin as [<-|[]]. rewrite Hc, Ep. cbn [map].
  rewrite partial_canvas_nil. unfold sequential_render.
  set (d := message c g 0 (tileHeight g)).
  assert (Ew : Msg.tileWidth d = tileWidth g) by reflexivity.
  split; [|split].
  - rewrite (length_flat_map_const _ _ (Z.to_nat (4 * tileWidth g))).
    + rewrite length_range. nia.
    + intros y. rewrite length_row_bytes, Ew. reflexivity.
  - apply Forall_flat_map_intro. intros y. apply row_bytes_blocks.
  - apply (alpha_of_rows _ _ (Z.to_nat (tileWidth g))).
    + intros y. rewrite length_row_bytes, Ew. lia.
    + intros y. apply row_bytes_blocks.
Qed.

Lemma saved_canvas_opaque_witness :
  Z.of_nat (length (canvas
     (render_tile Example.log_linear Example.small [0; 0; 0]%nat))) = 40.
Proof.
  assert (H1 : 1 <= tileWidth (setup Example.small))
    by (vm_compute; discriminate).
  assert (H2 : 1 <= tileHeight (setup Example.small))
    by (vm_compute; discriminate).
  assert (H3 : 1 <= WORKER_COUNT Example.small) by (vm_compute; discriminate).
  refine (proj1 (saved_canvas_opaque Example.log_linear Example.small
                   (setup Example.small) H1 H2 H3
                   (render_tile Example.log_linear Example.small
                      [0; 0; 0]%nat) _ _ _)).
  - apply run_reachable. constructor.
  - vm_compute. left. reflexivity.
Defined.

(** ** File names *)

Section FileNames.

Import String Ascii DecimalString.
Import Download.

Lemma avoids_uint (ch : ascii) (d : Decimal.uint) :
  avoids ch "0123456789" = true ->
  avoids ch (NilEmpty.string_of_uint d) = true.
Proof.
  intros H. cbn [avoids] in H.
  repeat (apply andb_true_iff in H; destruct H as [? H]).
  induction d; cbn [NilEmpty.string_of_uint avoids]; try reflexivity;
    apply andb_true_iff; split; assumption.
Qed.

Lemma avoids_toString (ch : ascii) (n : Z) (s : string) :
  avoids ch "-0123456789" = true ->
  Number_toString n = Some s -> avoids ch s = true.
Proof.
  intros H. unfold Number_toString.
  destruct (Z.abs n <? 2 ^ 53); [|discriminate]. intros E.
  injection E as <-.
  change (avoids ch "-0123456789")
    with (negb (Ascii.eqb "-" ch) && avoids ch "0123456789") in H.
  apply andb_true_iff in H. destruct H as [Hm Hd].
  destruct (Z.to_int n) as [d|d]; cbn [NilEmpty.string_of_int avoids].
  - apply avoids_uint. exact Hd.
  - rewrite Hm. apply avoids_uint. exact Hd.
Qed.

(** Two strings cut at the first occurrence of a character. *)
Lemma split_at (ch : ascii) (a a' r r' : string) :
  avoids ch a = true -> avoids ch a' = true ->
  (a ++ String ch r)%string = (a' ++ String ch r')%string ->
  a = a' /\ r = r'.
Proof.
  revert a'. induction a as [|x a IH]; intros [|x' a'] Ha Ha' E;
    cbn [append avoids] in *.
  - injection E as ->. split; reflexivity.
  - injection E as <- _. apply andb_true_iff in Ha'.
    destruct Ha' as [Hx _]. rewrite Ascii.eqb_refl in Hx. discriminate.
  - injection E as -> _. apply andb_true_iff in Ha.
    destruct Ha as [Hx _]. rewrite Ascii.eqb_refl in Hx. discriminate.
  - injection E as -> E. apply andb_true_iff in Ha, Ha'.
    destruct (IH a' (proj2 Ha) (proj2 Ha') E) as [-> ->].
    split; reflexivity.
Qed.

Lemma Number_toString_inj (n n' : Z) (s : string) :
  Number_toString n = Some s -> Number_toString n' = Some s -> n = n'.
Proof.
  unfold Number_toString.
  destruct (Z.abs n <? 2 ^ 53); [|discriminate].
  destruct (Z.abs n' <? 2 ^ 53); [|discriminate].
  intros E E'. rewrite <- E' in E. injection E as E.
  apply DecimalZ.to_int_inj.
  apply (f_equal NilEmpty.int_of_string) in E.
  rewrite !NilEmpty.isi in E. now injection E.
Qed.

Lemma Number_toString_defined (n : Z) :
  - 2 ^ 53 < n < 2 ^ 53 ->
  Number_toString n = Some (NilEmpty.string_of_int (Z.to_int n)).
Proof.
  intros H. unfold Number_toString.
  replace (Z.abs n <? 2 ^ 53) with true by (symmetry; apply Z.ltb_lt; lia).
  reflexivity.
Qed.

(** X22. For row and column indices below [2^53] in magnitude, which print
    as their decimal digits: the file a tile is saved to is named after
    its row and column, the name contains no [/], and two tiles get the
    same name only if they are the same tile: the sixteen downloads do not
    overwrite each other. *)
Theorem file_names_distinct (c c' : Config) :
  - 2 ^ 53 < ROW c < 2 ^ 53 -> - 2 ^ 53 < COL c < 2 ^ 53 ->
  - 2 ^ 53 < ROW c' < 2 ^ 53 -> - 2 ^ 53 < COL c' < 2 ^ 53 ->
  (exists s, saveCanvas_name c = Some s /\ avoids "/" s = true) /\
  (saveCanvas_name c = saveCanvas_name c' ->
   ROW c = ROW c' /\ COL c = COL c').
Proof.
  intros Hr Hc Hr' Hc'. unfold saveCanvas_name.
  pose proof (Number_toString_defined _ Hr) as Er.
  pose proof (Number_toString_defined _ Hc) as Ec.
  pose proof (Number_toString_defined _ Hr') as Er'.
  pose proof (Number_toString_defined _ Hc') as Ec'.
  set (r := NilEmpty.string_of_int (Z.to_int (ROW c))) in *.
  set (k := NilEmpty.string_of_int (Z.to_int (COL c))) in *.
  set (r' := NilEmpty.string_of_int (Z.to_int (ROW c'))) in *.
  set (k' := NilEmpty.string_of_int (Z.to_int (COL c'))) in *.
  rewrite Er, Ec, Er', Ec'. split.
  - eexists. split; [reflexivity|].
    assert (App : forall a b, avoids "/" a = true -> avoids "/" b = true ->
              avoids "/" (a ++ b) = true).
    { induction a as [|x a IH]; intros b Ha Hb; cbn [append avoids] in *;
        [exact Hb|].
      apply andb_true_iff in Ha. destruct Ha as [Hx Ha].
      rewrite Hx. cbn [andb]. apply IH; assumption. }
    apply App; [reflexivity|].
    apply App; [exact (avoids_toString "/" _ _ eq_refl Er)|].
    apply App; [reflexivity|].
    apply App; [exact (avoids_toString "/" _ _ eq_refl Ec)|reflexivity].
  - intros E. injection E as E.
    destruct (split_at "_" _ _ _ _
                (avoids_toString "_" _ _ eq_refl Er)
                (avoids_toString "_" _ _ eq_refl Er') E) as [Erow E'].
    injection E' as E'.
    destruct (split_at "." _ _ _ _
                (avoids_toString "." _ _ eq_refl Ec)
                (avoids_toString "." _ _ eq_refl Ec') E') as [Ecol _].
    rewrite <- Erow in Er'. rewrite <- Ecol in Ec'.
    split; [exact (Number_toString_inj _ _ _ Er Er')
           |exact (Number_toString_inj _ _ _ Ec Ec')].
Qed.

Lemma file_names_distinct_witness :
  saveCanvas_name Example.published = Some "mandelbrot_r3_c3.png"%string /\
  saveCanvas_name Example.published_2x2
  = Some "mandelbrot_r1_c1.png"%string /\
  saveCanvas_name Example.published
  <> saveCanvas_name Example.published_2x2.
Proof.
  assert (Hr : - 2 ^ 53 < ROW Example.published < 2 ^ 53)
    by (vm_compute; split; reflexivity).
  assert (Hc : - 2 ^ 53 < COL Example.published < 2 ^ 53)
    by (vm_compute; split; reflexivity).
  assert (Hr' : - 2 ^ 53 < ROW Example.published_2x2 < 2 ^ 53)
    by (vm_compute; split; reflexivity).
  assert (Hc' : - 2 ^ 53 < COL Example.published_2x2 < 2 ^ 53)
    by (vm_compute; split; reflexivity).
  split; [reflexivity|]. split; [reflexivity|].
  intros E.
  destruct (proj2 (file_names_distinct Example.published
                     Example.published_2x2 Hr Hc Hr' Hc') E) as [Erow _].
  discriminate Erow.
Defined.

End FileNames.

(** ** The orbit while the loop runs *)

Lemma square_below_2 (x : float) :
  finite (x * x) -> (value (x * x) < 4)%R ->
  finite x /\ (-2 < value x < 2)%R.
Proof.
  intros F H. pose proof (square_finite x F) as Fx. split; [exact Fx|].
  destruct value_4 as [F4 V4].
  destruct (Rlt_le_dec (value x * value x) 4) as [Hlt|Hge]; [nra|].
  exfalso.
  assert (E : (x * x <? 4)%float = false).
  { apply (mul_above x x 4 4503599627370496 (-50)); try assumption.
    - reflexivity.
    - rewrite V4. exact Hge. }
  assert (E' : (x * x <? 4)%float = true).
  { apply ltb_value; [exact F|exact F4|]. rewrite V4. lra. }
  congruence.
Qed.

Lemma orbit_numbers (cx cy : float) :
  is_nan cx = false -> is_nan cy = false ->
  forall k : nat,
    (forall i : nat, (i < k)%nat ->
       (zx2 (orbit cx cy i) + zy2 (orbit cx cy i) <? 4)%float = true) ->
    numbers (orbit cx cy k).
Proof.
  intros Ncx Ncy. induction k as [|k IH]; intros H.
  - unfold numbers. cbn. repeat split.
  - change (orbit cx cy (S k)) with (body cx cy (orbit cx cy k)).
    apply body_numbers; try assumption.
    + apply IH. intros i Hi. apply H. lia.
    + apply H. lia.
Qed.

(** X23. For [cx] and [cy] that are numbers, the loop only keeps running
    on points strictly inside the disc of radius 2: at every iterate
    before the last one, [zx], [zy], [zx2] and [zy2] are finite, the exact
    sum of [zx2] and [zy2] is below 4, and [zx] and [zy] are strictly
    between -2 and 2. No infinity or NaN is fed back into the loop. *)
Theorem orbit_bounded (cx cy : float) (maxIter : Z) (k : nat) :
  is_nan cx = false -> is_nan cy = false -> 0 <= maxIter ->
  (k < Z.to_nat (iter (escape cx cy maxIter)))%nat ->
  let st := orbit cx cy k in
  finite (zx st) /\ finite (zy st) /\ finite (zx2 st) /\ finite (zy2 st) /\
  (value (zx2 st) + value (zy2 st) < 4)%R /\
  (-2 < value (zx st) < 2)%R /\ (-2 < value (zy st) < 2)%R.
Proof.
  intros Ncx Ncy HM Hk st.
  destruct (while_loop_orbit cx cy maxIter (Z.to_nat maxIter) 0 ltac:(lia))
    as (j & _ & Hm & Hr & Hb & _).
  change (orbit cx cy 0) with z0 in Hr. fold (escape cx cy maxIter) in Hr.
  rewrite Hr, iter_orbit, Nat2Z.id in Hk.
  assert (T : forall i : nat, (i <= k)%nat ->
            (zx2 (orbit cx cy i) + zy2 (orbit cx cy i) <? 4)%float = true).
  { intros i Hi. apply Hb. lia. }
  destruct (orbit_numbers cx cy Ncx Ncy k) as (E1 & E2 & N1 & N2).
  { intros i Hi. apply T. lia. }
  fold st in E1, E2, N1, N2.
  pose proof (T k (le_n k)) as Hlt. fold st in Hlt.
  pose proof (square_nonneg _ N1) as P1. pose proof (square_nonneg _ N2) as P2.
  rewrite <- E1 in P1. rewrite <- E2 in P2.
  destruct (add_below _ _ 4 4503599627370496 (-50) P1 P2 eq_refl Hlt)
    as (F1 & F2 & Hs).
  destruct value_4 as [F4 V4]. rewrite V4 in Hs.
  pose proof (nonneg_value _ P1) as G1. pose proof (nonneg_value _ P2) as G2.
  destruct (square_below_2 (zx st)) as [Fx Bx];
    [rewrite <- E1; exact F1|rewrite <- E1; lra|].
  destruct (square_below_2 (zy st)) as [Fy By];
    [rewrite <- E2; exact F2|rewrite <- E2; lra|].
  repeat split; try assumption; lra.
Qed.

Lemma orbit_bounded_witness :
  (-2 < value (zx (orbit 0.25 0.5 3)) < 2)%R.
Proof.
  assert (Ncx : is_nan 0.25 = false) by reflexivity.
  assert (Ncy : is_nan 0.5 = false) by reflexivity.
  assert (HM : 0 <= 100) by lia.
  assert (Hk : (3 < Z.to_nat (iter (escape 0.25 0.5 100)))%nat)
    by (vm_compute; lia).
  destruct (orbit_bounded 0.25 0.5 100 3 Ncx Ncy HM Hk)
    as (_ & _ & _ & _ & _ & Hx & _).
  exact Hx.
Defined.

(** ** Points that are not numbers *)

Lemma is_nan_eq (x : float) : is_nan x = true -> x = nan.
Proof.
  intros H. apply Prim2SF_inj. apply is_nan_Prim2SF in H. rewrite H.
  reflexivity.
Qed.

Lemma nan_add_l (x : float) : (nan + x)%float = nan.
Proof. apply Prim2SF_inj. rewrite add_spec. reflexivity. Qed.

Lemma nan_add_r (x : float) : (x + nan)%float = nan.
Proof.
  apply Prim2SF_inj. rewrite add_spec. change (Prim2SF nan) with S754_nan.
  destruct (Prim2SF x); reflexivity.
Qed.

Lemma nan_mul_l (x : float) : (nan * x)%float = nan.
Proof. apply Prim2SF_inj. rewrite mul_spec. reflexivity. Qed.

Lemma nan_div_l (x : float) : (nan / x)%float = nan.
Proof. apply Prim2SF_inj. rewrite div_spec. reflexivity. Qed.

Lemma hsbToRgb_of_nan (s v : float) :
  hsbToRgb nan s v = {| r := nan; g := nan; b := nan |}.
Proof.
  unfold hsbToRgb. cbv zeta.
  change (Js.rem (Js.rem nan 360 + 360) 360) with nan.
  change (Js.rem (Js.Math_floor (nan / 60)) 6) with nan.
  change (nan =? 0)%float with false. change (nan =? 1)%float with false.
  change (nan =? 2)%float with false. change (nan =? 3)%float with false.
  change (nan =? 4)%float with false. change (nan =? 5)%float with false.
  cbn iota. change (Js.Math_round (nan * 255)) with nan. reflexivity.
Qed.

(** The loop stops after the first turn when the sum of the squares of
    [cx] and [cy] is not below 4. *)
Lemma first_turn_exit (cx cy : float) (maxIter : Z) :
  1 <= maxIter -> (cx * cx + cy * cy <? 4)%float = false ->
  escape cx cy maxIter = body cx cy z0.
Proof.
  intros H Hm. rewrite escape_unfold by exact H.
  destruct (body_z0 cx cy) as (E1 & E2 & _).
  destruct (Z.to_nat (maxIter - 1)) as [|fuel]; cbn [while_loop];
    [reflexivity|].
  unfold continues. rewrite E1, E2, Hm. reflexivity.
Qed.

(** The color of an escaped point whose magnitude is NaN. *)
Lemma color_of_nan (Math_log : float -> float) (maxIter it : Z) :
  Math_log nan = nan -> color Math_log maxIter it nan = [0; 0; 0; 255].
Proof.
  intros HL. unfold color, hsb_of, smoothIter_of. cbv zeta.
  change (Js.Math_max nan 1e-10) with nan. rewrite HL.
  change (nan / Js.LN2)%float with nan. rewrite HL.
  change (nan / Js.LN2)%float with nan.
  assert (E : (Js.of_Z (it + 1) - nan)%float = nan).
  { apply Prim2SF_inj. rewrite sub_spec. change (Prim2SF nan) with S754_nan.
    destruct (Prim2SF (Js.of_Z (it + 1))); reflexivity. }
  rewrite E, nan_div_l. change (nan * 1080)%float with nan.
  change (Js.rem nan 360) with nan.
  rewrite hsbToRgb_of_nan. reflexivity.
Qed.

(** X24. A point that is not a number is drawn black: when [cx] or [cy]
    is NaN (for instance a NaN [cenX] or [cenY]), the loop stops after its first
    turn, and, [Math.log(NaN)] being NaN, the hue is NaN, no [case] of
    [hsbToRgb] matches and the pixel gets the bytes [(0, 0, 0, 255)]. *)
Theorem nan_point_black
  (Math_log : float -> float) (cx cy : float) (maxIter : Z) :
  is_nan cx = true \/ is_nan cy = true -> Math_log nan = nan ->
  1 <= maxIter ->
  iter (escape cx cy maxIter) = 1 /\
  shade Math_log maxIter (escape cx cy maxIter) = [0; 0; 0; 255] /\
  (forall (d : Msg.data) (x y : Z),
     is_nan (Msg.cenX d) = true \/ is_nan (Msg.cenY d) = true ->
     1 <= Msg.maxIter d ->
     pixel_bytes Math_log d x y = [0; 0; 0; 255]).
Proof.
  assert (K : forall cx cy maxIter,
            is_nan cx = true \/ is_nan cy = true -> Math_log nan = nan ->
            1 <= maxIter ->
            iter (escape cx cy maxIter) = 1 /\
            shade Math_log maxIter (escape cx cy maxIter) = [0; 0; 0; 255]).
  { clear. intros cx cy maxIter Hn HL HM.
    assert (S : (cx * cx + cy * cy)%float = nan).
    { destruct Hn as [H|H]; apply is_nan_eq in H; subst.
      - change (nan * nan)%float with nan. apply nan_add_l.
      - change (nan * nan)%float with nan. apply nan_add_r. }
    assert (Hm : (cx * cx + cy * cy <? 4)%float = false)
      by (rewrite S; reflexivity).
    rewrite (first_turn_exit cx cy maxIter HM Hm).
    destruct (body_z0 cx cy) as (E1 & E2 & E3).
    split; [exact E3|]. unfold shade. rewrite E3, E1, E2, S.
    destruct (1 =? maxIter); [reflexivity|].
    change (PrimFloat.sqrt nan) with nan. apply color_of_nan. exact HL. }
  intros Hn HL HM. split; [apply K; assumption|].
  split; [apply K; assumption|].
  intros d x y Hd Hmax. unfold pixel_bytes. apply K; try assumption.
  unfold cx_of, cy_of. cbv zeta.
  destruct Hd as [H|H]; apply is_nan_eq in H; rewrite H, nan_add_r;
    [left|right]; reflexivity.
Qed.

Lemma nan_point_black_witness :
  shade Example.log_linear 4500 (escape nan 0 4500) = [0; 0; 0; 255].
Proof.
  assert (Hn : is_nan nan = true \/ is_nan 0 = true) by (left; reflexivity).
  assert (HL : Example.log_linear nan = nan) by reflexivity.
  assert (HM : 1 <= 4500) by lia.
  exact (proj1 (proj2 (nan_point_black Example.log_linear nan 0 4500
                         Hn HL HM))).
Defined.
